(** * scilpy.denoise.asym_enhancement: hemisphere-aware filtering of SH fields

    A shallow embedding of [src/scilpy/denoise/asym_enhancement.py] and the
    properties its specification states about it.

    Numbers.  numpy's float arrays are modelled over the real numbers [R]:
    every arithmetic operation is the exact one, so statements that the
    specification makes "within floating tolerance" are stated exactly.
    Rounding, overflow, infinities and NaN are outside the model; in particular
    the value of the kernel at [sigma = 0] (a division by zero in the source)
    is not claimed to be the one numpy computes.

    Arrays.  An [ndarray] is a dtype, a shape and a C-contiguous buffer, as in
    numpy.  Arrays live in a store; a Python variable holds a reference
    ([loc]).  Slices such as [weights[..., dir_i]] and
    [opposite_dir[ii:ii+3, jj:jj+3, kk:kk+3]] are views: writing through them
    writes the buffer they were taken from. *)

From Stdlib Require Import Reals Lra Lia List String Bool.
From stdpp Require Import base list.
Import ListNotations.
#[local] Open Scope R_scope.

#[global] Instance R_inhabited : Inhabited R := populate 0.

(** ** Exceptions and results *)

Inductive exn : Type :=
| ValueError_reshape
    (* reshape((-1, 0)): cannot reshape array of size 0 *)
| ValueError_not_aligned (n m : nat)
    (* np.dot: shapes (..., n) and (m,) not aligned *)
| Unsupported.
    (* a call outside the modelled domain: dangling reference, array of
       another rank than the docstrings give, mask of another shape than the
       field *)

Inductive result (A : Type) : Type :=
| Ok (a : A)
| Raise (e : exn).
Arguments Ok {A} a.
Arguments Raise {A} e.

Definition is_ok {A} (r : result A) : bool :=
  match r with Ok _ => true | Raise _ => false end.

(** ** numpy arrays *)

Inductive dtype : Type := bool_ | float32 | float64.

Record ndarray : Type := NDArray {
  dtype_of : dtype;
  shape : list nat;
  data : list R
}.

(** [a.shape[n]] *)
Definition dim (a : ndarray) (n : nat) : nat := nth n (shape a) 0%nat.

(** [a.size] *)
Definition size_of (s : list nat) : nat := fold_right Nat.mul 1%nat s.

(** [np.sum] of a flat buffer. *)
Definition Rsum (l : list R) : R := fold_right Rplus 0 l.

(** Elementwise product of two flattened arrays. *)
Definition mul (u v : list R) : list R := zip_with Rmult u v.

(** [a[i, j, k]] of a 3-dimensional array; the source only indexes in range. *)
Definition ravel3 (ny nz i j k : nat) : nat := ((i * ny + j) * nz + k)%nat.

Definition item3 (a : ndarray) (i j k : nat) : R :=
  data a !!! ravel3 (dim a 1) (dim a 2) i j k.

(** [a[i, j, k, c]] of a 4-dimensional array. *)
Definition ravel4 (ny nz nc i j k c : nat) : nat :=
  (((i * ny + j) * nz + k) * nc + c)%nat.

Definition item4 (a : ndarray) (i j k c : nat) : R :=
  data a !!! ravel4 (dim a 1) (dim a 2) (dim a 3) i j k c.

(** The array of the given shape whose element at each index is [f] of it
    (how every elementwise numpy expression below is written). *)
Definition full3 (dt : dtype) (nx ny nz : nat) (f : nat -> nat -> nat -> R)
  : ndarray :=
  NDArray dt [nx; ny; nz]
    (map (fun p => f (p / (ny * nz)) (p / nz mod ny) (p mod nz))%nat
         (seq 0 (nx * ny * nz))).

Definition full4 (dt : dtype) (nx ny nz nc : nat)
    (f : nat -> nat -> nat -> nat -> R) : ndarray :=
  NDArray dt [nx; ny; nz; nc]
    (map (fun p => f (p / (ny * nz * nc)) (p / (nz * nc) mod ny)
                     (p / nc mod nz) (p mod nc))%nat
         (seq 0 (nx * ny * nz * nc))).

(** [a[i, j, k] = v] *)
Definition set3 (a : ndarray) (i j k : nat) (v : R) : ndarray :=
  NDArray (dtype_of a) (shape a)
    (<[ravel3 (dim a 1) (dim a 2) i j k := v]> (data a)).

(** ** The sphere and the basis provider (dipy) *)

(** [sphere.vertices]: an (N, 3) array, one row per direction. *)
Abbreviation Sphere := (list (R * R * R)).

(** [Sphere(xyz=-sphere.vertices)] *)
Definition neg_sphere (s : Sphere) : Sphere :=
  map (fun v => match v with (x, y, z) => (- x, - y, - z) end) s.



Inductive basis : Type := descoteaux07 | tournier07.

(** ** Weight kernel: [_get_weights] *)

(** Lines 110-116: [directions[x, y, z, :] = (x - 1, y - 1, z - 1)]. *)
Definition directions : ndarray :=
  full4 float64 3 3 3 3
    (fun x y z c => match c with
                    | 0%nat => INR x - 1
                    | 1%nat => INR y - 1
                    | _ => INR z - 1
                    end).

(** Lines 118-119. *)
Definition non_zero_dir (x y z : nat) : bool :=
  negb ((x =? 1)%nat && (y =? 1)%nat && (z =? 1)%nat).

(** Line 122: [np.linalg.norm(directions, axis=-1, keepdims=True)]. *)
Definition dir_norm : ndarray :=
  full4 float64 3 3 3 1
    (fun x y z _ =>
       sqrt (Rsum (map (fun c => item4 directions x y z c ^ 2) (seq 0 3)))).

(** Line 123: [directions[non_zero_dir] /= dir_norm[non_zero_dir]]. *)
Definition unit_directions : ndarray :=
  full4 float64 3 3 3 3
    (fun x y z c =>
       if non_zero_dir x y z
       then item4 directions x y z c / item4 dir_norm x y z 0
       else item4 directions x y z c).

(** Line 125: [np.exp(-dir_norm**2 / (2 * sigma**2))]. *)
Definition g_weights (sigma : R) : ndarray :=
  full4 float64 3 3 3 1
    (fun x y z _ => exp (- item4 dir_norm x y z 0 ^ 2 / (2 * sigma ^ 2))).

(** Line 126: [np.dot(directions, sphere.vertices.T)]. *)
Definition coord (v : R * R * R) (c : nat) : R :=
  match v, c with
  | (x, _, _), 0%nat => x
  | (_, y, _), 1%nat => y
  | (_, _, z), _ => z
  end.

Definition dot_vertices (sphere : Sphere) : ndarray :=
  full4 float64 3 3 3 (length sphere)
    (fun x y z n =>
       Rsum (map (fun c => item4 unit_directions x y z c
                           * coord (sphere !!! n) c) (seq 0 3))).

(** Line 128: [np.where(d_weights > 0.0, d_weights**dot_sharpness, 0.0)].
    Only the powers of positive entries are kept, where [**] is the real
    power. *)
Definition d_weights (sphere : Sphere) (dot_sharpness : R) : ndarray :=
  full4 float64 3 3 3 (length sphere)
    (fun x y z n =>
       let d := item4 (dot_vertices sphere) x y z n in
       if Rlt_dec 0 d then Rpower d dot_sharpness else 0).

(** Line 129: [weights = d_weights * g_weights] (broadcast on the last
    axis). *)
Definition combined_weights (sphere : Sphere) (dot_sharpness sigma : R)
  : ndarray :=
  full4 float64 3 3 3 (length sphere)
    (fun x y z n => item4 (d_weights sphere dot_sharpness) x y z n
                    * item4 (g_weights sigma) x y z 0).

(** Line 130: [weights[1, 1, 1, :] = 1.0]. *)
Definition centred_weights (sphere : Sphere) (dot_sharpness sigma : R)
  : ndarray :=
  full4 float64 3 3 3 (length sphere)
    (fun x y z n =>
       if non_zero_dir x y z
       then item4 (combined_weights sphere dot_sharpness sigma) x y z n
       else 1).

(** [w[..., n].flatten()]: the 27 offset weights of direction [n]. *)
Definition dir_slice (w : ndarray) (n : nat) : list R :=
  map (fun o => data w !!! (o * dim w 3 + n)%nat) (seq 0 27).

(** Line 133: [weights.reshape((-1, weights.shape[-1])).sum(axis=0)].
    numpy refuses to infer the [-1] when the other dimension is 0. *)
Definition column_sums (w : ndarray) : result (list R) :=
  match dim w 3 with
  | O => Raise ValueError_reshape
  | S _ =>
      Ok (map (fun n =>
                 Rsum (map (fun o => data w !!! (o * dim w 3 + n)%nat)
                           (seq 0 (length (data w) / dim w 3))))
              (seq 0 (dim w 3)))
  end.

(** Lines 133-135: [weights /= sums] (broadcast on the last axis), then
    return. *)
Definition _get_weights (sphere : Sphere) (dot_sharpness sigma : R)
  : result ndarray :=
  let weights := centred_weights sphere dot_sharpness sigma in
  match column_sums weights with
  | Raise e => Raise e
  | Ok sums =>
      Ok (full4 float64 3 3 3 (length sphere)
            (fun x y z n => item4 weights x y z n / sums !!! n))
  end.

(** [a[i, j]] of a 2-dimensional array. *)
Definition item2 (a : ndarray) (i j : nat) : R :=
  data a !!! (i * dim a 1 + j)%nat.

(** [B[:, d]] *)
Definition column (B : ndarray) (d : nat) : list R :=
  map (fun r => item2 B r d) (seq 0 (dim B 0)).

(** [a[i, j, k, c] = v] *)
Definition set4 (a : ndarray) (i j k c : nat) (v : R) : ndarray :=
  NDArray (dtype_of a) (shape a)
    (<[ravel4 (dim a 1) (dim a 2) (dim a 3) i j k c := v]> (data a)).

(** [np.zeros(s)] and [np.zeros_like(a)] *)
Definition zeros (dt : dtype) (s : list nat) : ndarray :=
  NDArray dt s (repeat 0 (size_of s)).

(** [np.pad(a, ((1, 1), (1, 1), (1, 1)))]: a new array, one cell of zeros
    around [a]. *)
Definition pad3 (a : ndarray) : ndarray :=
  full3 (dtype_of a) (dim a 0 + 2) (dim a 1 + 2) (dim a 2 + 2)
    (fun i j k =>
       if ((1 <=? i) && (i <=? dim a 0) && (1 <=? j) && (j <=? dim a 1)
           && (1 <=? k) && (k <=? dim a 2))%nat
       then item3 a (i - 1) (j - 1) (k - 1)
       else 0).

(** [p[ii:ii+3, jj:jj+3, kk:kk+3].flatten()] read from a padded array. *)
Definition window (p : ndarray) (ii jj kk : nat) : list R :=
  map (fun o => item3 p (ii + o / 9) (jj + o / 3 mod 3) (kk + o mod 3))%nat
      (seq 0 27).

(** [l.any()] *)
Definition np_any (l : list R) : bool :=
  existsb (fun x => if Req_dec_T x 0 then false else true) l.

(** Lines 151-153: [curr_w = w_filter * win_mask], divided by its sum when
    it has a non-zero entry. *)
Definition window_weights (w_filter win_mask : list R) : list R :=
  let curr_w := mul w_filter win_mask in
  if np_any curr_w then map (fun x => x / Rsum curr_w) curr_w else curr_w.

(** [np.dot(a, v)] of a 4-dimensional array and a vector: the sum over the
    last axis, or numpy's error when the lengths differ. *)
Definition contract_last (a : ndarray) (v : list R) : ndarray :=
  full3 float64 (dim a 0) (dim a 1) (dim a 2)
    (fun i j k =>
       Rsum (map (fun c => item4 a i j k c * v !!! c) (seq 0 (dim a 3)))).

Definition dot_last (a : ndarray) (v : list R) : result ndarray :=
  match shape a with
  | [_; _; _; nc] =>
      if (nc =? length v)%nat
      then Ok (contract_last a v)
      else Raise (ValueError_not_aligned nc (length v))
  | _ => Raise Unsupported
  end.

(** [c * a] for a scalar [c]. *)
Definition scale (c : R) (a : ndarray) : ndarray :=
  NDArray (dtype_of a) (shape a) (map (fun x => c * x) (data a)).

(** [scipy.ndimage.correlate(a, w, mode='constant')] for a 3x3x3 kernel [w]
    given flattened: the input is extended by zeros and every output cell
    is the sum of the products of the kernel with the window centred
    there. *)
Definition correlate3 (a : ndarray) (w : list R) : ndarray :=
  full3 (dtype_of a) (dim a 0) (dim a 1) (dim a 2)
    (fun i j k => Rsum (mul (window (pad3 a) i j k) w)).

(** [ms[..., d] = r] and [ms[..., d] += r] *)
Definition assign_dir (ms : ndarray) (d : nat) (r : ndarray) : ndarray :=
  full4 (dtype_of ms) (dim ms 0) (dim ms 1) (dim ms 2) (dim ms 3)
    (fun i j k c => if (c =? d)%nat then item3 r i j k else item4 ms i j k c).

Definition add_dir (ms : ndarray) (d : nat) (r : ndarray) : ndarray :=
  full4 (dtype_of ms) (dim ms 0) (dim ms 1) (dim ms 2) (dim ms 3)
    (fun i j k c =>
       if (c =? d)%nat then item4 ms i j k c + item3 r i j k
       else item4 ms i j k c).

(** [ms[i]]: the i-th item of the iteration over the first axis. *)
Definition plane (ms : ndarray) (i : nat) : ndarray :=
  full3 (dtype_of ms) (dim ms 1) (dim ms 2) (dim ms 3)
    (fun j k d => item4 ms i j k d).

(** [np.dot(p, Binv)] of a 3-dimensional array and a matrix. *)
Definition dot_matrix (p Binv : ndarray) : result ndarray :=
  if (dim p 2 =? dim Binv 0)%nat
  then Ok (full3 float64 (dim p 0) (dim p 1) (dim Binv 1)
             (fun j k c =>
                Rsum (map (fun d => item3 p j k d * item2 Binv d c)
                          (seq 0 (dim p 2)))))
  else Raise (ValueError_not_aligned (dim p 2) (dim Binv 0)).

(** [np.array(planes, dtype=dt)] of a list of arrays of one shape: the
    empty list gives the 1-dimensional array of shape (0,). *)
Definition np_array (planes : list ndarray) (dt : dtype) : ndarray :=
  match planes with
  | [] => NDArray dt [0%nat] []
  | p :: _ =>
      NDArray dt (length planes :: shape p) (concat (map data planes))
  end.

(** Results of a list comprehension whose body may raise. *)
Fixpoint collect {A B} (f : A -> result B) (l : list A) : result (list B) :=
  match l with
  | [] => Ok []
  | a :: l' =>
      match f a with
      | Raise e => Raise e
      | Ok b => match collect f l' with
                | Raise e => Raise e
                | Ok bs => Ok (b :: bs)
                end
      end
  end.

(** ** The store *)

Abbreviation loc := nat.
Abbreviation heap := (list ndarray).

(** A computation reads and writes the store and returns or raises; the
    store survives an exception. *)
Definition M (A : Type) : Type := heap -> result A * heap.

Definition ret {A} (a : A) : M A := fun h => (Ok a, h).
Definition raise {A} (e : exn) : M A := fun h => (Raise e, h).
Definition bind {A B} (m : M A) (k : A -> M B) : M B :=
  fun h => match m h with
           | (Ok a, h') => k a h'
           | (Raise e, h') => (Raise e, h')
           end.
Definition lift {A} (r : result A) : M A := fun h => (r, h).

Declare Scope np_scope.
Delimit Scope np_scope with np.
Notation "x <- m ;; k" := (bind m (fun x => k))
  (at level 100, m at next level, right associativity) : np_scope.
Notation "m ;; k" := (bind m (fun _ => k))
  (at level 100, right associativity) : np_scope.
#[local] Open Scope np_scope.

(** A new array object. *)
Definition alloc (a : ndarray) : M loc :=
  fun h => (Ok (length h), h ++ [a]).

Definition load (l : loc) : M ndarray :=
  fun h => match h !! l with
           | Some a => (Ok a, h)
           | None => (Raise Unsupported, h)
           end.

Definition store (l : loc) (a : ndarray) : M unit :=
  fun h => (Ok tt, <[l := a]> h).

(** [for x in l: body] *)
Fixpoint for_ {A} (l : list A) (body : A -> M unit) : M unit :=
  match l with
  | [] => ret tt
  | a :: l' => body a ;; for_ l' body
  end.

(** numpy functions on references: they read their arguments and return a
    new array. *)
Definition np_zeros (s : list nat) : M loc := alloc (zeros float64 s).

Definition np_zeros_like (l : loc) : M loc :=
  a <- load l ;; alloc (zeros (dtype_of a) (shape a)).

Definition np_pad (l : loc) : M loc :=
  a <- load l ;;
  match shape a with
  | [_; _; _] => alloc (pad3 a)
  | _ => raise Unsupported
  end.

Definition np_dot (l : loc) (v : list R) : M loc :=
  a <- load l ;; r <- lift (dot_last a v) ;; alloc r.

(** [a[i, j, k]] and [a[i, j, k] = v] through a reference. *)
Definition get_item3 (l : loc) (i j k : nat) : M R :=
  a <- load l ;; ret (item3 a i j k).

Definition set_item3 (l : loc) (i j k : nat) (v : R) : M unit :=
  a <- load l ;; store l (set3 a i j k v).

(** The view [w[..., d]] of a 4-dimensional kernel: the reference to the
    kernel and the direction. *)
Record view : Type := View { base : loc; dir : nat }.

Definition view_item (w : view) (x y z : nat) : M R :=
  a <- load (base w) ;; ret (item4 a x y z (dir w)).

Definition view_set (w : view) (x y z : nat) (v : R) : M unit :=
  a <- load (base w) ;; store (base w) (set4 a x y z (dir w) v).

Definition view_flat (w : view) : M (list R) :=
  a <- load (base w) ;; ret (dir_slice a (dir w)).

(** The window [p[ii:ii+3, jj:jj+3, kk:kk+3]] is a view of [p]: it is read
    from the store each time it is used. *)
Definition get_window (p : loc) (ii jj kk : nat) : M (list R) :=
  a <- load p ;; ret (window a ii jj kk).

(** [ms[..., d] = r] and [ms[..., d] += r] through references. *)
Definition set_dir (ms : loc) (d : nat) (r : loc) : M unit :=
  a <- load ms ;; b <- load r ;; store ms (assign_dir a d b).

Definition iadd_dir (ms : loc) (d : nat) (r : loc) : M unit :=
  a <- load ms ;; b <- load r ;; store ms (add_dir a d b).

Definition np_scale (c : R) (l : loc) : M loc :=
  a <- load l ;; alloc (scale c a).

Definition correlate (input : loc) (w : view) : M loc :=
  a <- load input ;; wv <- view_flat w ;; alloc (correlate3 a wv).

(** ** Masked path: [_apply_naive_correlation] *)

(** Lines 147-157, the body of the three loops.  [win_arr] is a view of the
    padded [opposite_dir]: the assignment to its centre writes the padded
    array, and the window is read from it afterwards. *)
Definition naive_body (out curr_dir opposite_dir : loc) (w_filter : view)
    (mask : loc) (ii jj kk : nat) : M unit :=
  v <- get_item3 curr_dir (ii + 1) (jj + 1) (kk + 1) ;;
  set_item3 opposite_dir (ii + 1) (jj + 1) (kk + 1) v ;;
  win_mask <- get_window mask ii jj kk ;;
  wv <- view_flat w_filter ;;
  let curr_w := window_weights wv win_mask in
  if Rlt_dec 0 (win_mask !!! 13%nat)
  then win_arr <- get_window opposite_dir ii jj kk ;;
       set_item3 out ii jj kk (Rsum (mul win_arr curr_w))
  else ret tt.

Definition _apply_naive_correlation (curr_dir opposite_dir : loc)
    (w_filter : view) (mask : loc) : M loc :=
  c <- load curr_dir ;;
  o <- load opposite_dir ;;
  m <- load mask ;;
  match shape c with
  | [nx; ny; nz] =>
      if bool_decide (shape o = shape c /\ shape m = shape c)
      then
        out <- np_zeros_like curr_dir ;;
        curr_dir <- np_pad curr_dir ;;
        opposite_dir <- np_pad opposite_dir ;;
        mask <- np_pad mask ;;
        for_ (seq 0 nx) (fun ii =>
          for_ (seq 0 ny) (fun jj =>
            for_ (seq 0 nz) (fun kk =>
              naive_body out curr_dir opposite_dir w_filter mask ii jj kk))) ;;
        ret out
      else raise Unsupported
  | _ => raise Unsupported
  end.

(** ** The filter: [local_asym_gaussian_filtering] *)

Section Filter.

(** dipy's providers.  [sh_to_sf_matrix sphere sh_order basis full_basis]
    is the pair [(B, invB)]; with [return_inv=False] the source keeps [B]. *)
Variable get_sphere : string -> Sphere.
Variable sh_to_sf_matrix : Sphere -> nat -> basis -> bool -> ndarray * ndarray.

(** Lines 68-82, the body of the loop over the sphere directions. *)
Definition filter_direction (in_sh weights mean_sf : loc) (B neg_B : ndarray)
    (mask : option loc) (dir_i : nat) : M unit :=
  let w_filter := View weights dir_i in
  curr_dir_eval <- np_dot in_sh (column B dir_i) ;;
  opposite_dir_eval <- np_dot in_sh (column neg_B dir_i) ;;
  match mask with
  | None =>
      c <- view_item w_filter 1 1 1 ;;
      t <- np_scale c curr_dir_eval ;;
      set_dir mean_sf dir_i t ;;
      view_set w_filter 1 1 1 0 ;;
      r <- correlate opposite_dir_eval w_filter ;;
      iadd_dir mean_sf dir_i r
  | Some mask =>
      r <- _apply_naive_correlation curr_dir_eval opposite_dir_eval
             w_filter mask ;;
      set_dir mean_sf dir_i r
  end.

(** Lines 45-82: the kernel, the projection matrices and the filtered
    samples [mean_sf] on the sphere. *)
Definition filter_on_sphere (in_sh : loc) (sh_order : nat) (sh_basis : basis)
    (dot_sharpness : R) (sphere_str : string) (sigma : R)
    (mask : option loc) : M loc :=
  let sphere := get_sphere sphere_str in
  w <- lift (_get_weights sphere dot_sharpness sigma) ;;
  weights <- alloc w ;;
  a <- load in_sh ;;
  match shape a with
  | [nx; ny; nz; nc] =>
      let in_full_basis := (nc =? (sh_order + 1) ^ 2)%nat in
      let nb_dir := length sphere in
      mean_sf <- np_zeros [nx; ny; nz; nb_dir] ;;
      let B := fst (sh_to_sf_matrix sphere sh_order sh_basis in_full_basis) in
      let neg_B := fst (sh_to_sf_matrix (neg_sphere sphere) sh_order sh_basis
                          in_full_basis) in
      for_ (seq 0 nb_dir)
           (filter_direction in_sh weights mean_sf B neg_B mask) ;;
      ret mean_sf
  | _ => raise Unsupported
  end.

(** Lines 84-89: back to SH coefficients, in the dtype of the input. *)
Definition local_asym_gaussian_filtering (in_sh : loc) (sh_order : nat)
    (sh_basis : basis) (out_full_basis : bool) (dot_sharpness : R)
    (sphere_str : string) (sigma : R) (mask : option loc) : M loc :=
  mean_sf <- filter_on_sphere in_sh sh_order sh_basis dot_sharpness
               sphere_str sigma mask ;;
  let sphere := get_sphere sphere_str in
  let B_inv := snd (sh_to_sf_matrix sphere sh_order sh_basis out_full_basis) in
  ms <- load mean_sf ;;
  planes <- lift (collect (fun i => dot_matrix (plane ms i) B_inv)
                          (seq 0 (dim ms 0))) ;;
  a <- load in_sh ;;
  alloc (np_array planes (dtype_of a)).

End Filter.

(** ** What the loops compute

    The loops of the source, as functions on the contents of the arrays they
    write.  The theorems below relate them to the programs above. *)

(** One iteration of the masked loops on the contents of the padded
    [opposite_dir] and of [out]. *)
Definition naive_step (cp mp : ndarray) (wv : list R) (ii jj kk : nat)
    (s : ndarray * ndarray) : ndarray * ndarray :=
  let op := set3 (fst s) (ii + 1) (jj + 1) (kk + 1)
                 (item3 cp (ii + 1) (jj + 1) (kk + 1)) in
  let win_mask := window mp ii jj kk in
  let curr_w := window_weights wv win_mask in
  (op,
   if Rlt_dec 0 (win_mask !!! 13%nat)
   then set3 (snd s) ii jj kk (Rsum (mul (window op ii jj kk) curr_w))
   else snd s).

Definition naive_loop (cp mp : ndarray) (wv : list R) (nx ny nz : nat)
    (s : ndarray * ndarray) : ndarray * ndarray :=
  fold_left (fun s ii =>
    fold_left (fun s jj =>
      fold_left (fun s kk => naive_step cp mp wv ii jj kk s) (seq 0 nz) s)
      (seq 0 ny) s)
    (seq 0 nx) s.

(** The final contents of the padded [opposite_dir] and of [out]. *)
Definition naive_final (c o m : ndarray) (wv : list R) : ndarray * ndarray :=
  naive_loop (pad3 c) (pad3 m) wv (dim c 0) (dim c 1) (dim c 2)
    (pad3 o, zeros (dtype_of c) (shape c)).

(** The unmasked path of lines 72-78 on the contents of [mean_sf]. *)
Definition unmasked_direction (w : ndarray) (ms c o : ndarray) (d : nat)
  : ndarray :=
  let ms1 := assign_dir ms d (scale (item4 w 1 1 1 d) c) in
  add_dir ms1 d (correlate3 o (dir_slice (set4 w 1 1 1 d 0) d)).

(** The masked path of lines 80-82 on the contents of [mean_sf]. *)
Definition masked_direction (w : ndarray) (ms c o m : ndarray) (d : nat)
  : ndarray :=
  assign_dir ms d (snd (naive_final c o m (dir_slice w d))).

(** While the loops run, the store is the store at the call followed by
    [out] and the three padded arrays. *)
Definition naive_heap (h0 : heap) (cp mp : ndarray) (s : ndarray * ndarray)
  : heap :=
  h0 ++ [snd s; cp; fst s; mp].

(** The three loops as one loop over the flat index [t] of the voxel. *)
Definition flat_loop (cp mp : ndarray) (wv : list R) (ny nz : nat) (n : nat)
    (s : ndarray * ndarray) : ndarray * ndarray :=
  fold_left (fun s t =>
               naive_step cp mp wv (t / (ny * nz)) (t mod (ny * nz) / nz)
                          (t mod (ny * nz) mod nz) s)%nat
            (seq 0 n) s.

(** The window that the loop body reads at voxel [(i, j, k)]: the cells up to
    the centre in scan order have been visited and hold the direct sample
    (the write through [win_arr]), the later ones the antipodal sample. *)
Definition scan_window (c o : ndarray) (i j k : nat) : list R :=
  map (fun t =>
         if (t <=? 13)%nat
         then item3 (pad3 c) (i + t / 9) (j + t / 3 mod 3) (k + t mod 3)
         else item3 (pad3 o) (i + t / 9) (j + t / 3 mod 3) (k + t mod 3))%nat
      (seq 0 27).

(** The value the masked path leaves in [out[i, j, k]]. *)
Definition naive_value (c o m : ndarray) (wv : list R) (i j k : nat) : R :=
  if Rlt_dec 0 (item3 m i j k)
  then Rsum (mul (scan_window c o i j k)
                 (window_weights wv (window (pad3 m) i j k)))
  else 0.

(** The value the unmasked path leaves in [mean_sf[i, j, k, d]], for the
    kernel slice [wv] of the direction and the samples [c] and [o]. *)
Definition unmasked_value (c o : ndarray) (wv : list R) (i j k : nat) : R :=
  wv !!! 13%nat * item3 c i j k
  + Rsum (mul (window (pad3 o) i j k) (<[13%nat := 0]> wv)).

(** The filtered sample of direction [d] at voxel [(i, j, k)], for the
    input [a], the projection matrices, the kernel [w] and the mask. *)
Definition filtered_value (a B negB w : ndarray) (mask : option ndarray)
    (d i j k : nat) : R :=
  let c := contract_last a (column B d) in
  let o := contract_last a (column negB d) in
  match mask with
  | None => unmasked_value c o (dir_slice w d) i j k
  | Some m => naive_value c o m (dir_slice w d) i j k
  end.

(** The plane [i] of the output: [np.dot(mean_sf[i], B_inv)]. *)
Definition reconstructed (ms Binv : ndarray) (i : nat) : ndarray :=
  full3 float64 (dim ms 1) (dim ms 2) (dim Binv 1)
    (fun j k c =>
       Rsum (map (fun d => item4 ms i j k d * item2 Binv d c)
                 (seq 0 (dim ms 3)))).

(** ** Stand-ins for the providers

    dipy's sphere and basis providers are parameters of the filter.  To run
    the filter on concrete inputs they are instantiated by a sphere of one
    direction and by all-ones matrices of the shapes that dipy returns. *)

(** The number of SH coefficients of an order, in the full and in the
    symmetric basis. *)
Definition n_coeffs (sh_order : nat) (full_basis : bool) : nat :=
  if full_basis then ((sh_order + 1) ^ 2)%nat
  else ((sh_order + 1) * (sh_order + 2) / 2)%nat.

Definition constant_matrix (r c : nat) (v : R) : ndarray :=
  NDArray float64 [r; c] (repeat v (r * c)).

Definition demo_get_sphere (_ : string) : Sphere := [(1, 0, 0)].

Definition demo_sh_to_sf_matrix (s : Sphere) (sh_order : nat) (_ : basis)
    (full_basis : bool) : ndarray * ndarray :=
  (constant_matrix (n_coeffs sh_order full_basis) (length s) 1,
   constant_matrix (length s) (n_coeffs sh_order full_basis) 1).

(** The kernel of the one-direction sphere for [dot_sharpness = 1] and
    [sigma = 1]. *)
Definition demo_kernel : ndarray :=
  match _get_weights (demo_get_sphere EmptyString) 1 1 with
  | Ok w => w
  | Raise _ => zeros float64 []
  end.

(** A field of one voxel and one coefficient, and masks of one voxel. *)
Definition one_voxel (v : R) : ndarray := NDArray float64 [1; 1; 1; 1]%nat [v].
Definition one_voxel_mask (v : R) : ndarray := NDArray bool_ [1; 1; 1]%nat [v].

(** The samples of one direction on a volume of one voxel. *)
Definition one_voxel_sample (v : R) : ndarray :=
  NDArray float64 [1; 1; 1]%nat [v].

(** A field of 3x3x3 voxels with one coefficient, and its all-true mask. *)
Definition cube_field : ndarray :=
  NDArray float64 [3; 3; 3; 1]%nat (repeat 1 27).
Definition cube_mask : ndarray := NDArray bool_ [3; 3; 3]%nat (repeat 1 27).

(** An empty field (no plane along the first axis) and its mask. *)
Definition empty_field : ndarray := NDArray float64 [0; 1; 1; 1]%nat [].
Definition empty_mask : ndarray := NDArray bool_ [0; 1; 1]%nat [].

(** The voxel [(i', j', k')] is visited before [(i, j, k)] by the three
    loops of the masked path. *)
Definition scanned_before (i j k i' j' k' : nat) : Prop :=
  (i' < i \/ (i' = i /\ (j' < j \/ (j' = j /\ k' < k))))%nat.

(** ** Predicates used in the statements *)

(** Well-shaped arrays: the buffer has as many cells as the shape says. *)
Definition wf3 (a : ndarray) (nx ny nz : nat) : Prop :=
  shape a = [nx; ny; nz] /\ length (data a) = (nx * ny * nz)%nat.

Definition wf4 (a : ndarray) (nx ny nz nc : nat) : Prop :=
  shape a = [nx; ny; nz; nc] /\ length (data a) = (nx * ny * nz * nc)%nat.


(** [c3 = x * c1 + y * c2], cell by cell, for arrays of shape
    [(nx, ny, nz)]. *)
Definition combination3 (x y : R) (nx ny nz : nat) (c1 c2 c3 : ndarray)
  : Prop :=
  forall i j k, (i < nx)%nat -> (j < ny)%nat -> (k < nz)%nat ->
    item3 c3 i j k = x * item3 c1 i j k + y * item3 c2 i j k.

(** The store after one direction of the loop, seen from the store [h]
    before it: the kernel holds [W'], [mean_sf] holds [MS'], and every
    other object of [h] is unchanged. *)
Definition dir_post (h : heap) (lw lms : loc) (W' MS' : ndarray) (h' : heap)
  : Prop :=
  (length h <= length h')%nat
  /\ h' !! lw = Some W' /\ h' !! lms = Some MS'
  /\ forall l, (l < length h)%nat -> l <> lw -> l <> lms -> h' !! l = h !! l.

(** Frame: a computation leaves the first [n] objects of the store alone

    [frame n m Q]: run from a store of at least [n] objects, [m] leaves the
    first [n] as they were, whether it returns or raises, and a returned
    value satisfies [Q]. *)

Definition frame {A} (n : nat) (m : M A) (Q : A -> Prop) : Prop :=
  forall h r h', (n <= length h)%nat -> m h = (r, h') ->
    take n h' = take n h /\ (n <= length h')%nat
    /\ forall a, r = Ok a -> Q a.

(** * Arrays: indexing lemmas *)

Lemma divmod_add (a n b : nat) :
  (b < n)%nat -> ((a * n + b) / n = a /\ (a * n + b) mod n = b)%nat.
Proof.
  intros Hb. split.
  - rewrite Nat.div_add_l by lia. rewrite Nat.div_small by lia. lia.
  - rewrite Nat.add_comm, Nat.Div0.mod_add. apply Nat.mod_small; lia.
Qed.

Lemma lookup_total_map_seq (g : nat -> R) (n p : nat) :
  (p < n)%nat -> map g (seq 0 n) !!! p = g p.
Proof.
  intros Hp. apply list_lookup_total_correct.
  change (map g (seq 0 n)) with (g <$> seq 0 n).
  rewrite list_lookup_fmap, lookup_seq_lt by lia. reflexivity.
Qed.

Lemma ravel_bound (n m a b : nat) :
  (a < n)%nat -> (b < m)%nat -> (a * m + b < n * m)%nat.
Proof. intros. nia. Qed.

Lemma full3_item (dt : dtype) (nx ny nz : nat) f (i j k : nat) :
  (i < nx)%nat -> (j < ny)%nat -> (k < nz)%nat ->
  item3 (full3 dt nx ny nz f) i j k = f i j k.
Proof.
  intros Hi Hj Hk. unfold item3, full3, dim, ravel3. cbn [shape data nth].
  pose proof (ravel_bound _ _ _ _ Hi Hj) as H1.
  pose proof (ravel_bound _ _ _ _ H1 Hk) as H2.
  rewrite lookup_total_map_seq by lia.
  destruct (divmod_add (i * ny + j) nz k Hk) as [E1 E2].
  destruct (divmod_add i ny j Hj) as [E3 E4].
  rewrite E2, E1, E4.
  rewrite (Nat.mul_comm ny nz), <- Nat.Div0.div_div, E1, E3. reflexivity.
Qed.

Lemma full4_flat (dt : dtype) (nx ny nz nc : nat) f (o n : nat) :
  (o < nx * ny * nz)%nat -> (n < nc)%nat ->
  data (full4 dt nx ny nz nc f) !!! (o * nc + n)%nat
  = f (o / (ny * nz))%nat (o / nz mod ny)%nat (o mod nz)%nat n.
Proof.
  intros Ho Hn. unfold full4. cbn [data].
  pose proof (ravel_bound _ _ _ _ Ho Hn) as H1.
  rewrite lookup_total_map_seq by lia.
  destruct (divmod_add o nc n Hn) as [E1 E2].
  rewrite E2, E1.
  rewrite (Nat.mul_comm nz nc), <- (Nat.Div0.div_div _ nc nz), E1.
  rewrite (Nat.mul_comm (ny * nz) nc), <- (Nat.Div0.div_div _ nc (ny * nz)), E1.
  reflexivity.
Qed.

Lemma full4_item (dt : dtype) (nx ny nz nc : nat) f (i j k c : nat) :
  (i < nx)%nat -> (j < ny)%nat -> (k < nz)%nat -> (c < nc)%nat ->
  item4 (full4 dt nx ny nz nc f) i j k c = f i j k c.
Proof.
  intros Hi Hj Hk Hc. unfold item4, ravel4, dim. cbn [shape full4 nth].
  pose proof (ravel_bound _ _ _ _ Hi Hj) as H1.
  pose proof (ravel_bound _ _ _ _ H1 Hk) as H2.
  change (NDArray dt [nx; ny; nz; nc] _) with (full4 dt nx ny nz nc f).
  rewrite full4_flat by lia.
  destruct (divmod_add (i * ny + j) nz k Hk) as [E1 E2].
  destruct (divmod_add i ny j Hj) as [E3 E4].
  rewrite E2, E1, E4.
  rewrite (Nat.mul_comm ny nz), <- Nat.Div0.div_div, E1, E3. reflexivity.
Qed.

Lemma full4_length dt nx ny nz nc f :
  length (data (full4 dt nx ny nz nc f)) = (nx * ny * nz * nc)%nat.
Proof. unfold full4. cbn [data]. rewrite length_map, length_seq. reflexivity. Qed.

Lemma full3_length dt nx ny nz f :
  length (data (full3 dt nx ny nz f)) = (nx * ny * nz)%nat.
Proof. unfold full3. cbn [data]. rewrite length_map, length_seq. reflexivity. Qed.

(** The 27 entries of a direction of a 3x3x3xN array given elementwise. *)
Lemma full4_dir_slice dt nc f (n : nat) :
  (n < nc)%nat ->
  dir_slice (full4 dt 3 3 3 nc f) n
  = map (fun o => f (o / 9) (o / 3 mod 3) (o mod 3) n)%nat (seq 0 27).
Proof.
  intros Hn. unfold dir_slice. apply map_ext_in. intros o Ho.
  apply in_seq in Ho. unfold dim. cbn [shape full4 nth].
  change (NDArray dt [3; 3; 3; nc]%nat _) with (full4 dt 3 3 3 nc f).
  rewrite full4_flat by lia. reflexivity.
Qed.

(** * Sums *)

Lemma Rsum_nonneg (l : list R) : Forall (fun x => 0 <= x) l -> 0 <= Rsum l.
Proof. induction 1 as [|x l Hx Hl IH]; unfold Rsum in *; simpl; lra. Qed.

Lemma Rsum_ge_item (l : list R) (i : nat) (x : R) :
  Forall (fun x => 0 <= x) l -> l !! i = Some x -> x <= Rsum l.
Proof.
  intros Hl. revert i. induction Hl as [|y l Hy Hl IH]; intros i Hi.
  - discriminate.
  - pose proof (Rsum_nonneg l Hl) as Hs.
    destruct i as [|i]; unfold Rsum in *; simpl in *.
    + injection Hi as ->. lra.
    + specialize (IH i Hi). lra.
Qed.

Lemma Rsum_map_div (l : list R) (s : R) :
  Rsum (map (fun x => x / s) l) = Rsum l / s.
Proof. induction l as [|x l IH]; unfold Rsum in *; simpl; [|rewrite IH]; lra. Qed.

(** * The weight kernel *)

Lemma offset_bounds (o : nat) :
  (o < 27)%nat -> (o / 9 < 3 /\ o / 3 mod 3 < 3 /\ o mod 3 < 3)%nat.
Proof.
  intros Ho. repeat split.
  - apply Nat.Div0.div_lt_upper_bound; lia.
  - apply Nat.mod_upper_bound; lia.
  - apply Nat.mod_upper_bound; lia.
Qed.

Lemma d_weights_item sphere ds x y z n :
  (x < 3)%nat -> (y < 3)%nat -> (z < 3)%nat -> (n < length sphere)%nat ->
  item4 (d_weights sphere ds) x y z n
  = if Rlt_dec 0 (item4 (dot_vertices sphere) x y z n)
    then Rpower (item4 (dot_vertices sphere) x y z n) ds else 0.
Proof. intros. unfold d_weights. rewrite full4_item by lia. reflexivity. Qed.

Lemma d_weights_nonneg sphere ds x y z n :
  (x < 3)%nat -> (y < 3)%nat -> (z < 3)%nat -> (n < length sphere)%nat ->
  0 <= item4 (d_weights sphere ds) x y z n.
Proof.
  intros. rewrite d_weights_item by lia.
  destruct (Rlt_dec 0 _); [|lra].
  unfold Rpower. left. apply exp_pos.
Qed.

Lemma g_weights_item sigma x y z :
  (x < 3)%nat -> (y < 3)%nat -> (z < 3)%nat ->
  item4 (g_weights sigma) x y z 0
  = exp (- item4 dir_norm x y z 0 ^ 2 / (2 * sigma ^ 2)).
Proof. intros. unfold g_weights. rewrite full4_item by lia. reflexivity. Qed.

Lemma combined_weights_item sphere ds sigma x y z n :
  (x < 3)%nat -> (y < 3)%nat -> (z < 3)%nat -> (n < length sphere)%nat ->
  item4 (combined_weights sphere ds sigma) x y z n
  = item4 (d_weights sphere ds) x y z n * item4 (g_weights sigma) x y z 0.
Proof. intros. unfold combined_weights. rewrite full4_item by lia. reflexivity. Qed.

Lemma combined_weights_nonneg sphere ds sigma x y z n :
  (x < 3)%nat -> (y < 3)%nat -> (z < 3)%nat -> (n < length sphere)%nat ->
  0 <= item4 (combined_weights sphere ds sigma) x y z n.
Proof.
  intros. rewrite combined_weights_item, g_weights_item by lia.
  apply Rmult_le_pos; [apply d_weights_nonneg; lia | left; apply exp_pos].
Qed.

Lemma centred_weights_item sphere ds sigma x y z n :
  (x < 3)%nat -> (y < 3)%nat -> (z < 3)%nat -> (n < length sphere)%nat ->
  item4 (centred_weights sphere ds sigma) x y z n
  = if non_zero_dir x y z
    then item4 (combined_weights sphere ds sigma) x y z n else 1.
Proof. intros. unfold centred_weights. rewrite full4_item by lia. reflexivity. Qed.

(** The slice of a direction, entry by entry. *)
Lemma centred_weights_slice sphere ds sigma n :
  (n < length sphere)%nat ->
  dir_slice (centred_weights sphere ds sigma) n
  = map (fun o => if non_zero_dir (o / 9) (o / 3 mod 3)%nat (o mod 3)
                  then item4 (combined_weights sphere ds sigma)
                             (o / 9) (o / 3 mod 3)%nat (o mod 3) n
                  else 1) (seq 0 27).
Proof. intros. unfold centred_weights. apply full4_dir_slice. lia. Qed.

Lemma centred_weights_slice_nonneg sphere ds sigma n :
  (n < length sphere)%nat ->
  Forall (fun x => 0 <= x) (dir_slice (centred_weights sphere ds sigma) n).
Proof.
  intros Hn. rewrite centred_weights_slice by lia.
  apply Forall_forall. intros x Hx. apply list_elem_of_In, in_map_iff in Hx.
  destruct Hx as (o & <- & Ho). apply in_seq in Ho.
  destruct (offset_bounds o) as (? & ? & ?); [lia|].
  destruct (non_zero_dir _ _ _); [|lra].
  apply combined_weights_nonneg; lia.
Qed.

Lemma centred_weights_slice_centre sphere ds sigma n :
  (n < length sphere)%nat ->
  dir_slice (centred_weights sphere ds sigma) n !! 13%nat = Some 1.
Proof. intros Hn. rewrite centred_weights_slice by lia. reflexivity. Qed.

Lemma centred_weights_sum_ge_1 sphere ds sigma n :
  (n < length sphere)%nat ->
  1 <= Rsum (dir_slice (centred_weights sphere ds sigma) n).
Proof.
  intros Hn. eapply Rsum_ge_item.
  - apply centred_weights_slice_nonneg; lia.
  - apply centred_weights_slice_centre; lia.
Qed.

(** The divisors of line 133 are the sums of the 27-entry slices. *)
Lemma column_sums_centred sphere ds sigma :
  (0 < length sphere)%nat ->
  column_sums (centred_weights sphere ds sigma)
  = Ok (map (fun n => Rsum (dir_slice (centred_weights sphere ds sigma) n))
            (seq 0 (length sphere))).
Proof.
  intros HN. unfold column_sums, dir_slice.
  assert (Hd : dim (centred_weights sphere ds sigma) 3 = length sphere)
    by reflexivity.
  rewrite Hd. destruct (length sphere) as [|N] eqn:E; [lia|].
  unfold centred_weights at 2. rewrite full4_length, E.
  rewrite Nat.div_mul by lia. reflexivity.
Qed.

Lemma column_sums_empty sphere ds sigma :
  length sphere = 0%nat ->
  column_sums (centred_weights sphere ds sigma) = Raise ValueError_reshape.
Proof.
  intros HN. unfold column_sums.
  assert (Hd : dim (centred_weights sphere ds sigma) 3 = length sphere)
    by reflexivity.
  rewrite Hd, HN. reflexivity.
Qed.

Lemma get_weights_ok sphere ds sigma :
  (0 < length sphere)%nat ->
  _get_weights sphere ds sigma
  = Ok (full4 float64 3 3 3 (length sphere)
          (fun x y z n =>
             item4 (centred_weights sphere ds sigma) x y z n
             / Rsum (dir_slice (centred_weights sphere ds sigma) n))).
Proof.
  intros HN. unfold _get_weights. rewrite column_sums_centred by lia.
  f_equal. unfold full4. f_equal. apply map_ext_in. intros p Hp.
  apply in_seq in Hp.
  assert (Hn : (p mod length sphere < length sphere)%nat)
    by (apply Nat.mod_upper_bound; lia).
  rewrite lookup_total_map_seq by lia. reflexivity.
Qed.

(** The kernel of a direction is its centred slice divided by its sum. *)
Lemma get_weights_slice sphere ds sigma n w :
  _get_weights sphere ds sigma = Ok w ->
  (n < length sphere)%nat ->
  dir_slice w n
  = map (fun x => x / Rsum (dir_slice (centred_weights sphere ds sigma) n))
        (dir_slice (centred_weights sphere ds sigma) n).
Proof.
  intros Hw Hn. rewrite get_weights_ok in Hw by lia. injection Hw as <-.
  rewrite full4_dir_slice by lia.
  rewrite centred_weights_slice by lia. rewrite map_map.
  apply map_ext_in. intros o Ho. apply in_seq in Ho.
  destruct (offset_bounds o) as (? & ? & ?); [lia|].
  rewrite centred_weights_item by lia.
  rewrite <- centred_weights_slice by lia. reflexivity.
Qed.

(** C7.  For every sphere, every [dot_sharpness >= 0] and every [sigma > 0],
    the divisor that line 133 computes for a direction [n] is the sum of the
    27 weights of that direction after the centre override, and it is at
    least 1: the normalisation never divides by zero. *)
Theorem raw_weight_sum_at_least_one (sphere : Sphere) (dot_sharpness sigma : R)
    (n : nat) :
  0 < sigma -> 0 <= dot_sharpness -> (n < length sphere)%nat ->
  exists sums s,
    column_sums (centred_weights sphere dot_sharpness sigma) = Ok sums
    /\ sums !! n = Some s
    /\ s = Rsum (dir_slice (centred_weights sphere dot_sharpness sigma) n)
    /\ 1 <= s /\ s <> 0.
Proof.
  intros _ _ Hn.
  pose proof (centred_weights_sum_ge_1 sphere dot_sharpness sigma n Hn) as H1.
  eexists _, _. split; [apply column_sums_centred; lia|].
  split; [|split; [reflexivity|split; [exact H1|lra]]].
  change (map ?g (seq 0 ?m)) with (g <$> seq 0 m).
  rewrite list_lookup_fmap, lookup_seq_lt by lia. reflexivity.
Qed.

Lemma raw_weight_sum_at_least_one_witness :
  0 < 1 /\ 0 <= 1 /\ (0 < length [(1, 0, 0)])%nat /\
  exists sums s,
    column_sums (centred_weights [(1, 0, 0)] 1 1) = Ok sums
    /\ sums !! 0%nat = Some s
    /\ s = Rsum (dir_slice (centred_weights [(1, 0, 0)] 1 1) 0)
    /\ 1 <= s /\ s <> 0.
Proof.
  split; [lra|]. split; [lra|]. split; [simpl; lia|].
  apply (raw_weight_sum_at_least_one [(1, 0, 0)] 1 1 0); [lra|lra|simpl; lia].
Defined.

(** C2.  For every sphere, every [dot_sharpness >= 0] and every [sigma > 0],
    [_get_weights] returns a 3x3x3xN kernel in which, for every direction
    [n], the 27 offset weights sum to 1 and are all non-negative. *)
Theorem kernel_normalised_nonneg (sphere : Sphere) (dot_sharpness sigma : R)
    (n : nat) :
  0 < sigma -> 0 <= dot_sharpness -> (n < length sphere)%nat ->
  exists w,
    _get_weights sphere dot_sharpness sigma = Ok w
    /\ shape w = [3; 3; 3; length sphere]%nat
    /\ Rsum (dir_slice w n) = 1
    /\ Forall (fun x => 0 <= x) (dir_slice w n).
Proof.
  intros _ _ Hn.
  pose proof (centred_weights_sum_ge_1 sphere dot_sharpness sigma n Hn) as H1.
  pose proof (centred_weights_slice_nonneg sphere dot_sharpness sigma n Hn)
    as Hpos.
  eexists. split; [apply get_weights_ok; lia|].
  split; [reflexivity|].
  rewrite (get_weights_slice sphere dot_sharpness sigma n _
             (get_weights_ok sphere dot_sharpness sigma ltac:(lia)) Hn).
  split.
  - rewrite Rsum_map_div. field. lra.
  - apply Forall_forall. intros x Hx.
    apply list_elem_of_In, in_map_iff in Hx. destruct Hx as (y & <- & Hy).
    apply list_elem_of_In in Hy.
    rewrite Forall_forall in Hpos. specialize (Hpos y Hy).
    apply Rmult_le_pos; [lra|]. left. apply Rinv_0_lt_compat. lra.
Qed.

Lemma kernel_normalised_nonneg_witness :
  0 < 1 /\ 0 <= 1 /\ (0 < length [(1, 0, 0)])%nat /\
  exists w,
    _get_weights [(1, 0, 0)] 1 1 = Ok w
    /\ shape w = [3; 3; 3; length [(1, 0, 0)]]%nat
    /\ Rsum (dir_slice w 0) = 1
    /\ Forall (fun x => 0 <= x) (dir_slice w 0).
Proof.
  split; [lra|]. split; [lra|]. split; [simpl; lia|].
  apply (kernel_normalised_nonneg [(1, 0, 0)] 1 1 0); [lra|lra|simpl; lia].
Defined.

Lemma dir_norm_item x y z :
  (x < 3)%nat -> (y < 3)%nat -> (z < 3)%nat ->
  item4 dir_norm x y z 0
  = sqrt ((INR x - 1) ^ 2 + (INR y - 1) ^ 2 + (INR z - 1) ^ 2).
Proof.
  intros. unfold dir_norm. rewrite full4_item by lia.
  unfold directions. cbn [seq map]. rewrite !full4_item by lia.
  unfold Rsum. cbn [fold_right]. cbv beta iota. f_equal. lra.
Qed.

Lemma directions_item x y z c :
  (x < 3)%nat -> (y < 3)%nat -> (z < 3)%nat -> (c < 3)%nat ->
  item4 directions x y z c
  = match c with
    | 0%nat => INR x - 1
    | 1%nat => INR y - 1
    | _ => INR z - 1
    end.
Proof. intros. unfold directions. rewrite full4_item by lia. reflexivity. Qed.

Lemma unit_directions_item x y z c :
  (x < 3)%nat -> (y < 3)%nat -> (z < 3)%nat -> (c < 3)%nat ->
  item4 unit_directions x y z c
  = if non_zero_dir x y z
    then item4 directions x y z c / item4 dir_norm x y z 0
    else item4 directions x y z c.
Proof.
  intros. unfold unit_directions. rewrite full4_item by lia. reflexivity.
Qed.

Lemma dot_vertices_item sphere x y z n :
  (x < 3)%nat -> (y < 3)%nat -> (z < 3)%nat -> (n < length sphere)%nat ->
  non_zero_dir x y z = true ->
  item4 (dot_vertices sphere) x y z n
  = (INR x - 1) / item4 dir_norm x y z 0 * coord (sphere !!! n) 0
    + (INR y - 1) / item4 dir_norm x y z 0 * coord (sphere !!! n) 1
    + (INR z - 1) / item4 dir_norm x y z 0 * coord (sphere !!! n) 2.
Proof.
  intros ? ? ? ? Hnz. unfold dot_vertices. rewrite full4_item by lia.
  cbn [seq map]. rewrite !unit_directions_item by lia.
  rewrite Hnz, !directions_item by lia.
  unfold Rsum. cbn [fold_right]. unfold Rdiv. ring.
Qed.

(** C8.  With [dot_sharpness = 0], for every non-centre offset [(x, y, z)]
    and every sphere vertex [v], the weight of line 129 (before the centre
    override and the normalisation) is the Gaussian term
    [exp(-|offset|^2 / (2 sigma^2))] when the dot product of the offset's
    unit direction with [v] is positive, and 0 otherwise. *)
Theorem sharpness_zero_is_half_space_times_gaussian (sphere : Sphere)
    (sigma : R) (x y z n : nat) (v : R * R * R) :
  (x < 3)%nat -> (y < 3)%nat -> (z < 3)%nat ->
  non_zero_dir x y z = true ->
  sphere !! n = Some v ->
  let ox := INR x - 1 in
  let oy := INR y - 1 in
  let oz := INR z - 1 in
  let norm2 := ox ^ 2 + oy ^ 2 + oz ^ 2 in
  let d := ox / sqrt norm2 * coord v 0 + oy / sqrt norm2 * coord v 1
           + oz / sqrt norm2 * coord v 2 in
  item4 (combined_weights sphere 0 sigma) x y z n
  = if Rlt_dec 0 d then exp (- norm2 / (2 * sigma ^ 2)) else 0.
Proof.
  intros Hx Hy Hz Hnz Hv ox oy oz norm2 d.
  assert (Hn : (n < length sphere)%nat) by (eapply lookup_lt_Some; eauto).
  rewrite combined_weights_item, d_weights_item, g_weights_item by lia.
  rewrite dot_vertices_item by (lia || assumption).
  rewrite (list_lookup_total_correct _ _ _ Hv).
  rewrite dir_norm_item by lia. fold ox oy oz norm2 d.
  assert (H0 : 0 <= norm2) by (unfold norm2; nra).
  destruct (Rlt_dec 0 d) as [Hd|Hd].
  - rewrite Rpower_O by assumption. rewrite pow2_sqrt by assumption. ring.
  - ring.
Qed.

Lemma sharpness_zero_is_half_space_times_gaussian_witness :
  (2 < 3)%nat /\ (1 < 3)%nat /\ non_zero_dir 2 1 1 = true
  /\ [(1, 0, 0)] !! 0%nat = Some (1, 0, 0)
  /\ item4 (combined_weights [(1, 0, 0)] 0 1) 2 1 1 0
     = if Rlt_dec 0
            ((INR 2 - 1)
             / sqrt ((INR 2 - 1) ^ 2 + (INR 1 - 1) ^ 2 + (INR 1 - 1) ^ 2)
             * coord (1, 0, 0) 0
             + (INR 1 - 1)
               / sqrt ((INR 2 - 1) ^ 2 + (INR 1 - 1) ^ 2 + (INR 1 - 1) ^ 2)
               * coord (1, 0, 0) 1
             + (INR 1 - 1)
               / sqrt ((INR 2 - 1) ^ 2 + (INR 1 - 1) ^ 2 + (INR 1 - 1) ^ 2)
               * coord (1, 0, 0) 2)
       then exp (- ((INR 2 - 1) ^ 2 + (INR 1 - 1) ^ 2 + (INR 1 - 1) ^ 2)
                 / (2 * 1 ^ 2))
       else 0.
Proof.
  split; [lia|]. split; [lia|]. split; [reflexivity|]. split; [reflexivity|].
  apply (sharpness_zero_is_half_space_times_gaussian
           [(1, 0, 0)] 1 2 1 1 0 (1, 0, 0));
    [lia | lia | lia | reflexivity | reflexivity].
Defined.

(** * Running computations *)

Lemma bind_ok {A B} (m : M A) (k : A -> M B) (h h' : heap) (a : A) :
  m h = (Ok a, h') -> bind m k h = k a h'.
Proof. intros E. unfold bind. rewrite E. reflexivity. Qed.

Lemma bind_raise {A B} (m : M A) (k : A -> M B) (h h' : heap) (e : exn) :
  m h = (Raise e, h') -> bind m k h = (Raise e, h').
Proof. intros E. unfold bind. rewrite E. reflexivity. Qed.

Lemma load_ok (l : loc) (h : heap) (a : ndarray) :
  h !! l = Some a -> load l h = (Ok a, h).
Proof. intros E. unfold load. rewrite E. reflexivity. Qed.

Lemma lift_run {A} (r : result A) (h : heap) : lift r h = (r, h).
Proof. reflexivity. Qed.

Lemma alloc_run (a : ndarray) (h : heap) :
  alloc a h = (Ok (length h), h ++ [a]).
Proof. reflexivity. Qed.

(** * Frame rules *)

Lemma frame_weaken {A} n (m : M A) (Q Q' : A -> Prop) :
  frame n m Q -> (forall a, Q a -> Q' a) -> frame n m Q'.
Proof.
  intros Hm HQ h r h' Hn E. destruct (Hm h r h' Hn E) as (? & ? & ?).
  repeat split; auto.
Qed.

Lemma frame_ret {A} n (a : A) (Q : A -> Prop) : Q a -> frame n (ret a) Q.
Proof.
  intros Ha h r h' Hn E. injection E as <- <-.
  repeat split; auto. intros ? [= <-]. exact Ha.
Qed.

Lemma frame_raise {A} n e (Q : A -> Prop) : frame n (raise e) Q.
Proof.
  intros h r h' Hn E. injection E as <- <-. repeat split; auto. discriminate.
Qed.

Lemma frame_lift {A} n (r : result A) : frame n (lift r) (fun a => r = Ok a).
Proof.
  intros h r' h' Hn E. injection E as <- <-. repeat split; auto.
Qed.

Lemma frame_bind {A B} n (m : M A) (k : A -> M B) Q Q' :
  frame n m Q -> (forall a, Q a -> frame n (k a) Q') -> frame n (bind m k) Q'.
Proof.
  intros Hm Hk h r h' Hn E. unfold bind in E.
  destruct (m h) as [[a|e] h1] eqn:E1.
  - destruct (Hm h _ _ Hn E1) as (T1 & L1 & Q1).
    destruct (Hk a (Q1 a eq_refl) h1 r h' L1 E) as (T2 & L2 & Q2).
    repeat split; auto. congruence.
  - injection E as <- <-. destruct (Hm h _ _ Hn E1) as (T1 & L1 & Q1).
    repeat split; auto. discriminate.
Qed.

Lemma frame_alloc n (a : ndarray) : frame n (alloc a) (fun l => (n <= l)%nat).
Proof.
  intros h r h' Hn E. injection E as <- <-.
  rewrite take_app_le by lia. rewrite length_app.
  repeat split; [lia|]. intros ? [= <-]. exact Hn.
Qed.

Lemma frame_load n (l : loc) : frame n (load l) (fun _ => True).
Proof.
  intros h r h' Hn E. unfold load in E.
  destruct (h !! l); injection E as <- <-; repeat split; auto.
Qed.

(** A write is harmless when it goes to an object created later. *)
Lemma frame_store n (l : loc) (a : ndarray) :
  (n <= l)%nat -> frame n (store l a) (fun _ => True).
Proof.
  intros Hl h r h' Hn E. injection E as <- <-.
  rewrite take_insert_ge by lia. rewrite length_insert. repeat split; auto.
Qed.

Lemma frame_for {A} n (l : list A) (body : A -> M unit) :
  (forall a, frame n (body a) (fun _ => True)) ->
  frame n (for_ l body) (fun _ => True).
Proof.
  intros Hb. induction l as [|a l IH]; cbn [for_].
  - apply frame_ret. exact I.
  - eapply frame_bind; [apply Hb|]. intros _ _. exact IH.
Qed.

#[local] Ltac frame_step :=
  first
    [ eapply frame_bind; [ first [ apply frame_load | apply frame_alloc
                                 | apply frame_lift ] |]; intros ? ?
    | apply frame_ret; try exact I
    | apply frame_raise
    | apply frame_store; lia ].

Lemma frame_np_zeros n s : frame n (np_zeros s) (fun l => (n <= l)%nat).
Proof. apply frame_alloc. Qed.

Lemma frame_np_zeros_like n l :
  frame n (np_zeros_like l) (fun l => (n <= l)%nat).
Proof. unfold np_zeros_like. frame_step. apply frame_alloc. Qed.

Lemma frame_np_pad n l : frame n (np_pad l) (fun l => (n <= l)%nat).
Proof.
  unfold np_pad. frame_step.
  destruct (shape a) as [|? [|? [|? [|? ?]]]];
    first [apply frame_raise | apply frame_alloc].
Qed.

Lemma frame_np_dot n l v : frame n (np_dot l v) (fun l => (n <= l)%nat).
Proof. unfold np_dot. do 2 frame_step. apply frame_alloc. Qed.

Lemma frame_np_scale n c l : frame n (np_scale c l) (fun l => (n <= l)%nat).
Proof. unfold np_scale. frame_step. apply frame_alloc. Qed.

Lemma frame_view_flat n w : frame n (view_flat w) (fun _ => True).
Proof. unfold view_flat. repeat frame_step. Qed.

Lemma frame_view_item n w x y z : frame n (view_item w x y z) (fun _ => True).
Proof. unfold view_item. repeat frame_step. Qed.

Lemma frame_view_set n w x y z v :
  (n <= base w)%nat -> frame n (view_set w x y z v) (fun _ => True).
Proof. intros. unfold view_set. repeat frame_step. Qed.

Lemma frame_correlate n l w : frame n (correlate l w) (fun l => (n <= l)%nat).
Proof.
  unfold correlate. frame_step.
  eapply frame_bind; [apply frame_view_flat|]. intros ? _. apply frame_alloc.
Qed.

Lemma frame_get_item3 n l i j k : frame n (get_item3 l i j k) (fun _ => True).
Proof. unfold get_item3. repeat frame_step. Qed.

Lemma frame_get_window n l i j k :
  frame n (get_window l i j k) (fun _ => True).
Proof. unfold get_window. repeat frame_step. Qed.

Lemma frame_set_item3 n l i j k v :
  (n <= l)%nat -> frame n (set_item3 l i j k v) (fun _ => True).
Proof. intros. unfold set_item3. repeat frame_step. Qed.

Lemma frame_set_dir n ms d r :
  (n <= ms)%nat -> frame n (set_dir ms d r) (fun _ => True).
Proof. intros. unfold set_dir. repeat frame_step. Qed.

Lemma frame_iadd_dir n ms d r :
  (n <= ms)%nat -> frame n (iadd_dir ms d r) (fun _ => True).
Proof. intros. unfold iadd_dir. repeat frame_step. Qed.

(** The masked loop body writes [out] and the padded [opposite_dir] only. *)
Lemma frame_naive_body n out cd od w m ii jj kk :
  (n <= out)%nat -> (n <= od)%nat ->
  frame n (naive_body out cd od w m ii jj kk) (fun _ => True).
Proof.
  intros Ho Hd. unfold naive_body.
  eapply frame_bind; [apply frame_get_item3|]. intros v _.
  eapply frame_bind; [apply frame_set_item3; cbv beta in *; lia|]. intros _ _.
  eapply frame_bind; [apply frame_get_window|]. intros wm _.
  eapply frame_bind; [apply frame_view_flat|]. intros wv _.
  destruct (Rlt_dec 0 _).
  - eapply frame_bind; [apply frame_get_window|]. intros wa _.
    apply frame_set_item3; cbv beta in *; lia.
  - apply frame_ret. exact I.
Qed.

(** [_apply_naive_correlation] writes only arrays it has created: whatever
    its arguments, the objects that existed at the call are unchanged. *)
Lemma frame_apply_naive_correlation n cd od w m :
  frame n (_apply_naive_correlation cd od w m) (fun l => (n <= l)%nat).
Proof.
  unfold _apply_naive_correlation. do 3 frame_step.
  destruct (shape a) as [|nx [|ny [|nz [|? ?]]]]; try apply frame_raise.
  destruct (bool_decide _); [|apply frame_raise].
  eapply frame_bind; [apply frame_np_zeros_like|]. intros out Hout.
  eapply frame_bind; [apply frame_np_pad|]. intros cp Hcp.
  eapply frame_bind; [apply frame_np_pad|]. intros op Hop.
  eapply frame_bind; [apply frame_np_pad|]. intros mp Hmp.
  eapply frame_bind.
  - apply frame_for. intros ii. apply frame_for. intros jj.
    apply frame_for. intros kk. apply frame_naive_body; cbv beta in *; lia.
  - intros _ _. apply frame_ret. exact Hout.
Qed.

Section FilterFrame.

Variable get_sphere : string -> Sphere.
Variable sh_to_sf_matrix : Sphere -> nat -> basis -> bool -> ndarray * ndarray.

Lemma frame_filter_direction n in_sh weights mean_sf B neg_B mask dir_i :
  (n <= weights)%nat -> (n <= mean_sf)%nat ->
  frame n (filter_direction in_sh weights mean_sf B neg_B mask dir_i)
        (fun _ => True).
Proof.
  intros Hw Hms. unfold filter_direction.
  eapply frame_bind; [apply frame_np_dot|]. intros c Hc.
  eapply frame_bind; [apply frame_np_dot|]. intros o Ho.
  destruct mask as [m|].
  - eapply frame_bind; [apply frame_apply_naive_correlation|]. intros r Hr.
    apply frame_set_dir; cbv beta in *; lia.
  - eapply frame_bind; [apply frame_view_item|]. intros x _.
    eapply frame_bind; [apply frame_np_scale|]. intros t Ht.
    eapply frame_bind; [apply frame_set_dir; cbv beta in *; lia|]. intros _ _.
    eapply frame_bind; [apply frame_view_set; cbn; cbv beta in *; lia|]. intros _ _.
    eapply frame_bind; [apply frame_correlate|]. intros r Hr.
    apply frame_iadd_dir; cbv beta in *; lia.
Qed.

Lemma frame_filter_on_sphere n in_sh sh_order sh_basis ds sphere_str sigma
    mask :
  frame n (filter_on_sphere get_sphere sh_to_sf_matrix in_sh sh_order
             sh_basis ds sphere_str sigma mask)
        (fun l => (n <= l)%nat).
Proof.
  unfold filter_on_sphere. do 3 frame_step.
  destruct (shape a1) as [|nx [|ny [|nz [|nc [|? ?]]]]]; try apply frame_raise.
  eapply frame_bind; [apply frame_np_zeros|]. intros ms Hms.
  eapply frame_bind.
  - apply frame_for. intros d. apply frame_filter_direction; cbv beta in *; lia.
  - intros _ _. apply frame_ret. exact Hms.
Qed.

Lemma frame_local_asym_gaussian_filtering n in_sh sh_order sh_basis
    out_full_basis ds sphere_str sigma mask :
  frame n (local_asym_gaussian_filtering get_sphere sh_to_sf_matrix in_sh
             sh_order sh_basis out_full_basis ds sphere_str sigma mask)
        (fun l => (n <= l)%nat).
Proof.
  unfold local_asym_gaussian_filtering.
  eapply frame_bind; [apply frame_filter_on_sphere|]. intros ms Hms.
  do 3 frame_step. apply frame_alloc.
Qed.

End FilterFrame.

(** * Well-shaped 3-dimensional arrays *)

Lemma wf3_dims a nx ny nz :
  wf3 a nx ny nz -> dim a 0 = nx /\ dim a 1 = ny /\ dim a 2 = nz.
Proof. intros [E _]. unfold dim. rewrite E. auto. Qed.

Lemma wf4_dims a nx ny nz nc :
  wf4 a nx ny nz nc ->
  dim a 0 = nx /\ dim a 1 = ny /\ dim a 2 = nz /\ dim a 3 = nc.
Proof. intros [E _]. unfold dim. rewrite E. auto. Qed.

Lemma wf3_full3 dt nx ny nz f : wf3 (full3 dt nx ny nz f) nx ny nz.
Proof. split; [reflexivity|apply full3_length]. Qed.

Lemma wf4_full4 dt nx ny nz nc f : wf4 (full4 dt nx ny nz nc f) nx ny nz nc.
Proof. split; [reflexivity|apply full4_length]. Qed.

Lemma size_of_3 nx ny nz : size_of [nx; ny; nz] = (nx * ny * nz)%nat.
Proof. unfold size_of. cbn [fold_right]. lia. Qed.

Lemma size_of_4 nx ny nz nc :
  size_of [nx; ny; nz; nc] = (nx * ny * nz * nc)%nat.
Proof. unfold size_of. cbn [fold_right]. lia. Qed.

Lemma wf3_zeros dt nx ny nz : wf3 (zeros dt [nx; ny; nz]) nx ny nz.
Proof.
  split; [reflexivity|]. unfold zeros. cbn [data].
  rewrite repeat_length. apply size_of_3.
Qed.

Lemma wf4_zeros dt nx ny nz nc :
  wf4 (zeros dt [nx; ny; nz; nc]) nx ny nz nc.
Proof.
  split; [reflexivity|]. unfold zeros. cbn [data].
  rewrite repeat_length. apply size_of_4.
Qed.

Lemma lookup_total_repeat_0 (n i : nat) : repeat 0 n !!! i = 0.
Proof.
  revert i. induction n as [|n IH]; intros [|i]; cbn; try reflexivity.
  apply IH.
Qed.

Lemma zeros_item3 dt s i j k : item3 (zeros dt s) i j k = 0.
Proof. unfold item3, zeros. cbn [data]. apply lookup_total_repeat_0. Qed.

Lemma zeros_item4 dt s i j k c : item4 (zeros dt s) i j k c = 0.
Proof. unfold item4, zeros. cbn [data]. apply lookup_total_repeat_0. Qed.

Lemma wf3_set3 a nx ny nz i j k v :
  wf3 a nx ny nz -> wf3 (set3 a i j k v) nx ny nz.
Proof.
  intros [E L]. split; [exact E|]. unfold set3. cbn [data].
  rewrite length_insert. exact L.
Qed.

Lemma ravel3_inj ny nz i j k i' j' k' :
  (j < ny)%nat -> (k < nz)%nat -> (j' < ny)%nat -> (k' < nz)%nat ->
  ravel3 ny nz i j k = ravel3 ny nz i' j' k' ->
  i = i' /\ j = j' /\ k = k'.
Proof.
  unfold ravel3. intros Hj Hk Hj' Hk' E.
  destruct (divmod_add (i * ny + j) nz k Hk) as [E1 E2].
  destruct (divmod_add (i' * ny + j') nz k' Hk') as [E1' E2'].
  destruct (divmod_add i ny j Hj) as [E3 E4].
  destruct (divmod_add i' ny j' Hj') as [E3' E4'].
  rewrite E in E1, E2.
  assert (Hq : (i * ny + j = i' * ny + j')%nat) by congruence.
  rewrite Hq in E3, E4. repeat split; congruence.
Qed.

Lemma ravel3_bound nx ny nz i j k :
  (i < nx)%nat -> (j < ny)%nat -> (k < nz)%nat ->
  (ravel3 ny nz i j k < nx * ny * nz)%nat.
Proof.
  intros Hi Hj Hk. unfold ravel3.
  apply ravel_bound; [apply ravel_bound|]; assumption.
Qed.

Lemma set3_item_eq a nx ny nz i j k v :
  wf3 a nx ny nz -> (i < nx)%nat -> (j < ny)%nat -> (k < nz)%nat ->
  item3 (set3 a i j k v) i j k = v.
Proof.
  intros Hw Hi Hj Hk. destruct (wf3_dims _ _ _ _ Hw) as (D0 & D1 & D2).
  destruct Hw as [E L]. unfold item3, set3, dim in *. cbn [shape data].
  rewrite D1, D2. apply list_lookup_total_insert_eq.
  rewrite L. apply ravel3_bound; assumption.
Qed.

Lemma set3_item_ne a nx ny nz i j k v i' j' k' :
  wf3 a nx ny nz ->
  (j < ny)%nat -> (k < nz)%nat -> (j' < ny)%nat -> (k' < nz)%nat ->
  (i, j, k) <> (i', j', k') ->
  item3 (set3 a i j k v) i' j' k' = item3 a i' j' k'.
Proof.
  intros Hw Hj Hk Hj' Hk' Hne.
  destruct (wf3_dims _ _ _ _ Hw) as (D0 & D1 & D2).
  unfold item3, set3, dim in *. cbn [shape data]. rewrite D1, D2.
  apply list_lookup_total_insert_ne. intros E.
  apply ravel3_inj in E; try assumption.
  destruct E as (-> & -> & ->). congruence.
Qed.

(** * Padding and windows *)

Lemma wf3_pad3 a nx ny nz :
  wf3 a nx ny nz -> wf3 (pad3 a) (nx + 2) (ny + 2) (nz + 2).
Proof.
  intros Hw. destruct (wf3_dims _ _ _ _ Hw) as (D0 & D1 & D2).
  unfold pad3. rewrite D0, D1, D2. apply wf3_full3.
Qed.

Lemma pad3_item a nx ny nz i j k :
  wf3 a nx ny nz ->
  (i < nx + 2)%nat -> (j < ny + 2)%nat -> (k < nz + 2)%nat ->
  item3 (pad3 a) i j k
  = if ((1 <=? i) && (i <=? nx) && (1 <=? j) && (j <=? ny)
        && (1 <=? k) && (k <=? nz))%nat
    then item3 a (i - 1) (j - 1) (k - 1) else 0.
Proof.
  intros Hw Hi Hj Hk. destruct (wf3_dims _ _ _ _ Hw) as (D0 & D1 & D2).
  unfold pad3. rewrite D0, D1, D2. rewrite full3_item by lia. reflexivity.
Qed.

Lemma pad3_item_inner a nx ny nz i j k :
  wf3 a nx ny nz -> (i < nx)%nat -> (j < ny)%nat -> (k < nz)%nat ->
  item3 (pad3 a) (i + 1) (j + 1) (k + 1) = item3 a i j k.
Proof.
  intros Hw Hi Hj Hk. rewrite (pad3_item a nx ny nz) by (assumption || lia).
  replace (1 <=? i + 1)%nat with true by (symmetry; apply Nat.leb_le; lia).
  replace (i + 1 <=? nx)%nat with true by (symmetry; apply Nat.leb_le; lia).
  replace (1 <=? j + 1)%nat with true by (symmetry; apply Nat.leb_le; lia).
  replace (j + 1 <=? ny)%nat with true by (symmetry; apply Nat.leb_le; lia).
  replace (1 <=? k + 1)%nat with true by (symmetry; apply Nat.leb_le; lia).
  replace (k + 1 <=? nz)%nat with true by (symmetry; apply Nat.leb_le; lia).
  cbn [andb]. rewrite !Nat.add_sub. reflexivity.
Qed.

Lemma window_length p ii jj kk : length (window p ii jj kk) = 27%nat.
Proof. unfold window. rewrite length_map, length_seq. reflexivity. Qed.

Lemma window_centre p ii jj kk :
  window p ii jj kk !!! 13%nat = item3 p (ii + 1) (jj + 1) (kk + 1).
Proof. reflexivity. Qed.

Lemma window_item p ii jj kk o :
  (o < 27)%nat ->
  window p ii jj kk !!! o
  = item3 p (ii + o / 9) (jj + o / 3 mod 3) (kk + o mod 3).
Proof. intros Ho. unfold window. rewrite lookup_total_map_seq by lia. reflexivity. Qed.

Lemma dir_slice_length w d : length (dir_slice w d) = 27%nat.
Proof. unfold dir_slice. rewrite length_map, length_seq. reflexivity. Qed.

(** * Running the primitives *)

Lemma lookup_new (h0 l : heap) (k : nat) :
  (h0 ++ l) !! (length h0 + k)%nat = l !! k.
Proof.
  rewrite lookup_app_r by lia. f_equal. lia.
Qed.

Lemma get_item3_run l i j k (h : heap) a :
  h !! l = Some a -> get_item3 l i j k h = (Ok (item3 a i j k), h).
Proof. intros E. unfold get_item3. rewrite (bind_ok _ _ _ _ _ (load_ok _ _ _ E)). reflexivity. Qed.

Lemma set_item3_run l i j k v (h : heap) a :
  h !! l = Some a ->
  set_item3 l i j k v h = (Ok tt, <[l := set3 a i j k v]> h).
Proof. intros E. unfold set_item3. rewrite (bind_ok _ _ _ _ _ (load_ok _ _ _ E)). reflexivity. Qed.

Lemma get_window_run l i j k (h : heap) a :
  h !! l = Some a -> get_window l i j k h = (Ok (window a i j k), h).
Proof. intros E. unfold get_window. rewrite (bind_ok _ _ _ _ _ (load_ok _ _ _ E)). reflexivity. Qed.

Lemma view_flat_run w (h : heap) a :
  h !! base w = Some a -> view_flat w h = (Ok (dir_slice a (dir w)), h).
Proof. intros E. unfold view_flat. rewrite (bind_ok _ _ _ _ _ (load_ok _ _ _ E)). reflexivity. Qed.

Lemma view_item_run w x y z (h : heap) a :
  h !! base w = Some a ->
  view_item w x y z h = (Ok (item4 a x y z (dir w)), h).
Proof. intros E. unfold view_item. rewrite (bind_ok _ _ _ _ _ (load_ok _ _ _ E)). reflexivity. Qed.

Lemma view_set_run w x y z v (h : heap) a :
  h !! base w = Some a ->
  view_set w x y z v h = (Ok tt, <[base w := set4 a x y z (dir w) v]> h).
Proof. intros E. unfold view_set. rewrite (bind_ok _ _ _ _ _ (load_ok _ _ _ E)). reflexivity. Qed.

Lemma np_zeros_like_run l (h : heap) a :
  h !! l = Some a ->
  np_zeros_like l h = (Ok (length h), h ++ [zeros (dtype_of a) (shape a)]).
Proof. intros E. unfold np_zeros_like. rewrite (bind_ok _ _ _ _ _ (load_ok _ _ _ E)). reflexivity. Qed.

Lemma np_pad_run l (h : heap) a nx ny nz :
  h !! l = Some a -> shape a = [nx; ny; nz] ->
  np_pad l h = (Ok (length h), h ++ [pad3 a]).
Proof.
  intros E Hs. unfold np_pad. rewrite (bind_ok _ _ _ _ _ (load_ok _ _ _ E)).
  rewrite Hs. reflexivity.
Qed.

Lemma np_dot_run l v (h : heap) a r :
  h !! l = Some a -> dot_last a v = Ok r ->
  np_dot l v h = (Ok (length h), h ++ [r]).
Proof.
  intros E Hr. unfold np_dot. rewrite (bind_ok _ _ _ _ _ (load_ok _ _ _ E)).
  unfold lift, bind. rewrite Hr. reflexivity.
Qed.

Lemma np_dot_raise l v (h : heap) a e :
  h !! l = Some a -> dot_last a v = Raise e ->
  np_dot l v h = (Raise e, h).
Proof.
  intros E Hr. unfold np_dot. rewrite (bind_ok _ _ _ _ _ (load_ok _ _ _ E)).
  unfold lift, bind. rewrite Hr. reflexivity.
Qed.

Lemma np_scale_run c l (h : heap) a :
  h !! l = Some a -> np_scale c l h = (Ok (length h), h ++ [scale c a]).
Proof. intros E. unfold np_scale. rewrite (bind_ok _ _ _ _ _ (load_ok _ _ _ E)). reflexivity. Qed.

Lemma correlate_run l w (h : heap) a k :
  h !! l = Some a -> h !! base w = Some k ->
  correlate l w h = (Ok (length h), h ++ [correlate3 a (dir_slice k (dir w))]).
Proof.
  intros E Ew. unfold correlate. rewrite (bind_ok _ _ _ _ _ (load_ok _ _ _ E)).
  rewrite (bind_ok _ _ _ _ _ (view_flat_run _ _ _ Ew)). reflexivity.
Qed.

Lemma set_dir_run ms d r (h : heap) a b :
  h !! ms = Some a -> h !! r = Some b ->
  set_dir ms d r h = (Ok tt, <[ms := assign_dir a d b]> h).
Proof.
  intros E Er. unfold set_dir. rewrite (bind_ok _ _ _ _ _ (load_ok _ _ _ E)).
  rewrite (bind_ok _ _ _ _ _ (load_ok _ _ _ Er)). reflexivity.
Qed.

Lemma iadd_dir_run ms d r (h : heap) a b :
  h !! ms = Some a -> h !! r = Some b ->
  iadd_dir ms d r h = (Ok tt, <[ms := add_dir a d b]> h).
Proof.
  intros E Er. unfold iadd_dir. rewrite (bind_ok _ _ _ _ _ (load_ok _ _ _ E)).
  rewrite (bind_ok _ _ _ _ _ (load_ok _ _ _ Er)). reflexivity.
Qed.

(** A loop whose body acts on the store as [step] acts on the state. *)
Lemma for_sim {A S} (H : S -> heap) (step : A -> S -> S) (body : A -> M unit)
    (l : list A) :
  (forall a s, In a l -> body a (H s) = (Ok tt, H (step a s))) ->
  forall s, for_ l body (H s)
            = (Ok tt, H (fold_left (fun s a => step a s) l s)).
Proof.
  induction l as [|a l IH]; intros Hb s; cbn [for_ fold_left].
  - reflexivity.
  - rewrite (bind_ok _ _ _ _ _ (Hb a s (or_introl eq_refl))).
    apply IH. intros a' s' Ha'. apply Hb. right. exact Ha'.
Qed.

(** * The masked path on the store *)

Lemma naive_body_run (h0 : heap) w k cp mp s ii jj kk :
  h0 !! base w = Some k ->
  naive_body (length h0) (length h0 + 1) (length h0 + 2) w (length h0 + 3)
             ii jj kk (naive_heap h0 cp mp s)
  = (Ok tt, naive_heap h0 cp mp
              (naive_step cp mp (dir_slice k (dir w)) ii jj kk s)).
Proof.
  intros Hw. destruct s as [op out]. unfold naive_body, naive_heap.
  cbn [fst snd].
  set (v := item3 cp (ii + 1) (jj + 1) (kk + 1)).
  set (op' := set3 op (ii + 1) (jj + 1) (kk + 1) v).
  rewrite (bind_ok _ _ _ _ _
             (get_item3_run _ _ _ _ _ cp
                (lookup_new h0 [out; cp; op; mp] 1))).
  rewrite (bind_ok _ _ _ _ _
             (set_item3_run _ _ _ _ _ _ op
                (lookup_new h0 [out; cp; op; mp] 2))).
  rewrite insert_app_r.
  change (<[2%nat := ?x]> [out; cp; op; mp]) with [out; cp; x; mp].
  fold v. fold op'.
  rewrite (bind_ok _ _ _ _ _
             (get_window_run _ _ _ _ _ mp
                (lookup_new h0 [out; cp; op'; mp] 3))).
  rewrite (bind_ok _ _ _ _ _
             (view_flat_run _ _ k (lookup_app_l_Some _ _ _ _ Hw))).
  unfold naive_step. cbn [fst snd]. fold v. fold op'.
  destruct (Rlt_dec 0 (window mp ii jj kk !!! 13%nat)).
  - rewrite (bind_ok _ _ _ _ _
               (get_window_run _ _ _ _ _ op'
                  (lookup_new h0 [out; cp; op'; mp] 2))).
    replace (length h0) with (length h0 + 0)%nat at 1 by lia.
    rewrite (set_item3_run _ _ _ _ _ _ out
               (lookup_new h0 [out; cp; op'; mp] 0)).
    rewrite insert_app_r. reflexivity.
  - reflexivity.
Qed.

Lemma naive_loops_run (h0 : heap) w k cp mp s nx ny nz :
  h0 !! base w = Some k ->
  for_ (seq 0 nx) (fun ii =>
    for_ (seq 0 ny) (fun jj =>
      for_ (seq 0 nz) (fun kk =>
        naive_body (length h0) (length h0 + 1) (length h0 + 2) w
                   (length h0 + 3) ii jj kk)))
    (naive_heap h0 cp mp s)
  = (Ok tt, naive_heap h0 cp mp
              (naive_loop cp mp (dir_slice k (dir w)) nx ny nz s)).
Proof.
  intros Hw. unfold naive_loop.
  apply (for_sim (naive_heap h0 cp mp)
           (fun ii s => fold_left (fun s jj =>
              fold_left (fun s kk =>
                naive_step cp mp (dir_slice k (dir w)) ii jj kk s)
                (seq 0 nz) s) (seq 0 ny) s)).
  intros ii s1 _.
  apply (for_sim (naive_heap h0 cp mp)
           (fun jj s => fold_left (fun s kk =>
              naive_step cp mp (dir_slice k (dir w)) ii jj kk s)
              (seq 0 nz) s)).
  intros jj s2 _.
  apply (for_sim (naive_heap h0 cp mp)
           (fun kk s => naive_step cp mp (dir_slice k (dir w)) ii jj kk s)).
  intros kk s3 _. apply naive_body_run. exact Hw.
Qed.

(** [_apply_naive_correlation] returns a new array holding the result of the
    loops; it adds this array and the three padded copies to the store and
    changes nothing else. *)
Lemma apply_naive_correlation_run (h : heap) lc lo w lm c o m k nx ny nz :
  h !! lc = Some c -> h !! lo = Some o -> h !! lm = Some m ->
  h !! base w = Some k ->
  shape c = [nx; ny; nz] -> shape o = [nx; ny; nz] -> shape m = [nx; ny; nz] ->
  _apply_naive_correlation lc lo w lm h
  = (Ok (length h),
     naive_heap h (pad3 c) (pad3 m) (naive_final c o m (dir_slice k (dir w)))).
Proof.
  intros Hc Ho Hm Hw Sc So Sm. unfold _apply_naive_correlation.
  rewrite (bind_ok _ _ _ _ _ (load_ok _ _ _ Hc)).
  rewrite (bind_ok _ _ _ _ _ (load_ok _ _ _ Ho)).
  rewrite (bind_ok _ _ _ _ _ (load_ok _ _ _ Hm)).
  rewrite Sc. rewrite bool_decide_eq_true_2 by (rewrite So, Sm; auto).
  rewrite (bind_ok _ _ _ _ _ (np_zeros_like_run _ _ _ Hc)).
  rewrite (bind_ok _ _ _ _ _
             (np_pad_run lc _ c nx ny nz
                (lookup_app_l_Some _ _ _ _ Hc) Sc)).
  rewrite (bind_ok _ _ _ _ _
             (np_pad_run lo _ o nx ny nz
                (lookup_app_l_Some _ _ _ _ (lookup_app_l_Some _ _ _ _ Ho))
                So)).
  rewrite (bind_ok _ _ _ _ _
             (np_pad_run lm _ m nx ny nz
                (lookup_app_l_Some _ _ _ _
                   (lookup_app_l_Some _ _ _ _
                      (lookup_app_l_Some _ _ _ _ Hm))) Sm)).
  rewrite !length_app. cbn [length]. rewrite <- !app_assoc. cbn [app].
  rewrite <- !Nat.add_assoc. cbn [Nat.add].
  change (h ++ [zeros (dtype_of c) (shape c); pad3 c; pad3 o; pad3 m])
    with (naive_heap h (pad3 c) (pad3 m)
            (pad3 o, zeros (dtype_of c) (shape c))).
  rewrite (bind_ok _ _ _ _ _
             (naive_loops_run h w k (pad3 c) (pad3 m) _ nx ny nz Hw)).
  unfold naive_final, dim. rewrite Sc. reflexivity.
Qed.

(** * The scan order of the masked loops *)

Lemma fold_left_flat_map {A B S} (f : S -> B -> S) (g : A -> list B)
    (l : list A) (s : S) :
  fold_left f (flat_map g l) s
  = fold_left (fun s a => fold_left f (g a) s) l s.
Proof.
  revert s. induction l as [|a l IH]; intros s; cbn [flat_map fold_left].
  - reflexivity.
  - rewrite fold_left_app. apply IH.
Qed.

Lemma fold_left_map {A B S} (f : S -> B -> S) (g : A -> B) (l : list A)
    (s : S) :
  fold_left f (map g l) s = fold_left (fun s a => f s (g a)) l s.
Proof.
  revert s. induction l as [|a l IH]; intros s; cbn [map fold_left].
  - reflexivity.
  - apply IH.
Qed.

Lemma seq_offset (n m : nat) : seq n m = map (fun k => (n + k)%nat) (seq 0 m).
Proof.
  revert n. induction m as [|m IH]; intros n; [reflexivity|].
  cbn [seq map]. rewrite Nat.add_0_r. f_equal.
  rewrite (IH (S n)), (IH 1%nat), map_map. apply map_ext. intros k. lia.
Qed.

(** Two nested loops visit the pairs in the order of the flat index. *)
Lemma flat_map_seq {B} (g : nat -> nat -> B) (n m : nat) :
  flat_map (fun i => map (g i) (seq 0 m)) (seq 0 n)
  = map (fun t => g (t / m) (t mod m))%nat (seq 0 (n * m)).
Proof.
  induction n as [|n IH]; [reflexivity|].
  rewrite seq_S, flat_map_app, IH. cbn [flat_map Nat.add].
  rewrite app_nil_r.
  replace (S n * m)%nat with (n * m + m)%nat by lia.
  rewrite seq_app, map_app. f_equal. cbn [Nat.add].
  rewrite (seq_offset (n * m) m), map_map.
  apply map_ext_in. intros k Hk. apply in_seq in Hk.
  destruct (divmod_add n m k) as [E1 E2]; [lia|].
  rewrite E1, E2. reflexivity.
Qed.

Lemma naive_loop_flat cp mp wv nx ny nz s :
  naive_loop cp mp wv nx ny nz s = flat_loop cp mp wv ny nz (nx * (ny * nz)) s.
Proof.
  unfold naive_loop, flat_loop.
  transitivity
    (fold_left (fun s (p : nat * nat * nat) =>
                  naive_step cp mp wv (fst (fst p)) (snd (fst p)) (snd p) s)
       (flat_map (fun ii =>
          map (fun u => (ii, u / nz, u mod nz))%nat (seq 0 (ny * nz)))
          (seq 0 nx)) s).
  - rewrite fold_left_flat_map. revert s.
    induction (seq 0 nx) as [|ii l IH]; intros s; [reflexivity|].
    cbn [fold_left]. rewrite <- IH. f_equal.
    rewrite <- (flat_map_seq (fun jj kk => (ii, jj, kk)) ny nz).
    rewrite fold_left_flat_map. clear IH. revert s.
    induction (seq 0 ny) as [|jj l' IH']; intros s; [reflexivity|].
    cbn [fold_left]. rewrite <- IH'. f_equal.
    rewrite fold_left_map. reflexivity.
  - rewrite (flat_map_seq (fun ii u => (ii, u / nz, u mod nz))%nat nx (ny * nz)).
    rewrite fold_left_map. reflexivity.
Qed.

Lemma flat_loop_S cp mp wv ny nz t s :
  flat_loop cp mp wv ny nz (S t) s
  = naive_step cp mp wv (t / (ny * nz)) (t mod (ny * nz) / nz)
               (t mod (ny * nz) mod nz) (flat_loop cp mp wv ny nz t s).
Proof.
  unfold flat_loop. rewrite seq_S, fold_left_app. reflexivity.
Qed.

(** Flat index and indices. *)
Lemma unravel_bounds nx ny nz t :
  (t < nx * (ny * nz))%nat ->
  (t / (ny * nz) < nx /\ t mod (ny * nz) / nz < ny
   /\ t mod (ny * nz) mod nz < nz)%nat.
Proof.
  intros Ht.
  assert (ny * nz <> 0)%nat by (intros E; rewrite E in Ht; lia).
  assert (nz <> 0)%nat by lia.
  repeat split.
  - apply Nat.Div0.div_lt_upper_bound. lia.
  - apply Nat.Div0.div_lt_upper_bound.
    rewrite (Nat.mul_comm nz ny). apply Nat.mod_upper_bound. lia.
  - apply Nat.mod_upper_bound. lia.
Qed.

Lemma ravel_unravel ny nz t :
  ravel3 ny nz (t / (ny * nz)) (t mod (ny * nz) / nz)
         (t mod (ny * nz) mod nz) = t.
Proof.
  unfold ravel3.
  pose proof (Nat.div_mod_eq t (ny * nz)) as E1.
  pose proof (Nat.div_mod_eq (t mod (ny * nz)) nz) as E2.
  nia.
Qed.

Lemma pair_index_lt n a b a' b' :
  (b < n)%nat -> (b' < n)%nat ->
  (a * n + b < a' * n + b')%nat <-> (a < a' \/ (a = a' /\ b < b'))%nat.
Proof. intros. split; intros; nia. Qed.

(** The flat index orders the voxels lexicographically. *)
Lemma ravel3_lt ny nz i j k i' j' k' :
  (j < ny)%nat -> (k < nz)%nat -> (j' < ny)%nat -> (k' < nz)%nat ->
  (ravel3 ny nz i j k < ravel3 ny nz i' j' k')%nat
  <-> (i < i' \/ (i = i' /\ (j < j' \/ (j = j' /\ k < k'))))%nat.
Proof.
  intros Hj Hk Hj' Hk'. unfold ravel3.
  rewrite pair_index_lt by assumption.
  rewrite pair_index_lt by assumption.
  split; intros; [|destruct H as [?|[-> [?|[-> ?]]]]; lia].
  destruct H as [[?|[-> ?]]|[E ?]]; try lia.
  assert (i = i' /\ j = j') as [-> ->]; [|lia].
  destruct (divmod_add i ny j Hj) as [E1 E2].
  destruct (divmod_add i' ny j' Hj') as [E1' E2'].
  rewrite E in E1, E2. split; congruence.
Qed.

(** * What the masked loops leave in [out] *)

Lemma offset_decomp (t : nat) :
  (t < 27)%nat ->
  (t = 9 * (t / 9) + 3 * (t / 3 mod 3) + t mod 3
   /\ t / 9 < 3 /\ t / 3 mod 3 < 3 /\ t mod 3 < 3)%nat.
Proof.
  intros Ht.
  pose proof (Nat.div_mod_eq t 3) as E1.
  pose proof (Nat.div_mod_eq (t / 3) 3) as E2.
  rewrite Nat.Div0.div_div in E2. change (3 * 3)%nat with 9%nat in E2.
  pose proof (Nat.mod_upper_bound t 3 ltac:(lia)).
  pose proof (Nat.mod_upper_bound (t / 3) 3 ltac:(lia)).
  assert (t / 9 < 3)%nat by (apply Nat.Div0.div_lt_upper_bound; lia).
  lia.
Qed.

Lemma pad3_border a nx ny nz x y z :
  wf3 a nx ny nz ->
  (x < nx + 2)%nat -> (y < ny + 2)%nat -> (z < nz + 2)%nat ->
  ~ (1 <= x <= nx /\ 1 <= y <= ny /\ 1 <= z <= nz)%nat ->
  item3 (pad3 a) x y z = 0.
Proof.
  intros Hw Hx Hy Hz Hb. rewrite (pad3_item a nx ny nz) by assumption.
  destruct (_ && _)%bool eqn:E; [|reflexivity].
  exfalso. apply Hb. repeat (apply andb_prop in E; destruct E as [E ?]).
  repeat match goal with H : (_ <=? _)%nat = true |- _ =>
    apply Nat.leb_le in H end. lia.
Qed.

Section NaiveInvariant.

Variables c o m : ndarray.
Variable wv : list R.
Variables nx ny nz : nat.
Hypothesis Hc : wf3 c nx ny nz.
Hypothesis Ho : wf3 o nx ny nz.
Hypothesis Hm : wf3 m nx ny nz.

Let state (t : nat) : ndarray * ndarray :=
  flat_loop (pad3 c) (pad3 m) wv ny nz t
    (pad3 o, zeros (dtype_of c) (shape c)).

Let visited (t x y z : nat) : bool :=
  ((1 <=? x) && (x <=? nx) && (1 <=? y) && (y <=? ny) && (1 <=? z)
   && (z <=? nz) && (ravel3 ny nz (x - 1) (y - 1) (z - 1) <? t))%nat.

Let inv (t : nat) : Prop :=
  wf3 (fst (state t)) (nx + 2) (ny + 2) (nz + 2)
  /\ wf3 (snd (state t)) nx ny nz
  /\ (forall x y z, (x < nx + 2)%nat -> (y < ny + 2)%nat -> (z < nz + 2)%nat ->
        item3 (fst (state t)) x y z
        = if visited t x y z then item3 (pad3 c) x y z
          else item3 (pad3 o) x y z)
  /\ (forall i j k, (i < nx)%nat -> (j < ny)%nat -> (k < nz)%nat ->
        item3 (snd (state t)) i j k
        = if (ravel3 ny nz i j k <? t)%nat then naive_value c o m wv i j k
          else 0).

Lemma visited_interior t x y z :
  visited t x y z = true ->
  (1 <= x <= nx /\ 1 <= y <= ny /\ 1 <= z <= nz
   /\ ravel3 ny nz (x - 1) (y - 1) (z - 1) < t)%nat.
Proof.
  unfold visited. intros E.
  repeat (apply andb_prop in E; destruct E as [E ?]).
  repeat match goal with H : (_ <=? _)%nat = true |- _ =>
    apply Nat.leb_le in H end.
  match goal with H : (_ <? _)%nat = true |- _ => apply Nat.ltb_lt in H end.
  lia.
Qed.

Lemma visited_intro t x y z :
  (1 <= x <= nx)%nat -> (1 <= y <= ny)%nat -> (1 <= z <= nz)%nat ->
  (ravel3 ny nz (x - 1) (y - 1) (z - 1) < t)%nat ->
  visited t x y z = true.
Proof.
  intros Hx Hy Hz Ht. unfold visited.
  repeat (apply andb_true_intro; split);
    first [apply Nat.leb_le; lia | apply Nat.ltb_lt; lia].
Qed.

Lemma inv_0 : inv 0.
Proof.
  unfold inv, state, flat_loop. cbn [seq fold_left fst snd].
  split; [apply wf3_pad3; exact Ho|].
  split; [destruct Hc as [E _]; rewrite E; apply wf3_zeros|].
  split.
  - intros x y z _ _ _. destruct (visited 0 x y z) eqn:E; [|reflexivity].
    apply visited_interior in E. lia.
  - intros i j k _ _ _. rewrite zeros_item3.
    destruct (_ <? 0)%nat eqn:E; [|reflexivity].
    apply Nat.ltb_lt in E. lia.
Qed.

Lemma inv_S t : (t < nx * (ny * nz))%nat -> inv t -> inv (S t).
Proof.
  intros Ht (W1 & W2 & B & C).
  destruct (unravel_bounds nx ny nz t Ht) as (Hi & Hj & Hk).
  pose proof (ravel_unravel ny nz t) as Hrav.
  unfold inv. unfold state at 1 2 3 4. rewrite flat_loop_S. fold (state t).
  set (ii := (t / (ny * nz))%nat) in *.
  set (jj := (t mod (ny * nz) / nz)%nat) in *.
  set (kk := (t mod (ny * nz) mod nz)%nat) in *.
  unfold naive_step. cbn [fst snd].
  set (op := set3 (fst (state t)) (ii + 1) (jj + 1) (kk + 1)
                  (item3 (pad3 c) (ii + 1) (jj + 1) (kk + 1))).
  assert (Wop : wf3 op (nx + 2) (ny + 2) (nz + 2))
    by (apply wf3_set3; exact W1).
  assert (Bop : forall x y z,
             (x < nx + 2)%nat -> (y < ny + 2)%nat -> (z < nz + 2)%nat ->
             item3 op x y z
             = if visited (S t) x y z then item3 (pad3 c) x y z
               else item3 (pad3 o) x y z).
  { intros x y z Hx Hy Hz.
    destruct (decide ((ii + 1, jj + 1, kk + 1)%nat = (x, y, z))) as [E|E].
    - injection E as <- <- <-. unfold op.
      rewrite (set3_item_eq _ (nx + 2) (ny + 2) (nz + 2)) by (assumption || lia).
      rewrite visited_intro; [reflexivity|lia|lia|lia|].
      rewrite !Nat.add_sub, Hrav. lia.
    - unfold op.
      rewrite (set3_item_ne _ (nx + 2) (ny + 2) (nz + 2))
        by (assumption || lia).
      rewrite B by assumption.
      destruct (visited t x y z) eqn:V.
      + apply visited_interior in V.
        rewrite visited_intro; [reflexivity|lia|lia|lia|lia].
      + destruct (visited (S t) x y z) eqn:V'; [|reflexivity].
        apply visited_interior in V'. exfalso.
        assert (ravel3 ny nz (x - 1) (y - 1) (z - 1) = t) as Et.
        { destruct (Nat.lt_ge_cases (ravel3 ny nz (x - 1) (y - 1) (z - 1)) t)
            as [Hlt|Hge]; [|lia].
          rewrite visited_intro in V by lia. discriminate. }
        rewrite <- Hrav in Et. apply ravel3_inj in Et; try lia.
        apply E. f_equal; [f_equal|]; lia. }
  split; [exact Wop|].
  assert (Hcentre : window (pad3 m) ii jj kk !!! 13%nat = item3 m ii jj kk).
  { rewrite window_centre.
    apply (pad3_item_inner m nx ny nz); assumption. }
  rewrite Hcentre.
  assert (Hwin : window op ii jj kk = scan_window c o ii jj kk).
  { unfold window, scan_window. apply map_ext_in. intros u Hu.
    apply in_seq in Hu.
    destruct (offset_decomp u) as (Eu & Ha & Hb & Hcc); [lia|].
    set (a := (u / 9)%nat) in *. set (b := (u / 3 mod 3)%nat) in *.
    set (cc := (u mod 3)%nat) in *.
    rewrite Bop by lia.
    destruct (visited (S t) (ii + a) (jj + b) (kk + cc)) eqn:V.
    - apply visited_interior in V. destruct V as (Vx & Vy & Vz & Vt).
      rewrite <- Hrav in Vt.
      destruct (Nat.leb_spec u 13) as [Hu13|Hu13]; [reflexivity|].
      exfalso.
      assert (ravel3 ny nz ii jj kk
              < ravel3 ny nz (ii + a - 1) (jj + b - 1) (kk + cc - 1))%nat;
        [|lia].
      apply ravel3_lt; lia.
    - destruct (Nat.leb_spec u 13) as [Hu13|Hu13]; [|reflexivity].
      destruct (decide
                  (1 <= ii + a <= nx /\ 1 <= jj + b <= ny
                   /\ 1 <= kk + cc <= nz)%nat) as [Hin|Hout].
      + exfalso. rewrite visited_intro in V; [discriminate|lia|lia|lia|].
        rewrite <- Hrav.
        assert (~ (ravel3 ny nz ii jj kk
                   < ravel3 ny nz (ii + a - 1) (jj + b - 1) (kk + cc - 1))%nat);
          [|lia].
        rewrite ravel3_lt by lia. lia.
      + rewrite (pad3_border c nx ny nz), (pad3_border o nx ny nz)
          by (assumption || lia).
        reflexivity. }
  rewrite Hwin.
  split.
  - destruct (Rlt_dec 0 (item3 m ii jj kk)); [apply wf3_set3|]; exact W2.
  - split; [exact Bop|].
    intros i j k Hi' Hj' Hk'.
    destruct (decide ((ii, jj, kk) = (i, j, k))) as [E|E].
    + injection E as <- <- <-. rewrite Hrav.
      replace (t <? S t)%nat with true by (symmetry; apply Nat.ltb_lt; lia).
      unfold naive_value.
      destruct (Rlt_dec 0 (item3 m ii jj kk)).
      * rewrite (set3_item_eq _ nx ny nz) by assumption. reflexivity.
      * rewrite C by assumption. rewrite Hrav.
        rewrite Nat.ltb_irrefl. reflexivity.
    + assert (Hne : ravel3 ny nz i j k <> t).
      { intros Et. rewrite <- Hrav in Et.
        apply ravel3_inj in Et; try lia.
        apply E. f_equal; [f_equal|]; lia. }
      assert (Hsame : (ravel3 ny nz i j k <? S t)%nat
                      = (ravel3 ny nz i j k <? t)%nat).
      { destruct (Nat.ltb_spec (ravel3 ny nz i j k) (S t));
          destruct (Nat.ltb_spec (ravel3 ny nz i j k) t); try reflexivity; lia. }
      rewrite Hsame, <- C by assumption.
      destruct (Rlt_dec 0 (item3 m ii jj kk)); [|reflexivity].
      apply (set3_item_ne _ nx ny nz); assumption.
Qed.

Lemma inv_all t : (t <= nx * (ny * nz))%nat -> inv t.
Proof.
  induction t as [|t IH]; intros Ht; [apply inv_0|].
  apply inv_S; [lia|]. apply IH. lia.
Qed.

(** The masked path leaves [naive_value] in every cell of [out]. *)
Lemma naive_final_item i j k :
  (i < nx)%nat -> (j < ny)%nat -> (k < nz)%nat ->
  item3 (snd (naive_final c o m wv)) i j k = naive_value c o m wv i j k.
Proof.
  intros Hi Hj Hk. unfold naive_final.
  destruct (wf3_dims _ _ _ _ Hc) as (-> & -> & ->).
  rewrite naive_loop_flat.
  destruct (inv_all (nx * (ny * nz)) (Nat.le_refl _)) as (_ & _ & _ & C).
  unfold state in C. rewrite C by assumption.
  replace (_ <? _)%nat with true; [reflexivity|].
  symmetry. apply Nat.ltb_lt.
  pose proof (ravel3_bound nx ny nz i j k Hi Hj Hk). lia.
Qed.

Lemma naive_final_wf : wf3 (snd (naive_final c o m wv)) nx ny nz.
Proof.
  unfold naive_final.
  destruct (wf3_dims _ _ _ _ Hc) as (-> & -> & ->).
  rewrite naive_loop_flat.
  destruct (inv_all (nx * (ny * nz)) (Nat.le_refl _)) as (_ & W & _).
  exact W.
Qed.

End NaiveInvariant.

(** * Samples, slices and the kernel as arrays *)

Lemma wf3_contract_last a v nx ny nz nc :
  wf4 a nx ny nz nc -> wf3 (contract_last a v) nx ny nz.
Proof.
  intros Hw. destruct (wf4_dims _ _ _ _ _ Hw) as (D0 & D1 & D2 & D3).
  unfold contract_last. rewrite D0, D1, D2. apply wf3_full3.
Qed.

Lemma dot_last_ok a v nx ny nz nc :
  wf4 a nx ny nz nc -> length v = nc ->
  dot_last a v = Ok (contract_last a v).
Proof.
  intros [E _] Hv. unfold dot_last. rewrite E, Hv, Nat.eqb_refl. reflexivity.
Qed.

Lemma dot_last_not_aligned a v nx ny nz nc :
  shape a = [nx; ny; nz; nc] -> length v <> nc ->
  dot_last a v = Raise (ValueError_not_aligned nc (length v)).
Proof.
  intros E Hv. unfold dot_last. rewrite E.
  destruct (Nat.eqb_spec nc (length v)); [congruence|reflexivity].
Qed.

Lemma column_length B d : length (column B d) = dim B 0.
Proof. unfold column. rewrite length_map, length_seq. reflexivity. Qed.

Lemma wf4_assign_dir ms d r nx ny nz n :
  wf4 ms nx ny nz n -> wf4 (assign_dir ms d r) nx ny nz n.
Proof.
  intros Hw. destruct (wf4_dims _ _ _ _ _ Hw) as (D0 & D1 & D2 & D3).
  unfold assign_dir. rewrite D0, D1, D2, D3. apply wf4_full4.
Qed.

Lemma wf4_add_dir ms d r nx ny nz n :
  wf4 ms nx ny nz n -> wf4 (add_dir ms d r) nx ny nz n.
Proof.
  intros Hw. destruct (wf4_dims _ _ _ _ _ Hw) as (D0 & D1 & D2 & D3).
  unfold add_dir. rewrite D0, D1, D2, D3. apply wf4_full4.
Qed.

Lemma assign_dir_item ms d r nx ny nz n i j k c :
  wf4 ms nx ny nz n ->
  (i < nx)%nat -> (j < ny)%nat -> (k < nz)%nat -> (c < n)%nat ->
  item4 (assign_dir ms d r) i j k c
  = if (c =? d)%nat then item3 r i j k else item4 ms i j k c.
Proof.
  intros Hw Hi Hj Hk Hc. destruct (wf4_dims _ _ _ _ _ Hw) as (D0 & D1 & D2 & D3).
  unfold assign_dir. rewrite D0, D1, D2, D3. rewrite full4_item by lia.
  reflexivity.
Qed.

Lemma add_dir_item ms d r nx ny nz n i j k c :
  wf4 ms nx ny nz n ->
  (i < nx)%nat -> (j < ny)%nat -> (k < nz)%nat -> (c < n)%nat ->
  item4 (add_dir ms d r) i j k c
  = if (c =? d)%nat then item4 ms i j k c + item3 r i j k
    else item4 ms i j k c.
Proof.
  intros Hw Hi Hj Hk Hc. destruct (wf4_dims _ _ _ _ _ Hw) as (D0 & D1 & D2 & D3).
  unfold add_dir. rewrite D0, D1, D2, D3. rewrite full4_item by lia.
  reflexivity.
Qed.

Lemma scale_item x a nx ny nz i j k :
  wf3 a nx ny nz -> (i < nx)%nat -> (j < ny)%nat -> (k < nz)%nat ->
  item3 (scale x a) i j k = x * item3 a i j k.
Proof.
  intros Hw Hi Hj Hk. destruct (wf3_dims _ _ _ _ Hw) as (D0 & D1 & D2).
  destruct Hw as [E L]. unfold item3, scale, dim. cbn [shape data].
  apply list_lookup_total_correct.
  change (map ?g ?l) with (g <$> l).
  rewrite list_lookup_fmap, list_lookup_lookup_total_lt; [reflexivity|].
  rewrite L. unfold dim in D1, D2. rewrite D1, D2.
  apply ravel3_bound; assumption.
Qed.

Lemma correlate3_item a w nx ny nz i j k :
  wf3 a nx ny nz -> (i < nx)%nat -> (j < ny)%nat -> (k < nz)%nat ->
  item3 (correlate3 a w) i j k = Rsum (mul (window (pad3 a) i j k) w).
Proof.
  intros Hw Hi Hj Hk. destruct (wf3_dims _ _ _ _ Hw) as (D0 & D1 & D2).
  unfold correlate3. rewrite D0, D1, D2. rewrite full3_item by lia.
  reflexivity.
Qed.

Lemma wf4_set4 a nx ny nz nc i j k c v :
  wf4 a nx ny nz nc -> wf4 (set4 a i j k c v) nx ny nz nc.
Proof.
  intros [E L]. split; [exact E|]. unfold set4. cbn [data].
  rewrite length_insert. exact L.
Qed.

(** The centre of a direction of a 3x3x3xN kernel. *)
Lemma kernel_centre w n d :
  wf4 w 3 3 3 n -> item4 w 1 1 1 d = dir_slice w d !!! 13%nat.
Proof.
  intros Hw. destruct (wf4_dims _ _ _ _ _ Hw) as (D0 & D1 & D2 & D3).
  unfold item4, dir_slice, ravel4. rewrite D1, D2, D3.
  rewrite lookup_total_map_seq by lia. reflexivity.
Qed.

(** Zeroing the centre through the view of direction [d] changes that one
    entry of the slice of [d] and no other slice. *)
Lemma set4_centre_slice w n d :
  wf4 w 3 3 3 n -> (d < n)%nat ->
  dir_slice (set4 w 1 1 1 d 0) d = <[13%nat := 0]> (dir_slice w d).
Proof.
  intros Hw Hd. destruct (wf4_dims _ _ _ _ _ Hw) as (D0 & D1 & D2 & D3).
  destruct Hw as [E L].
  apply list_eq. intros t. unfold dir_slice.
  assert (Hdim : dim (set4 w 1 1 1 d 0) 3 = n) by exact D3.
  rewrite Hdim, D3. unfold set4. cbn [data]. unfold ravel4.
  rewrite D1, D2, D3.
  destruct (decide (t < 27)%nat) as [Ht|Ht].
  - change (map ?g ?l) with (g <$> l).
    rewrite list_lookup_fmap, lookup_seq_lt by lia. cbn [fmap option_fmap option_map].
    destruct (decide (t = 13%nat)) as [->|Hne].
    + rewrite list_lookup_insert_eq
        by (rewrite length_fmap, length_seq; lia).
      f_equal. apply list_lookup_total_insert_eq. rewrite L. lia.
    + rewrite list_lookup_insert_ne by congruence.
      rewrite list_lookup_fmap, lookup_seq_lt by lia.
      cbn [fmap option_fmap option_map]. f_equal.
      apply list_lookup_total_insert_ne.
      change ((1 * 3 + 1) * 3 + 1)%nat with 13%nat. intros Eq.
      destruct (divmod_add 13 n d Hd) as [E1 _].
      destruct (divmod_add t n d Hd) as [E2 _].
      rewrite Nat.add_0_l in Eq. rewrite Eq, E2 in E1. lia.
  - rewrite !lookup_ge_None_2; [reflexivity| |].
    + rewrite length_insert, length_map, length_seq. lia.
    + rewrite length_map, length_seq. lia.
Qed.

Lemma set4_centre_other w n d d' :
  wf4 w 3 3 3 n -> (d < n)%nat -> (d' < n)%nat -> d <> d' ->
  dir_slice (set4 w 1 1 1 d 0) d' = dir_slice w d'.
Proof.
  intros Hw Hd Hd' Hne. destruct (wf4_dims _ _ _ _ _ Hw) as (D0 & D1 & D2 & D3).
  unfold dir_slice.
  assert (Hdim : dim (set4 w 1 1 1 d 0) 3 = n) by exact D3.
  rewrite Hdim, D3. apply map_ext_in. intros t Ht. apply in_seq in Ht.
  unfold set4. cbn [data]. unfold ravel4. rewrite D1, D2, D3.
  apply list_lookup_total_insert_ne.
  change ((1 * 3 + 1) * 3 + 1)%nat with 13%nat. intros Eq.
  destruct (divmod_add 13 n d Hd) as [_ E1].
  destruct (divmod_add t n d' Hd') as [_ E2].
  rewrite Eq in E1. congruence.
Qed.

(** * One direction of the filter on the store *)

Lemma for_app {A} (l1 l2 : list A) (body : A -> M unit) (h : heap) :
  for_ (l1 ++ l2) body h = bind (for_ l1 body) (fun _ => for_ l2 body) h.
Proof.
  revert h. induction l1 as [|a l1 IH]; intros h; cbn [app for_].
  - reflexivity.
  - unfold bind in *. destruct (body a h) as [[[]|e] h1]; [apply IH|].
    reflexivity.
Qed.

(** A loop over [range(n)] that keeps an invariant indexed by the number of
    iterations done runs to the end. *)
Lemma for_seq_inv (I : nat -> heap -> Prop) (body : nat -> M unit) (n : nat) :
  (forall t h, (t < n)%nat -> I t h ->
     exists h', body t h = (Ok tt, h') /\ I (S t) h') ->
  forall h, I 0%nat h ->
    exists h', for_ (seq 0 n) body h = (Ok tt, h') /\ I n h'.
Proof.
  induction n as [|n IH]; intros Hb h H0.
  - exists h. split; [reflexivity|exact H0].
  - destruct (IH (fun t h Ht => Hb t h (Nat.lt_lt_succ_r _ _ Ht)) h H0)
      as (h1 & E1 & I1).
    destruct (Hb n h1 (Nat.lt_succ_diag_r n) I1) as (h2 & E2 & I2).
    exists h2. split; [|exact I2].
    rewrite seq_S, for_app. rewrite (bind_ok _ _ _ _ _ E1).
    cbn [Nat.add for_]. rewrite (bind_ok _ _ _ _ _ E2). reflexivity.
Qed.

#[local] Ltac len :=
  repeat (rewrite length_insert || rewrite length_app); cbn [length]; lia.

#[local] Ltac solve_lookup :=
  repeat first
    [ assumption
    | apply list_lookup_middle; len
    | rewrite list_lookup_insert_eq by len
    | rewrite list_lookup_insert_ne by lia
    | rewrite lookup_app_l by len ];
  try reflexivity.

Section Direction.

Variables (h : heap) (in_sh lw lms : loc) (a W MS B negB : ndarray).
Variables (nx ny nz nc d : nat).
Hypothesis Ha : h !! in_sh = Some a.
Hypothesis Hw : h !! lw = Some W.
Hypothesis Hms : h !! lms = Some MS.
Hypothesis Hne : lw <> lms.
Hypothesis Wa : wf4 a nx ny nz nc.
Hypothesis HB : dim B 0 = nc.
Hypothesis HnegB : dim negB 0 = nc.

Let cd := contract_last a (column B d).
Let od := contract_last a (column negB d).

Lemma filter_direction_unmasked :
  exists h',
    filter_direction in_sh lw lms B negB None d h = (Ok tt, h')
    /\ dir_post h lw lms (set4 W 1 1 1 d 0)
         (unmasked_direction W MS cd od d) h'.
Proof.
  pose proof (lookup_lt_Some _ _ _ Ha) as La.
  pose proof (lookup_lt_Some _ _ _ Hw) as Lw.
  pose proof (lookup_lt_Some _ _ _ Hms) as Lms.
  unfold filter_direction.
  rewrite (bind_ok _ _ _ _ _
             (np_dot_run in_sh _ h a cd Ha
                (dot_last_ok a _ nx ny nz nc Wa
                   (eq_trans (column_length B d) HB)))).
  assert (Ha1 : (h ++ [cd]) !! in_sh = Some a) by solve_lookup.
  rewrite (bind_ok _ _ _ _ _
             (np_dot_run in_sh _ _ a od Ha1
                (dot_last_ok a _ nx ny nz nc Wa
                   (eq_trans (column_length negB d) HnegB)))).
  set (h2 := (h ++ [cd]) ++ [od]).
  assert (L2 : length h2 = (length h + 2)%nat) by (unfold h2; len).
  assert (Hw2 : h2 !! base (View lw d) = Some W)
    by (unfold h2; cbn [base]; solve_lookup).
  rewrite (bind_ok _ _ _ _ _ (view_item_run _ 1 1 1 _ _ Hw2)).
  assert (Hc2 : h2 !! length h = Some cd) by (unfold h2; solve_lookup).
  rewrite (bind_ok _ _ _ _ _ (np_scale_run _ _ _ _ Hc2)).
  cbn [dir].
  set (sc := scale (item4 W 1 1 1 d) cd).
  assert (Hms3 : (h2 ++ [sc]) !! lms = Some MS)
    by (unfold h2; solve_lookup).
  assert (Hsc3 : (h2 ++ [sc]) !! length h2 = Some sc) by solve_lookup.
  rewrite (bind_ok _ _ _ _ _ (set_dir_run _ d _ _ _ _ Hms3 Hsc3)).
  set (ms1 := assign_dir MS d sc).
  set (h4 := <[lms := ms1]> (h2 ++ [sc])).
  assert (Hw4 : h4 !! base (View lw d) = Some W)
    by (unfold h4, h2; cbn [base]; solve_lookup).
  rewrite (bind_ok _ _ _ _ _ (view_set_run _ 1 1 1 0 _ _ Hw4)).
  cbn [base dir].
  set (h5 := <[lw := set4 W 1 1 1 d 0]> h4).
  assert (Ho5 : h5 !! length (h ++ [cd]) = Some od).
  { unfold h5, h4, h2. rewrite length_app. cbn [length].
    rewrite list_lookup_insert_ne by lia.
    rewrite list_lookup_insert_ne by lia.
    rewrite lookup_app_l by len. apply list_lookup_middle. len. }
  assert (Hw5 : h5 !! base (View lw d) = Some (set4 W 1 1 1 d 0)).
  { unfold h5. cbn [base]. apply list_lookup_insert_eq. unfold h4, h2. len. }
  rewrite (bind_ok _ _ _ _ _ (correlate_run _ _ _ _ _ Ho5 Hw5)).
  cbn [dir].
  set (corr := correlate3 od (dir_slice (set4 W 1 1 1 d 0) d)).
  assert (Hms6 : (h5 ++ [corr]) !! lms = Some ms1).
  { rewrite lookup_app_l by (unfold h5, h4, h2; len).
    unfold h5. rewrite list_lookup_insert_ne by lia.
    unfold h4. apply list_lookup_insert_eq. unfold h2. len. }
  assert (Hr6 : (h5 ++ [corr]) !! length h5 = Some corr) by solve_lookup.
  rewrite (iadd_dir_run _ d _ _ _ _ Hms6 Hr6).
  eexists. split; [reflexivity|].
  fold (unmasked_direction W MS cd od d).
  unfold dir_post. repeat split.
  - unfold h5, h4, h2. len.
  - rewrite list_lookup_insert_ne by lia.
    rewrite lookup_app_l by (unfold h5, h4, h2; len).
    unfold h5. apply list_lookup_insert_eq. unfold h4, h2. len.
  - apply list_lookup_insert_eq. unfold h5, h4, h2. len.
  - intros l Hl Hl1 Hl2.
    rewrite list_lookup_insert_ne by lia.
    rewrite lookup_app_l by (unfold h5, h4, h2; len).
    unfold h5. rewrite list_lookup_insert_ne by lia.
    unfold h4. rewrite list_lookup_insert_ne by lia.
    unfold h2. rewrite !lookup_app_l by len. reflexivity.
Qed.

Variables (lm : loc) (m : ndarray).
Hypothesis Hm : h !! lm = Some m.
Hypothesis Sm : shape m = [nx; ny; nz].

Lemma filter_direction_masked :
  exists h',
    filter_direction in_sh lw lms B negB (Some lm) d h = (Ok tt, h')
    /\ dir_post h lw lms W (masked_direction W MS cd od m d) h'.
Proof.
  pose proof (lookup_lt_Some _ _ _ Ha) as La.
  pose proof (lookup_lt_Some _ _ _ Hw) as Lw.
  pose proof (lookup_lt_Some _ _ _ Hms) as Lms.
  pose proof (lookup_lt_Some _ _ _ Hm) as Lm.
  unfold filter_direction.
  rewrite (bind_ok _ _ _ _ _
             (np_dot_run in_sh _ h a cd Ha
                (dot_last_ok a _ nx ny nz nc Wa
                   (eq_trans (column_length B d) HB)))).
  assert (Ha1 : (h ++ [cd]) !! in_sh = Some a) by solve_lookup.
  rewrite (bind_ok _ _ _ _ _
             (np_dot_run in_sh _ _ a od Ha1
                (dot_last_ok a _ nx ny nz nc Wa
                   (eq_trans (column_length negB d) HnegB)))).
  set (h2 := (h ++ [cd]) ++ [od]).
  assert (Hc2 : h2 !! length h = Some cd) by (unfold h2; solve_lookup).
  assert (Ho2 : h2 !! length (h ++ [cd]) = Some od)
    by (unfold h2; solve_lookup).
  assert (Hm2 : h2 !! lm = Some m) by (unfold h2; solve_lookup).
  assert (Hw2 : h2 !! base (View lw d) = Some W)
    by (unfold h2; cbn [base]; solve_lookup).
  destruct (wf3_contract_last a (column B d) nx ny nz nc Wa) as [Sc _].
  destruct (wf3_contract_last a (column negB d) nx ny nz nc Wa) as [So _].
  rewrite (bind_ok _ _ _ _ _
             (apply_naive_correlation_run h2 _ _ _ lm cd od m W nx ny nz
                Hc2 Ho2 Hm2 Hw2 Sc So Sm)).
  cbn [dir].
  set (fin := naive_final cd od m (dir_slice W d)).
  assert (Hms3 : naive_heap h2 (pad3 cd) (pad3 m) fin !! lms = Some MS)
    by (unfold naive_heap, h2; solve_lookup).
  assert (Hr3 : naive_heap h2 (pad3 cd) (pad3 m) fin !! length h2
                = Some (snd fin))
    by (unfold naive_heap; solve_lookup).
  rewrite (set_dir_run _ d _ _ _ _ Hms3 Hr3).
  eexists. split; [reflexivity|].
  fold (masked_direction W MS cd od m d).
  unfold dir_post, naive_heap. repeat split.
  - unfold h2. len.
  - rewrite list_lookup_insert_ne by lia. unfold h2. solve_lookup.
  - apply list_lookup_insert_eq. unfold h2. len.
  - intros l Hl Hl1 Hl2.
    rewrite list_lookup_insert_ne by lia.
    unfold h2. rewrite !lookup_app_l by len. reflexivity.
Qed.

End Direction.

(** * The loop over the directions *)

Section Directions.

Variables (h : heap) (in_sh : loc) (a w B negB : ndarray).
Variables (nx ny nz nc n : nat).
Variables (mask : option loc) (mv : option ndarray).
Hypothesis Ha : h !! in_sh = Some a.
Hypothesis Wa : wf4 a nx ny nz nc.
Hypothesis Ww : wf4 w 3 3 3 n.
Hypothesis HB : dim B 0 = nc.
Hypothesis HnegB : dim negB 0 = nc.
Hypothesis Hmask :
  match mask, mv with
  | None, None => True
  | Some lm, Some m => h !! lm = Some m /\ wf3 m nx ny nz
  | _, _ => False
  end.

Let lw : loc := length h.
Let lms : loc := (length h + 1)%nat.

Let inv (t : nat) (h' : heap) : Prop :=
  (length h + 2 <= length h')%nat
  /\ (forall l, (l < length h)%nat -> h' !! l = h !! l)
  /\ exists W MS,
       h' !! lw = Some W /\ h' !! lms = Some MS
       /\ wf4 W 3 3 3 n /\ wf4 MS nx ny nz n
       /\ (forall d, (t <= d)%nat -> (d < n)%nat ->
             dir_slice W d = dir_slice w d)
       /\ (forall d i j k,
             (d < t)%nat -> (i < nx)%nat -> (j < ny)%nat -> (k < nz)%nat ->
             item4 MS i j k d = filtered_value a B negB w mv d i j k).

Lemma directions_step t h' :
  (t < n)%nat -> inv t h' ->
  exists h'',
    filter_direction in_sh lw lms B negB mask t h' = (Ok tt, h'')
    /\ inv (S t) h''.
Proof.
  intros Ht (Hlen & Hfr & W & MS & Hw & Hms & WW & WMS & Hsl & Hval).
  pose proof (lookup_lt_Some _ _ _ Ha) as La.
  assert (Ha' : h' !! in_sh = Some a) by (rewrite Hfr by lia; exact Ha).
  assert (Hne : lw <> lms) by (unfold lw, lms; lia).
  pose proof (wf3_contract_last a (column B t) nx ny nz nc Wa) as Wc.
  pose proof (wf3_contract_last a (column negB t) nx ny nz nc Wa) as Wo.
  destruct mask as [lm|], mv as [m|]; try contradiction.
  - destruct Hmask as [Hm Wm].
    pose proof (lookup_lt_Some _ _ _ Hm) as Lm.
    assert (Hm' : h' !! lm = Some m) by (rewrite Hfr by lia; exact Hm).
    destruct (filter_direction_masked h' in_sh lw lms a W MS B negB
                nx ny nz nc t Ha' Hw Hms Hne Wa HB HnegB lm m Hm'
                (proj1 Wm))
      as (h'' & E & Hl & Hw'' & Hms'' & Hoth).
    exists h''. split; [exact E|].
    split; [lia|]. split.
    { intros l Hl'. rewrite Hoth by (unfold lw, lms; lia). apply Hfr, Hl'. }
    exists W, (masked_direction W MS (contract_last a (column B t))
                 (contract_last a (column negB t)) m t).
    split; [exact Hw''|]. split; [exact Hms''|]. split; [exact WW|].
    split; [apply wf4_assign_dir; exact WMS|].
    split; [intros d Hd1 Hd2; apply Hsl; lia|].
    intros d i j k Hd Hi Hj Hk. unfold masked_direction.
    rewrite (assign_dir_item _ _ _ nx ny nz n) by (assumption || lia).
    destruct (Nat.eqb_spec d t) as [->|Hdt].
    + rewrite (naive_final_item _ _ _ _ nx ny nz Wc Wo Wm) by assumption.
      unfold filtered_value. rewrite Hsl by lia. reflexivity.
    + apply Hval; lia.
  - destruct (filter_direction_unmasked h' in_sh lw lms a W MS B negB
                nx ny nz nc t Ha' Hw Hms Hne Wa HB HnegB)
      as (h'' & E & Hl & Hw'' & Hms'' & Hoth).
    exists h''. split; [exact E|].
    split; [lia|]. split.
    { intros l Hl'. rewrite Hoth by (unfold lw, lms; lia). apply Hfr, Hl'. }
    exists (set4 W 1 1 1 t 0),
      (unmasked_direction W MS (contract_last a (column B t))
         (contract_last a (column negB t)) t).
    split; [exact Hw''|]. split; [exact Hms''|].
    split; [apply wf4_set4; exact WW|].
    split; [apply wf4_add_dir, wf4_assign_dir; exact WMS|].
    split.
    { intros d Hd1 Hd2.
      rewrite (set4_centre_other W n t d) by (assumption || lia).
      apply Hsl; lia. }
    intros d i j k Hd Hi Hj Hk. unfold unmasked_direction.
    rewrite (add_dir_item _ _ _ nx ny nz n)
      by (try apply wf4_assign_dir; assumption || lia).
    rewrite (assign_dir_item _ _ _ nx ny nz n) by (assumption || lia).
    destruct (Nat.eqb_spec d t) as [->|Hdt].
    + rewrite (scale_item _ _ nx ny nz) by assumption.
      rewrite (correlate3_item _ _ nx ny nz) by assumption.
      rewrite (set4_centre_slice W n t) by assumption.
      rewrite (kernel_centre W n t WW).
      unfold filtered_value, unmasked_value. rewrite Hsl by lia.
      reflexivity.
    + apply Hval; lia.
Qed.

(** From a store ending with the kernel and a zero [mean_sf], the loop runs
    to the end and fills [mean_sf] with the filtered values. *)
Lemma directions_run h1 :
  h1 = h ++ [w; zeros float64 [nx; ny; nz; n]] ->
  exists h' MS,
    for_ (seq 0 n) (filter_direction in_sh lw lms B negB mask) h1
    = (Ok tt, h')
    /\ (length h + 2 <= length h')%nat
    /\ (forall l, (l < length h)%nat -> h' !! l = h !! l)
    /\ h' !! lms = Some MS
    /\ wf4 MS nx ny nz n
    /\ (forall d i j k,
          (d < n)%nat -> (i < nx)%nat -> (j < ny)%nat -> (k < nz)%nat ->
          item4 MS i j k d = filtered_value a B negB w mv d i j k).
Proof.
  intros ->.
  destruct (for_seq_inv inv _ n directions_step
              (h ++ [w; zeros float64 [nx; ny; nz; n]]))
    as (h' & E & Hlen & Hfr & W & MS & Hw & Hms & WW & WMS & Hsl & Hval).
  - split; [rewrite length_app; cbn [length]; lia|].
    split; [intros l Hl; apply lookup_app_l; exact Hl|].
    exists w, (zeros float64 [nx; ny; nz; n]).
    split; [apply list_lookup_middle; reflexivity|].
    split; [unfold lms; rewrite lookup_new; reflexivity|].
    split; [exact Ww|]. split; [apply wf4_zeros|].
    split; [reflexivity|]. intros; lia.
  - exists h', MS. split; [exact E|]. split; [exact Hlen|].
    split; [exact Hfr|]. split; [exact Hms|]. split; [exact WMS|].
    intros; apply Hval; assumption.
Qed.

End Directions.

(** * The filter on the store *)

Lemma collect_ok {A B} (f : A -> result B) (g : A -> B) (l : list A) :
  (forall a, In a l -> f a = Ok (g a)) -> collect f l = Ok (map g l).
Proof.
  induction l as [|a l IH]; intros Hf; cbn [collect map]; [reflexivity|].
  rewrite (Hf a (or_introl eq_refl)).
  rewrite IH by (intros; apply Hf; right; assumption). reflexivity.
Qed.

Lemma dot_matrix_plane ms Binv nx ny nz n i :
  wf4 ms nx ny nz n -> dim Binv 0 = n -> (i < nx)%nat ->
  dot_matrix (plane ms i) Binv = Ok (reconstructed ms Binv i).
Proof.
  intros Hw HB Hi. destruct (wf4_dims _ _ _ _ _ Hw) as (D0 & D1 & D2 & D3).
  unfold dot_matrix.
  assert (Hp : dim (plane ms i) 2 = n) by exact D3.
  rewrite Hp, HB, Nat.eqb_refl. f_equal. unfold reconstructed.
  assert (Hp0 : dim (plane ms i) 0 = dim ms 1) by reflexivity.
  assert (Hp1 : dim (plane ms i) 1 = dim ms 2) by reflexivity.
  rewrite Hp0, Hp1, D3. unfold full3. f_equal.
  apply map_ext_in. intros p Hp'. apply in_seq in Hp'.
  f_equal. apply map_ext_in. intros d Hd. apply in_seq in Hd.
  f_equal. unfold plane. rewrite D1, D2, D3.
  assert (Hdims : (0 < ny /\ 0 < nz /\ 0 < dim Binv 1)%nat).
  { rewrite D1, D2 in Hp'.
    destruct ny, nz, (dim Binv 1); cbn in Hp'; lia. }
  rewrite D1, D2 in Hp'.
  apply full3_item.
  - apply Nat.Div0.div_lt_upper_bound. nia.
  - apply Nat.mod_upper_bound. lia.
  - lia.
Qed.

Section FilterRun.

Variable get_sphere : string -> Sphere.
Variable sh_to_sf_matrix : Sphere -> nat -> basis -> bool -> ndarray * ndarray.

Variables (h : heap) (in_sh : loc) (a : ndarray).
Variables (nx ny nz nc sh_order : nat) (sh_basis : basis).
Variables (dot_sharpness sigma : R) (sphere_str : string).
Variables (mask : option loc) (mv : option ndarray).

Let sphere := get_sphere sphere_str.
Let n := length sphere.
Let in_full_basis := (nc =? (sh_order + 1) ^ 2)%nat.
Let B := fst (sh_to_sf_matrix sphere sh_order sh_basis in_full_basis).
Let negB :=
  fst (sh_to_sf_matrix (neg_sphere sphere) sh_order sh_basis in_full_basis).

Hypothesis Ha : h !! in_sh = Some a.
Hypothesis Wa : wf4 a nx ny nz nc.
Hypothesis Hn : (0 < n)%nat.
Hypothesis HB : dim B 0 = nc.
Hypothesis HnegB : dim negB 0 = nc.
Hypothesis Hmask :
  match mask, mv with
  | None, None => True
  | Some lm, Some m => h !! lm = Some m /\ wf3 m nx ny nz
  | _, _ => False
  end.

(** Lines 45-82 return a new [mean_sf] that holds the filtered value of
    every voxel and direction; the objects of the store at the call are
    unchanged. *)
Lemma filter_on_sphere_run :
  exists w h' MS,
    _get_weights sphere dot_sharpness sigma = Ok w
    /\ filter_on_sphere get_sphere sh_to_sf_matrix in_sh sh_order sh_basis
         dot_sharpness sphere_str sigma mask h
       = (Ok (length h + 1)%nat, h')
    /\ (length h + 2 <= length h')%nat
    /\ (forall l, (l < length h)%nat -> h' !! l = h !! l)
    /\ h' !! (length h + 1)%nat = Some MS
    /\ wf4 MS nx ny nz n
    /\ (forall d i j k,
          (d < n)%nat -> (i < nx)%nat -> (j < ny)%nat -> (k < nz)%nat ->
          item4 MS i j k d = filtered_value a B negB w mv d i j k).
Proof.
  pose proof (get_weights_ok sphere dot_sharpness sigma Hn) as Ew.
  set (w := full4 _ _ _ _ _ _) in Ew.
  assert (Ww : wf4 w 3 3 3 n) by apply wf4_full4.
  destruct (directions_run h in_sh a w B negB nx ny nz nc n mask mv
              Ha Wa Ww HB HnegB Hmask _ eq_refl)
    as (h' & MS & E & Hlen & Hfr & Hms & WMS & Hval).
  exists w, h', MS. split; [exact Ew|].
  split; [|repeat (split; [assumption|]); exact Hval].
  unfold filter_on_sphere. fold sphere. rewrite Ew.
  unfold lift at 1. unfold bind at 1. unfold alloc at 1. unfold bind at 1.
  rewrite (bind_ok _ _ _ _ _
             (load_ok in_sh _ a (lookup_app_l_Some _ _ _ _ Ha))).
  destruct Wa as [Sa _]. rewrite Sa. fold n in_full_basis. fold B negB.
  unfold np_zeros, alloc at 1. unfold bind at 1.
  rewrite length_app. cbn [length]. rewrite <- app_assoc. cbn [app].
  rewrite (bind_ok _ _ _ _ _ E). reflexivity.
Qed.

Variable out_full_basis : bool.
Let Binv := snd (sh_to_sf_matrix sphere sh_order sh_basis out_full_basis).
Hypothesis HBinv : dim Binv 0 = n.

(** The filter returns a new array: the planes [np.dot(mean_sf[i], B_inv)]
    stacked by [np.array], in the dtype of the input. *)
Lemma local_asym_gaussian_filtering_run :
  exists w h' MS,
    _get_weights sphere dot_sharpness sigma = Ok w
    /\ local_asym_gaussian_filtering get_sphere sh_to_sf_matrix in_sh
         sh_order sh_basis out_full_basis dot_sharpness sphere_str sigma
         mask h
       = (Ok (length h'), h' ++ [np_array (map (reconstructed MS Binv)
                                               (seq 0 nx)) (dtype_of a)])
    /\ (length h <= length h')%nat
    /\ (forall l, (l < length h)%nat -> h' !! l = h !! l)
    /\ wf4 MS nx ny nz n
    /\ (forall d i j k,
          (d < n)%nat -> (i < nx)%nat -> (j < ny)%nat -> (k < nz)%nat ->
          item4 MS i j k d = filtered_value a B negB w mv d i j k).
Proof.
  destruct filter_on_sphere_run
    as (w & h' & MS & Ew & E & Hlen & Hfr & Hms & WMS & Hval).
  exists w, h', MS. split; [exact Ew|].
  split; [|split; [lia|]; repeat (split; [assumption|]); exact Hval].
  unfold local_asym_gaussian_filtering.
  rewrite (bind_ok _ _ _ _ _ E).
  rewrite (bind_ok _ _ _ _ _ (load_ok _ _ _ Hms)).
  fold sphere. fold Binv.
  destruct (wf4_dims _ _ _ _ _ WMS) as (D0 & D1 & D2 & D3).
  rewrite D0.
  rewrite (collect_ok _ (reconstructed MS Binv)).
  - unfold lift at 1. unfold bind at 1.
    assert (Ha' : h' !! in_sh = Some a).
    { rewrite Hfr; [exact Ha|]. eapply lookup_lt_Some; exact Ha. }
    rewrite (bind_ok _ _ _ _ _ (load_ok _ _ _ Ha')). reflexivity.
  - intros i Hi. apply in_seq in Hi.
    apply (dot_matrix_plane MS Binv nx ny nz n); (assumption || lia).
Qed.

End FilterRun.

(** * Stacked planes and sums over a window *)

Lemma concat_lookup_total (ls : list (list R)) (L i p : nat) :
  Forall (fun x => length x = L) ls ->
  (i < length ls)%nat -> (p < L)%nat ->
  concat ls !!! (i * L + p)%nat = (ls !!! i) !!! p.
Proof.
  intros Hl. revert i. induction Hl as [|x ls Hx Hl IH]; intros i Hi Hp.
  - cbn in Hi. lia.
  - cbn [concat]. destruct i as [|i].
    + cbn [Nat.mul Nat.add]. rewrite lookup_total_app_l by lia. reflexivity.
    + rewrite lookup_total_app_r by lia.
      replace (S i * L + p - length x)%nat with (i * L + p)%nat by lia.
      cbn [length] in Hi. rewrite IH by lia. reflexivity.
Qed.

(** A cell of the stacked output is the cell of its plane. *)
Lemma np_array_item (g : nat -> nat -> nat -> nat -> R) dt nx ny nz nc i j k c :
  (i < nx)%nat -> (j < ny)%nat -> (k < nz)%nat -> (c < nc)%nat ->
  item4 (np_array (map (fun i => full3 float64 ny nz nc (g i)) (seq 0 nx)) dt)
        i j k c
  = g i j k c.
Proof.
  intros Hi Hj Hk Hc.
  destruct nx as [|nx]; [lia|].
  set (f := fun i => full3 float64 ny nz nc (g i)).
  set (planes := map f (seq 0 (S nx))).
  assert (E : np_array planes dt
              = NDArray dt [length planes; ny; nz; nc]
                  (concat (map data planes))) by reflexivity.
  rewrite E. unfold item4, dim. cbn [shape data nth].
  unfold ravel4.
  replace (((i * ny + j) * nz + k) * nc + c)%nat
    with (i * (ny * nz * nc) + ((j * nz + k) * nc + c))%nat by lia.
  rewrite (concat_lookup_total _ (ny * nz * nc)).
  - unfold planes, f. rewrite map_map.
    rewrite (list_lookup_total_correct _ i
               (data (full3 float64 ny nz nc (g i)))).
    + change ((j * nz + k) * nc + c)%nat with (ravel3 nz nc j k c).
      change (data (full3 float64 ny nz nc (g i)) !!! ravel3 nz nc j k c)
        with (item3 (full3 float64 ny nz nc (g i)) j k c).
      apply full3_item; assumption.
    + change (map ?f ?l) with (f <$> l).
      rewrite list_lookup_fmap, lookup_seq_lt by lia. reflexivity.
  - unfold planes, f. rewrite map_map. apply Forall_forall. intros x Hx.
    apply list_elem_of_In, in_map_iff in Hx. destruct Hx as (t & <- & _).
    apply full3_length.
  - unfold planes. rewrite !length_map, length_seq. lia.
  - apply ravel_bound; [apply ravel_bound|]; assumption.
Qed.

Lemma Rsum_zero (l : list R) : Forall (fun x => x = 0) l -> Rsum l = 0.
Proof. induction 1 as [|x l Hx Hl IH]; unfold Rsum in *; simpl; lra. Qed.

Lemma Rsum_map_ext {A} (f g : A -> R) (l : list A) :
  (forall a, In a l -> f a = g a) -> Rsum (map f l) = Rsum (map g l).
Proof. intros H. f_equal. apply map_ext_in. exact H. Qed.

(** The product of two lists given entry by entry. *)
Lemma mul_map_seq (f : nat -> R) (v : list R) (n : nat) :
  length v = n ->
  mul (map f (seq 0 n)) v = map (fun t => f t * v !!! t) (seq 0 n).
Proof.
  intros Hv. unfold mul. apply list_eq. intros t.
  rewrite lookup_zip_with.
  change (map ?g ?l) with (g <$> l). rewrite !list_lookup_fmap.
  destruct (decide (t < n)%nat) as [Ht|Ht].
  - rewrite lookup_seq_lt by lia. cbn.
    rewrite (list_lookup_lookup_total_lt v t) by lia. reflexivity.
  - rewrite lookup_seq_ge by lia. reflexivity.
Qed.

Lemma mul_seq_map (u : list R) (f : nat -> R) (n : nat) :
  length u = n ->
  mul u (map f (seq 0 n)) = map (fun t => u !!! t * f t) (seq 0 n).
Proof.
  intros Hu. unfold mul. apply list_eq. intros t.
  rewrite lookup_zip_with.
  change (map ?g ?l) with (g <$> l). rewrite !list_lookup_fmap.
  destruct (decide (t < n)%nat) as [Ht|Ht].
  - rewrite lookup_seq_lt by lia. cbn.
    rewrite (list_lookup_lookup_total_lt u t) by lia. reflexivity.
  - rewrite lookup_seq_ge by lia. cbn.
    destruct (u !! t); reflexivity.
Qed.

(** Two sums over [range(n)] whose terms agree except at one index. *)
Lemma Rsum_differ_at (f g : nat -> R) (n t0 : nat) :
  (t0 < n)%nat ->
  (forall t, (t < n)%nat -> t <> t0 -> f t = g t) ->
  Rsum (map f (seq 0 n)) = Rsum (map g (seq 0 n)) + (f t0 - g t0).
Proof.
  intros Ht0 Hfg.
  destruct (Nat.le_exists_sub (S t0) n Ht0) as (m & -> & _).
  assert (Happ : forall l1 l2, Rsum (l1 ++ l2) = Rsum l1 + Rsum l2).
  { induction l1 as [|x l1 IH]; intros l2; unfold Rsum in *; simpl;
      [|rewrite IH]; lra. }
  rewrite (Nat.add_comm m (S t0)), seq_app, seq_S, !map_app, !Happ.
  cbn [Nat.add map].
  rewrite (Rsum_map_ext f g (seq 0 t0)).
  2:{ intros t Ht. apply in_seq in Ht. apply Hfg; lia. }
  rewrite (Rsum_map_ext f g (seq (S t0) m)).
  2:{ intros t Ht. apply in_seq in Ht. apply Hfg; lia. }
  unfold Rsum. simpl. lra.
Qed.

Lemma lookup_total_insert_13 (wv : list R) (t : nat) (x : R) :
  length wv = 27%nat -> (t < 27)%nat ->
  <[13%nat := x]> wv !!! t = if (t =? 13)%nat then x else wv !!! t.
Proof.
  intros Hl Ht. destruct (Nat.eqb_spec t 13) as [->|Hne].
  - apply list_lookup_total_insert_eq. lia.
  - apply list_lookup_total_insert_ne. congruence.
Qed.

(** * Properties of the filter *)

(** C9.  For every invocation, masked or not, returning or raising, the
    store after the call starts with the store before it: no array that
    existed at the call is written, in particular neither [in_sh] nor the
    mask.  The call only adds new arrays. *)
Theorem filter_leaves_inputs_unchanged
    (get_sphere : string -> Sphere)
    (sh_to_sf_matrix : Sphere -> nat -> basis -> bool -> ndarray * ndarray)
    (in_sh : loc) (sh_order : nat) (sh_basis : basis) (out_full_basis : bool)
    (dot_sharpness : R) (sphere_str : string) (sigma : R) (mask : option loc)
    (h : heap) :
  let h' := snd (local_asym_gaussian_filtering get_sphere sh_to_sf_matrix
                   in_sh sh_order sh_basis out_full_basis dot_sharpness
                   sphere_str sigma mask h) in
  take (length h) h' = h
  /\ match h !! in_sh with
     | Some a => h' !! in_sh = Some a
     | None => True
     end
  /\ match mask with
     | Some lm => match h !! lm with
                  | Some m => h' !! lm = Some m
                  | None => True
                  end
     | None => True
     end.
Proof.
  intros h'.
  destruct (local_asym_gaussian_filtering get_sphere sh_to_sf_matrix in_sh
              sh_order sh_basis out_full_basis dot_sharpness sphere_str
              sigma mask h) as [r h1] eqn:E.
  subst h'. cbn [snd].
  destruct (frame_local_asym_gaussian_filtering get_sphere sh_to_sf_matrix
              (length h) in_sh sh_order sh_basis out_full_basis
              dot_sharpness sphere_str sigma mask h r h1 (Nat.le_refl _) E)
    as (T & L & _).
  rewrite firstn_all in T.
  assert (Hl : forall l x, h !! l = Some x -> h1 !! l = Some x).
  { intros l x Hx. pose proof (lookup_lt_Some _ _ _ Hx) as Hlt.
    rewrite <- (lookup_take_lt h1 (length h) l) by exact Hlt.
    rewrite T. exact Hx. }
  split; [exact T|]. split.
  - destruct (h !! in_sh) eqn:Ea; [apply Hl; exact Ea|exact I].
  - destruct mask as [lm|]; [|exact I].
    destruct (h !! lm) eqn:Em; [apply Hl; exact Em|exact I].
Qed.

(** The run on a field whose trailing dimension is neither
    [(sh_order + 1)^2] nor the number of rows of the symmetric-basis matrix:
    line 53 takes the basis to be symmetric, the kernel and [mean_sf] are
    allocated, and the first [np.dot(in_sh, B[:, 0])] raises (for a sphere
    without directions, the reshape of [_get_weights] raises first). *)
Lemma mismatch_run
    (get_sphere : string -> Sphere)
    (sh_to_sf_matrix : Sphere -> nat -> basis -> bool -> ndarray * ndarray)
    (in_sh : loc) (sh_order : nat) (sh_basis : basis) (out_full_basis : bool)
    (dot_sharpness : R) (sphere_str : string) (sigma : R) (mask : option loc)
    (h : heap) (a : ndarray) (nx ny nz nc : nat) :
  let sphere := get_sphere sphere_str in
  let B_sym := fst (sh_to_sf_matrix sphere sh_order sh_basis false) in
  h !! in_sh = Some a ->
  shape a = [nx; ny; nz; nc] ->
  nc <> ((sh_order + 1) ^ 2)%nat ->
  nc <> dim B_sym 0 ->
  exists e h',
    local_asym_gaussian_filtering get_sphere sh_to_sf_matrix in_sh sh_order
      sh_basis out_full_basis dot_sharpness sphere_str sigma mask h
    = (Raise e, h')
    /\ e = match length sphere with
           | O => ValueError_reshape
           | S _ => ValueError_not_aligned nc (dim B_sym 0)
           end
    /\ h' = match _get_weights sphere dot_sharpness sigma with
            | Ok w => h ++ [w; zeros float64 [nx; ny; nz; length sphere]]
            | Raise _ => h
            end.
Proof.
  intros sphere B_sym Ha Sa Hfull Hsym.
  unfold local_asym_gaussian_filtering.
  destruct (length sphere) as [|n'] eqn:En.
  - assert (Ew : _get_weights sphere dot_sharpness sigma
                 = Raise ValueError_reshape).
    { unfold _get_weights. rewrite column_sums_empty by exact En.
      reflexivity. }
    rewrite Ew. eexists _, _. split; [|split; reflexivity].
    apply bind_raise. unfold filter_on_sphere. fold sphere. rewrite Ew.
    apply bind_raise. apply lift_run.
  - pose proof (get_weights_ok sphere dot_sharpness sigma ltac:(lia)) as Ew.
    set (w := full4 _ _ _ _ _ _) in Ew. rewrite Ew.
    eexists _, _. split; [|split; reflexivity].
    apply bind_raise. unfold filter_on_sphere. fold sphere. rewrite Ew.
    rewrite (bind_ok _ _ _ _ _ (lift_run _ _)).
    rewrite (bind_ok _ _ _ _ _ (alloc_run _ _)).
    rewrite (bind_ok _ _ _ _ _
               (load_ok in_sh _ a (lookup_app_l_Some _ _ _ _ Ha))).
    rewrite Sa.
    replace (nc =? (sh_order + 1) ^ 2)%nat with false
      by (symmetry; apply Nat.eqb_neq; exact Hfull).
    fold B_sym. rewrite En. unfold np_zeros.
    rewrite (bind_ok _ _ _ _ _ (alloc_run _ _)).
    rewrite <- app_assoc. cbn [app seq for_].
    apply bind_raise, bind_raise.
    unfold filter_direction. apply bind_raise.
    apply (np_dot_raise _ _ _ a).
    + apply lookup_app_l_Some. exact Ha.
    + rewrite <- (column_length B_sym 0).
      apply (dot_last_not_aligned a _ nx ny nz nc Sa).
      rewrite column_length. congruence.
Qed.

(** The projection of a field on a column of another length raises numpy's
    alignment error and allocates nothing, wherever the field is looked up. *)
Lemma first_projection_raises (h0 h1 : heap) (in_sh : loc) (a B : ndarray)
    (nx ny nz nc : nat) :
  h0 !! in_sh = Some a -> shape a = [nx; ny; nz; nc] -> nc <> dim B 0 ->
  np_dot in_sh (column B 0) (h0 ++ h1)
  = (Raise (ValueError_not_aligned nc (dim B 0)), h0 ++ h1).
Proof.
  intros Ha Sa Hne.
  apply (np_dot_raise _ _ _ a).
  - apply lookup_app_l_Some. exact Ha.
  - rewrite <- (column_length B 0).
    apply (dot_last_not_aligned a _ nx ny nz nc Sa).
    rewrite column_length. congruence.
Qed.

(** C4 (as stated, it fails).  A field of one coefficient with
    [sh_order = 2] matches neither the full-basis count 9 nor the
    symmetric-basis count 6.  The filter does not check this: it takes the
    basis to be symmetric, allocates the kernel and [mean_sf], and the call
    fails only inside the first projection [np.dot(in_sh, B[:, 0])], with
    numpy's alignment error for the 6 rows of the symmetric matrix.  The
    store at the error already holds the two new arrays. *)
Lemma coefficient_mismatch_is_not_validated :
  1%nat <> ((2 + 1) ^ 2)%nat
  /\ 1%nat <> n_coeffs 2 false
  /\ dim (fst (demo_sh_to_sf_matrix (demo_get_sphere "repulsion724"%string)
                 2 descoteaux07 false)) 0 = 6%nat
  /\ local_asym_gaussian_filtering demo_get_sphere demo_sh_to_sf_matrix
       0%nat 2%nat descoteaux07 true 1 "repulsion724"%string 1 None
       [one_voxel 1]
     = (Raise (ValueError_not_aligned 1 6),
        [one_voxel 1; demo_kernel; zeros float64 [1; 1; 1; 1]%nat])
  /\ np_dot 0%nat
       (column (fst (demo_sh_to_sf_matrix
                       (demo_get_sphere "repulsion724"%string) 2
                       descoteaux07 false)) 0)
       [one_voxel 1; demo_kernel; zeros float64 [1; 1; 1; 1]%nat]
     = (Raise (ValueError_not_aligned 1 6),
        [one_voxel 1; demo_kernel; zeros float64 [1; 1; 1; 1]%nat]).
Proof.
  assert (Hk : _get_weights (demo_get_sphere "repulsion724"%string) 1 1
               = Ok demo_kernel) by reflexivity.
  assert (H9 : 1%nat <> ((2 + 1) ^ 2)%nat) by (cbn; lia).
  assert (H6 : 1%nat <> n_coeffs 2 false) by (cbn; lia).
  split; [exact H9|]. split; [exact H6|]. split; [reflexivity|].
  split.
  - destruct (mismatch_run demo_get_sphere demo_sh_to_sf_matrix 0%nat 2%nat
                descoteaux07 true 1 "repulsion724"%string 1 None
                [one_voxel 1] (one_voxel 1) 1 1 1 1 eq_refl eq_refl H9 H6)
      as (e & h' & E & He & Hh).
    rewrite Hk in Hh. rewrite E, He, Hh. reflexivity.
  - exact (first_projection_raises [one_voxel 1]
             [demo_kernel; zeros float64 [1; 1; 1; 1]%nat] 0%nat
             (one_voxel 1)
             (fst (demo_sh_to_sf_matrix
                     (demo_get_sphere "repulsion724"%string) 2
                     descoteaux07 false))
             1 1 1 1 eq_refl eq_refl H6).
Qed.

(** C4 (amended).  The filter has no validation of the coefficient count.
    For every field whose trailing dimension is neither [(sh_order + 1)^2]
    nor the number of rows of the symmetric-basis matrix, the call returns
    no output and ends in an exception of numpy: line 53 takes the basis to
    be symmetric, the kernel and [mean_sf] are allocated, and the first
    projection [np.dot(in_sh, B[:, 0])] itself raises the alignment error
    for the rows of the symmetric matrix; the store then holds the two new
    arrays.  For a sphere without directions the reshape of [_get_weights]
    raises before anything is allocated. *)
Theorem coefficient_mismatch_raises_in_first_projection
    (get_sphere : string -> Sphere)
    (sh_to_sf_matrix : Sphere -> nat -> basis -> bool -> ndarray * ndarray)
    (in_sh : loc) (sh_order : nat) (sh_basis : basis) (out_full_basis : bool)
    (dot_sharpness : R) (sphere_str : string) (sigma : R) (mask : option loc)
    (h : heap) (a : ndarray) (nx ny nz nc : nat) :
  let sphere := get_sphere sphere_str in
  let B_sym := fst (sh_to_sf_matrix sphere sh_order sh_basis false) in
  h !! in_sh = Some a ->
  shape a = [nx; ny; nz; nc] ->
  nc <> ((sh_order + 1) ^ 2)%nat ->
  nc <> dim B_sym 0 ->
  exists e h',
    local_asym_gaussian_filtering get_sphere sh_to_sf_matrix in_sh sh_order
      sh_basis out_full_basis dot_sharpness sphere_str sigma mask h
    = (Raise e, h')
    /\ (nc =? (sh_order + 1) ^ 2)%nat = false
    /\ match _get_weights sphere dot_sharpness sigma with
       | Ok w =>
           (0 < length sphere)%nat
           /\ e = ValueError_not_aligned nc (dim B_sym 0)
           /\ h' = h ++ [w; zeros float64 [nx; ny; nz; length sphere]]
           /\ np_dot in_sh (column B_sym 0) h' = (Raise e, h')
       | Raise e0 =>
           length sphere = 0%nat
           /\ e0 = ValueError_reshape /\ e = e0 /\ h' = h
       end.
Proof.
  intros sphere B_sym Ha Sa Hfull Hsym.
  destruct (mismatch_run get_sphere sh_to_sf_matrix in_sh sh_order sh_basis
              out_full_basis dot_sharpness sphere_str sigma mask h a
              nx ny nz nc Ha Sa Hfull Hsym) as (e & h' & E & He & Hh).
  fold sphere B_sym in He, Hh.
  exists e, h'. split; [exact E|].
  split; [apply Nat.eqb_neq; exact Hfull|].
  destruct (Nat.eq_dec (length sphere) 0%nat) as [En|En].
  - assert (Ew : _get_weights sphere dot_sharpness sigma
                 = Raise ValueError_reshape).
    { unfold _get_weights. rewrite column_sums_empty by exact En.
      reflexivity. }
    rewrite En in He. rewrite Ew in Hh |- *.
    repeat split; assumption.
  - pose proof (get_weights_ok sphere dot_sharpness sigma ltac:(lia)) as Ew.
    assert (He' : e = ValueError_not_aligned nc (dim B_sym 0))
      by (destruct (length sphere); [lia|exact He]).
    rewrite Ew in Hh |- *.
    split; [lia|]. split; [exact He'|]. split; [exact Hh|].
    rewrite He', Hh.
    apply (first_projection_raises h _ in_sh a B_sym nx ny nz nc);
      assumption.
Qed.

Lemma coefficient_mismatch_raises_in_first_projection_witness :
  [one_voxel 1] !! 0%nat = Some (one_voxel 1)
  /\ 1%nat <> ((2 + 1) ^ 2)%nat
  /\ exists e h',
       local_asym_gaussian_filtering demo_get_sphere demo_sh_to_sf_matrix
         0%nat 2%nat descoteaux07 true 1 "repulsion724"%string 1 None
         [one_voxel 1]
       = (Raise e, h')
       /\ (1 =? (2 + 1) ^ 2)%nat = false
       /\ match _get_weights (demo_get_sphere "repulsion724"%string) 1 1 with
          | Ok w =>
              (0 < length (demo_get_sphere "repulsion724"%string))%nat
              /\ e = ValueError_not_aligned 1
                       (dim (fst (demo_sh_to_sf_matrix
                                    (demo_get_sphere "repulsion724"%string)
                                    2 descoteaux07 false)) 0)
              /\ h' = [one_voxel 1]
                      ++ [w; zeros float64
                               [1; 1; 1;
                                length (demo_get_sphere
                                          "repulsion724"%string)]%nat]
              /\ np_dot 0%nat
                   (column (fst (demo_sh_to_sf_matrix
                                   (demo_get_sphere "repulsion724"%string)
                                   2 descoteaux07 false)) 0) h'
                 = (Raise e, h')
          | Raise e0 =>
              length (demo_get_sphere "repulsion724"%string) = 0%nat
              /\ e0 = ValueError_reshape /\ e = e0 /\ h' = [one_voxel 1]
          end.
Proof.
  assert (H9 : 1%nat <> ((2 + 1) ^ 2)%nat) by (cbn; lia).
  assert (H6 : 1%nat <> n_coeffs 2 false) by (cbn; lia).
  split; [reflexivity|]. split; [exact H9|].
  exact (coefficient_mismatch_raises_in_first_projection demo_get_sphere
           demo_sh_to_sf_matrix 0%nat 2%nat descoteaux07 true 1
           "repulsion724"%string 1 None [one_voxel 1] (one_voxel 1) 1 1 1 1
           eq_refl eq_refl H9 H6).
Defined.

Lemma naive_value_outside_mask c o m wv i j k :
  item3 m i j k <= 0 -> naive_value c o m wv i j k = 0.
Proof.
  intros Hm. unfold naive_value.
  destruct (Rlt_dec 0 (item3 m i j k)); [lra|reflexivity].
Qed.

Lemma reconstructed_stack_item ms Binv dt nx ny nz n i j k c :
  wf4 ms nx ny nz n ->
  (i < nx)%nat -> (j < ny)%nat -> (k < nz)%nat -> (c < dim Binv 1)%nat ->
  item4 (np_array (map (reconstructed ms Binv) (seq 0 nx)) dt) i j k c
  = Rsum (map (fun d => item4 ms i j k d * item2 Binv d c) (seq 0 n)).
Proof.
  intros Hw Hi Hj Hk Hc.
  destruct (wf4_dims _ _ _ _ _ Hw) as (D0 & D1 & D2 & D3).
  unfold reconstructed. rewrite D1, D2, D3.
  apply (np_array_item
           (fun i j k c =>
              Rsum (map (fun d => item4 ms i j k d * item2 Binv d c)
                        (seq 0 n)))); assumption.
Qed.

(** C5.  For every masked invocation on a well-shaped input and every voxel
    [(i, j, k)] whose mask value is at most 0, the filter returns an array
    whose coefficients at that voxel are all exactly 0, whatever the values
    of the field there and around. *)
Theorem masked_out_voxel_is_zero
    (get_sphere : string -> Sphere)
    (sh_to_sf_matrix : Sphere -> nat -> basis -> bool -> ndarray * ndarray)
    (in_sh : loc) (sh_order : nat) (sh_basis : basis) (out_full_basis : bool)
    (dot_sharpness : R) (sphere_str : string) (sigma : R) (lm : loc)
    (h : heap) (a m : ndarray) (nx ny nz nc i j k : nat) :
  let sphere := get_sphere sphere_str in
  let in_full_basis := (nc =? (sh_order + 1) ^ 2)%nat in
  let B := fst (sh_to_sf_matrix sphere sh_order sh_basis in_full_basis) in
  let negB := fst (sh_to_sf_matrix (neg_sphere sphere) sh_order sh_basis
                     in_full_basis) in
  let Binv := snd (sh_to_sf_matrix sphere sh_order sh_basis out_full_basis) in
  h !! in_sh = Some a -> wf4 a nx ny nz nc ->
  h !! lm = Some m -> wf3 m nx ny nz ->
  (0 < length sphere)%nat ->
  dim B 0 = nc -> dim negB 0 = nc -> dim Binv 0 = length sphere ->
  (i < nx)%nat -> (j < ny)%nat -> (k < nz)%nat ->
  item3 m i j k <= 0 ->
  exists l h' out,
    local_asym_gaussian_filtering get_sphere sh_to_sf_matrix in_sh sh_order
      sh_basis out_full_basis dot_sharpness sphere_str sigma (Some lm) h
    = (Ok l, h')
    /\ h' !! l = Some out
    /\ forall c, (c < dim Binv 1)%nat -> item4 out i j k c = 0.
Proof.
  intros sphere in_full_basis B negB Binv Ha Wa Hm Wm Hn HB HnegB HBinv
         Hi Hj Hk Hmask.
  destruct (local_asym_gaussian_filtering_run get_sphere sh_to_sf_matrix
              h in_sh a nx ny nz nc sh_order sh_basis dot_sharpness sigma
              sphere_str (Some lm) (Some m) Ha Wa Hn HB HnegB
              (conj Hm Wm) out_full_basis HBinv)
    as (w & h' & MS & Ew & E & Hlen & Hfr & WMS & Hval).
  eexists _, _, _. split; [exact E|].
  split; [apply list_lookup_middle; reflexivity|].
  intros c Hc. fold sphere. fold Binv.
  rewrite (reconstructed_stack_item MS Binv _ nx ny nz (length sphere))
    by assumption.
  apply Rsum_zero, Forall_forall. intros x Hx.
  apply list_elem_of_In, in_map_iff in Hx. destruct Hx as (d & <- & Hd).
  apply in_seq in Hd. unfold sphere in *.
  rewrite Hval by (assumption || lia).
  unfold filtered_value. rewrite naive_value_outside_mask by exact Hmask.
  lra.
Qed.

Lemma masked_out_voxel_is_zero_witness :
  item3 (one_voxel_mask 0) 0 0 0 <= 0
  /\ exists l h' out,
       local_asym_gaussian_filtering demo_get_sphere demo_sh_to_sf_matrix
         0%nat 0%nat descoteaux07 true 1 "repulsion724"%string 1 (Some 1%nat)
         [one_voxel 5; one_voxel_mask 0]
       = (Ok l, h')
       /\ h' !! l = Some out
       /\ forall c,
            (c < dim (snd (demo_sh_to_sf_matrix
                             (demo_get_sphere "repulsion724"%string) 0
                             descoteaux07 true)) 1)%nat ->
            item4 out 0 0 0 c = 0.
Proof.
  assert (Hmask : item3 (one_voxel_mask 0) 0 0 0 <= 0)
    by (unfold item3; cbn; lra).
  split; [exact Hmask|].
  apply (masked_out_voxel_is_zero demo_get_sphere demo_sh_to_sf_matrix
           0%nat 0%nat descoteaux07 true 1 "repulsion724"%string 1 1%nat
           [one_voxel 5; one_voxel_mask 0] (one_voxel 5) (one_voxel_mask 0)
           1 1 1 1 0 0 0);
    first [ reflexivity | split; reflexivity | cbn; lia | exact Hmask ].
Defined.

(** The output of a field with at least one plane has the spatial shape of
    the input, as many coefficients as [B_inv] has columns, and the dtype of
    the input. *)
Lemma output_shape_of_nonempty_field
    (get_sphere : string -> Sphere)
    (sh_to_sf_matrix : Sphere -> nat -> basis -> bool -> ndarray * ndarray)
    (in_sh : loc) (sh_order : nat) (sh_basis : basis) (out_full_basis : bool)
    (dot_sharpness : R) (sphere_str : string) (sigma : R)
    (mask : option loc) (mv : option ndarray)
    (h : heap) (a : ndarray) (nx ny nz nc : nat) :
  let sphere := get_sphere sphere_str in
  let in_full_basis := (nc =? (sh_order + 1) ^ 2)%nat in
  let B := fst (sh_to_sf_matrix sphere sh_order sh_basis in_full_basis) in
  let negB := fst (sh_to_sf_matrix (neg_sphere sphere) sh_order sh_basis
                     in_full_basis) in
  let Binv := snd (sh_to_sf_matrix sphere sh_order sh_basis out_full_basis) in
  h !! in_sh = Some a -> wf4 a nx ny nz nc ->
  match mask, mv with
  | None, None => True
  | Some lm, Some m => h !! lm = Some m /\ wf3 m nx ny nz
  | _, _ => False
  end ->
  (0 < length sphere)%nat ->
  dim B 0 = nc -> dim negB 0 = nc -> dim Binv 0 = length sphere ->
  (0 < nx)%nat ->
  exists l h' out,
    local_asym_gaussian_filtering get_sphere sh_to_sf_matrix in_sh sh_order
      sh_basis out_full_basis dot_sharpness sphere_str sigma mask h
    = (Ok l, h')
    /\ h' !! l = Some out
    /\ shape out = [nx; ny; nz; dim Binv 1]
    /\ dtype_of out = dtype_of a.
Proof.
  intros sphere in_full_basis B negB Binv Ha Wa Hmask Hn HB HnegB HBinv Hnx.
  destruct (local_asym_gaussian_filtering_run get_sphere sh_to_sf_matrix
              h in_sh a nx ny nz nc sh_order sh_basis dot_sharpness sigma
              sphere_str mask mv Ha Wa Hn HB HnegB Hmask out_full_basis
              HBinv)
    as (w & h' & MS & Ew & E & Hlen & Hfr & WMS & Hval).
  eexists _, _, _. split; [exact E|].
  split; [apply list_lookup_middle; reflexivity|].
  destruct (wf4_dims _ _ _ _ _ WMS) as (D0 & D1 & D2 & D3).
  destruct nx as [|nx']; [lia|]. cbn [seq map np_array].
  split; [|reflexivity].
  cbn [shape length]. rewrite length_map, length_seq.
  unfold reconstructed, full3. cbn [shape]. rewrite D1, D2. reflexivity.
Qed.

(** C6 (the code departs from it).  On a field without planes (first
    dimension 0) the list comprehension of line 88 is empty and [np.array]
    returns a 1-dimensional array of shape (0,): the spatial shape
    (0, 1, 1) of the input and the coefficient axis are lost. *)
Theorem empty_field_output_shape :
  exists l h' out,
    local_asym_gaussian_filtering demo_get_sphere demo_sh_to_sf_matrix
      0%nat 0%nat descoteaux07 true 1 "repulsion724"%string 1 (Some 1%nat)
      [empty_field; empty_mask]
    = (Ok l, h')
    /\ h' !! l = Some out
    /\ shape empty_field = [0; 1; 1; 1]%nat
    /\ shape out = [0%nat]
    /\ shape out <> [0; 1; 1; 1]%nat.
Proof.
  destruct (local_asym_gaussian_filtering_run demo_get_sphere
              demo_sh_to_sf_matrix [empty_field; empty_mask] 0%nat
              empty_field 0 1 1 1 0 descoteaux07 1 1 "repulsion724"%string
              (Some 1%nat) (Some empty_mask))
    with (out_full_basis := true)
    as (w & h' & MS & Ew & E & _);
    try first [ reflexivity | split; reflexivity | cbn; lia ].
  - split; [reflexivity|split; reflexivity].
  - eexists _, _, _. split; [exact E|].
    split; [apply list_lookup_middle; reflexivity|].
    split; [reflexivity|]. split; [reflexivity|]. discriminate.
Qed.

(** * The kernel slice of a direction *)

Lemma kernel_slice_sum sphere ds sigma w d :
  _get_weights sphere ds sigma = Ok w -> (d < length sphere)%nat ->
  Rsum (dir_slice w d) = 1.
Proof.
  intros Hw Hd. rewrite (get_weights_slice sphere ds sigma d w Hw Hd).
  pose proof (centred_weights_sum_ge_1 sphere ds sigma d Hd).
  rewrite Rsum_map_div. field. lra.
Qed.

Lemma kernel_slice_nonneg sphere ds sigma w d :
  _get_weights sphere ds sigma = Ok w -> (d < length sphere)%nat ->
  Forall (fun x => 0 <= x) (dir_slice w d).
Proof.
  intros Hw Hd. rewrite (get_weights_slice sphere ds sigma d w Hw Hd).
  pose proof (centred_weights_sum_ge_1 sphere ds sigma d Hd) as H1.
  pose proof (centred_weights_slice_nonneg sphere ds sigma d Hd) as Hpos.
  apply Forall_forall. intros x Hx.
  apply list_elem_of_In, in_map_iff in Hx. destruct Hx as (y & <- & Hy).
  apply list_elem_of_In in Hy.
  rewrite Forall_forall in Hpos. specialize (Hpos y Hy).
  apply Rmult_le_pos; [lra|]. left. apply Rinv_0_lt_compat. lra.
Qed.

(** The centre weight of the normalised kernel is the inverse of the sum of
    the weights before normalisation. *)
Lemma kernel_slice_centre sphere ds sigma w d :
  _get_weights sphere ds sigma = Ok w -> (d < length sphere)%nat ->
  dir_slice w d !!! 13%nat
  = 1 / Rsum (dir_slice (centred_weights sphere ds sigma) d).
Proof.
  intros Hw Hd. rewrite (get_weights_slice sphere ds sigma d w Hw Hd).
  apply list_lookup_total_correct.
  change (map ?g ?l) with (g <$> l). rewrite list_lookup_fmap.
  rewrite centred_weights_slice_centre by exact Hd. reflexivity.
Qed.

Lemma kernel_slice_centre_pos sphere ds sigma w d :
  _get_weights sphere ds sigma = Ok w -> (d < length sphere)%nat ->
  0 < dir_slice w d !!! 13%nat.
Proof.
  intros Hw Hd. rewrite (kernel_slice_centre sphere ds sigma w d Hw Hd).
  pose proof (centred_weights_sum_ge_1 sphere ds sigma d Hd).
  apply Rdiv_lt_0_compat; lra.
Qed.

(** * Windows of the padded mask *)

Lemma pad3_nonneg m nx ny nz x y z :
  wf3 m nx ny nz ->
  (forall i j k, (i < nx)%nat -> (j < ny)%nat -> (k < nz)%nat ->
     0 <= item3 m i j k) ->
  (x < nx + 2)%nat -> (y < ny + 2)%nat -> (z < nz + 2)%nat ->
  0 <= item3 (pad3 m) x y z.
Proof.
  intros Wm Hpos Hx Hy Hz. rewrite (pad3_item m nx ny nz) by assumption.
  destruct (_ && _)%bool eqn:E; [|lra].
  repeat (apply andb_prop in E; destruct E as [E ?]).
  repeat match goal with H : (_ <=? _)%nat = true |- _ =>
    apply Nat.leb_le in H end.
  apply Hpos; lia.
Qed.

Lemma window_nonneg m nx ny nz i j k :
  wf3 m nx ny nz ->
  (forall i j k, (i < nx)%nat -> (j < ny)%nat -> (k < nz)%nat ->
     0 <= item3 m i j k) ->
  (i < nx)%nat -> (j < ny)%nat -> (k < nz)%nat ->
  Forall (fun x => 0 <= x) (window (pad3 m) i j k).
Proof.
  intros Wm Hpos Hi Hj Hk. unfold window. apply Forall_forall. intros x Hx.
  apply list_elem_of_In, in_map_iff in Hx. destruct Hx as (t & <- & Ht).
  apply in_seq in Ht. destruct (offset_decomp t) as (_ & ? & ? & ?); [lia|].
  apply (pad3_nonneg m nx ny nz); (assumption || lia).
Qed.

Lemma mul_nonneg (u v : list R) :
  Forall (fun x => 0 <= x) u -> Forall (fun x => 0 <= x) v ->
  Forall (fun x => 0 <= x) (mul u v).
Proof.
  intros Hu. revert v. induction Hu as [|x u Hx Hu IH]; intros v Hv.
  - constructor.
  - destruct Hv as [|y v Hy Hv]; [constructor|].
    unfold mul. cbn [zip_with]. constructor; [apply Rmult_le_pos; lra|].
    apply IH. exact Hv.
Qed.

Lemma mul_lookup_total (u v : list R) (t : nat) :
  (t < length u)%nat -> (t < length v)%nat ->
  mul u v !!! t = u !!! t * v !!! t.
Proof.
  intros Hu Hv. apply list_lookup_total_correct. unfold mul.
  rewrite lookup_zip_with.
  rewrite (list_lookup_lookup_total_lt u t) by exact Hu.
  rewrite (list_lookup_lookup_total_lt v t) by exact Hv. reflexivity.
Qed.

Lemma mul_length (u v : list R) :
  length u = length v -> length (mul u v) = length u.
Proof. intros E. unfold mul. rewrite length_zip_with. lia. Qed.

Lemma np_any_true (l : list R) (t : nat) :
  (t < length l)%nat -> l !!! t <> 0 -> np_any l = true.
Proof.
  intros Ht Hx. unfold np_any. apply existsb_exists. exists (l !!! t). split.
  - apply list_elem_of_In, list_elem_of_lookup. exists t.
    apply list_lookup_lookup_total_lt. exact Ht.
  - destruct (Req_dec_T (l !!! t) 0); [contradiction|reflexivity].
Qed.

(** C10.  In the masked path, for a mask without negative entries (a boolean
    mask) and a voxel whose mask window centre is strictly positive, the
    masked weights [curr_w = w_filter * win_mask] have a strictly positive
    centre entry, so [curr_w.any()] holds, the renormalisation is applied
    and the weights used sum to 1: the all-zero fallback never meets a valid
    centre. *)
Theorem valid_centre_weights_renormalise (sphere : Sphere)
    (dot_sharpness sigma : R) (w m : ndarray) (d nx ny nz i j k : nat) :
  0 < sigma -> 0 <= dot_sharpness ->
  _get_weights sphere dot_sharpness sigma = Ok w ->
  (d < length sphere)%nat ->
  wf3 m nx ny nz ->
  (forall i j k, (i < nx)%nat -> (j < ny)%nat -> (k < nz)%nat ->
     0 <= item3 m i j k) ->
  (i < nx)%nat -> (j < ny)%nat -> (k < nz)%nat ->
  let w_filter := dir_slice w d in
  let win_mask := window (pad3 m) i j k in
  let curr_w := mul w_filter win_mask in
  0 < win_mask !!! 13%nat ->
  0 < curr_w !!! 13%nat
  /\ np_any curr_w = true
  /\ window_weights w_filter win_mask
     = map (fun x => x / Rsum curr_w) curr_w
  /\ Rsum (window_weights w_filter win_mask) = 1.
Proof.
  intros _ _ Hw Hd Wm Hpos Hi Hj Hk w_filter win_mask curr_w Hc.
  pose proof (kernel_slice_centre_pos sphere dot_sharpness sigma w d Hw Hd)
    as Hwc.
  pose proof (kernel_slice_nonneg sphere dot_sharpness sigma w d Hw Hd)
    as Hwpos.
  pose proof (window_nonneg m nx ny nz i j k Wm Hpos Hi Hj Hk) as Hmpos.
  assert (Hlen : length curr_w = 27%nat).
  { unfold curr_w, w_filter, win_mask.
    rewrite mul_length; rewrite dir_slice_length;
      [reflexivity | rewrite window_length; reflexivity]. }
  assert (H13 : curr_w !!! 13%nat = w_filter !!! 13%nat * win_mask !!! 13%nat).
  { apply mul_lookup_total.
    - unfold w_filter. rewrite dir_slice_length. lia.
    - unfold win_mask. rewrite window_length. lia. }
  assert (Hcpos : 0 < curr_w !!! 13%nat).
  { rewrite H13. apply Rmult_lt_0_compat; assumption. }
  assert (Hany : np_any curr_w = true).
  { apply (np_any_true curr_w 13); [lia|lra]. }
  assert (Hsum : 0 < Rsum curr_w).
  { apply Rlt_le_trans with (curr_w !!! 13%nat); [exact Hcpos|].
    apply (Rsum_ge_item curr_w 13).
    - apply mul_nonneg; assumption.
    - apply list_lookup_lookup_total_lt. lia. }
  assert (Hww : window_weights w_filter win_mask
                = map (fun x => x / Rsum curr_w) curr_w).
  { unfold window_weights. fold curr_w. rewrite Hany. reflexivity. }
  split; [exact Hcpos|]. split; [exact Hany|]. split; [exact Hww|].
  rewrite Hww, Rsum_map_div. field. lra.
Qed.

Lemma valid_centre_weights_renormalise_witness :
  0 < 1 /\ 0 <= 1
  /\ _get_weights (demo_get_sphere EmptyString) 1 1 = Ok demo_kernel
  /\ 0 < window (pad3 (one_voxel_mask 1)) 0 0 0 !!! 13%nat
  /\ 0 < mul (dir_slice demo_kernel 0)
             (window (pad3 (one_voxel_mask 1)) 0 0 0) !!! 13%nat
  /\ np_any (mul (dir_slice demo_kernel 0)
                 (window (pad3 (one_voxel_mask 1)) 0 0 0)) = true
  /\ window_weights (dir_slice demo_kernel 0)
                    (window (pad3 (one_voxel_mask 1)) 0 0 0)
     = map (fun x => x / Rsum (mul (dir_slice demo_kernel 0)
                                   (window (pad3 (one_voxel_mask 1)) 0 0 0)))
           (mul (dir_slice demo_kernel 0)
                (window (pad3 (one_voxel_mask 1)) 0 0 0))
  /\ Rsum (window_weights (dir_slice demo_kernel 0)
                          (window (pad3 (one_voxel_mask 1)) 0 0 0)) = 1.
Proof.
  assert (Hk : _get_weights (demo_get_sphere EmptyString) 1 1
               = Ok demo_kernel) by reflexivity.
  assert (Wm : wf3 (one_voxel_mask 1) 1 1 1) by (split; reflexivity).
  assert (Hc : 0 < window (pad3 (one_voxel_mask 1)) 0 0 0 !!! 13%nat).
  { rewrite window_centre.
    rewrite (pad3_item_inner (one_voxel_mask 1) 1 1 1) by (exact Wm || lia).
    unfold item3. cbn. lra. }
  split; [lra|]. split; [lra|]. split; [exact Hk|]. split; [exact Hc|].
  apply (valid_centre_weights_renormalise (demo_get_sphere EmptyString) 1 1
           demo_kernel (one_voxel_mask 1) 0 1 1 1 0 0 0);
    [lra | lra | exact Hk | cbn; lia | exact Wm | | lia | lia | lia
    | exact Hc].
  intros [|i] [|j] [|k] Hi Hj Hk'; try lia. unfold item3. cbn. lra.
Defined.

(** * No validation of [sigma] and [dot_sharpness] *)

Lemma g_weights_neg sigma : g_weights (- sigma) = g_weights sigma.
Proof.
  unfold g_weights, full4. f_equal. apply map_ext. intros p.
  replace ((- sigma) ^ 2) with (sigma ^ 2) by ring. reflexivity.
Qed.

(** Only [sigma**2] enters the kernel. *)
Lemma get_weights_neg sphere ds sigma :
  _get_weights sphere ds (- sigma) = _get_weights sphere ds sigma.
Proof.
  unfold _get_weights, centred_weights, combined_weights.
  rewrite g_weights_neg. reflexivity.
Qed.

(** C3 (as stated, it fails).  The call with [sigma = -1] and
    [dot_sharpness = -1] on a one-voxel field is not rejected: it returns an
    output. *)
Lemma invalid_configuration_is_accepted :
  -1 <= 0 /\ -1 < 0
  /\ (exists l h',
        local_asym_gaussian_filtering demo_get_sphere demo_sh_to_sf_matrix
          0%nat 0%nat descoteaux07 true (-1) "repulsion724"%string (-1) None
          [one_voxel 1]
        = (Ok l, h'))
  /\ ~ (exists e h',
          local_asym_gaussian_filtering demo_get_sphere demo_sh_to_sf_matrix
            0%nat 0%nat descoteaux07 true (-1) "repulsion724"%string (-1)
            None [one_voxel 1]
          = (Raise e, h')).
Proof.
  split; [lra|]. split; [lra|].
  assert (Wa : wf4 (one_voxel 1) 1 1 1 1) by (split; reflexivity).
  assert (Hn : (0 < length (demo_get_sphere "repulsion724"%string))%nat)
    by (cbn; lia).
  destruct (local_asym_gaussian_filtering_run demo_get_sphere
              demo_sh_to_sf_matrix [one_voxel 1] 0%nat (one_voxel 1)
              1 1 1 1 0 descoteaux07 (-1) (-1) "repulsion724"%string
              None None eq_refl Wa Hn eq_refl eq_refl I true eq_refl)
    as (w & h' & MS & Ew & E & _).
  split.
  - eexists _, _. exact E.
  - intros (e & h'' & E'). rewrite E in E'. discriminate.
Qed.

(** C3 (amended).  The filter does not validate [sigma] or [dot_sharpness]:
    on a well-shaped input whose coefficient count matches the basis, with a
    sphere of at least one direction, it returns an output for every real
    [sigma] and [dot_sharpness], and a negative [sigma] gives exactly the
    result of its absolute value (only [sigma**2] is used). *)
Theorem sigma_and_sharpness_are_not_validated
    (get_sphere : string -> Sphere)
    (sh_to_sf_matrix : Sphere -> nat -> basis -> bool -> ndarray * ndarray)
    (in_sh : loc) (sh_order : nat) (sh_basis : basis) (out_full_basis : bool)
    (dot_sharpness : R) (sphere_str : string) (sigma : R)
    (mask : option loc) (mv : option ndarray)
    (h : heap) (a : ndarray) (nx ny nz nc : nat) :
  let sphere := get_sphere sphere_str in
  let in_full_basis := (nc =? (sh_order + 1) ^ 2)%nat in
  let B := fst (sh_to_sf_matrix sphere sh_order sh_basis in_full_basis) in
  let negB := fst (sh_to_sf_matrix (neg_sphere sphere) sh_order sh_basis
                     in_full_basis) in
  let Binv := snd (sh_to_sf_matrix sphere sh_order sh_basis out_full_basis) in
  h !! in_sh = Some a -> wf4 a nx ny nz nc ->
  match mask, mv with
  | None, None => True
  | Some lm, Some m => h !! lm = Some m /\ wf3 m nx ny nz
  | _, _ => False
  end ->
  (0 < length sphere)%nat ->
  dim B 0 = nc -> dim negB 0 = nc -> dim Binv 0 = length sphere ->
  (exists l h',
     local_asym_gaussian_filtering get_sphere sh_to_sf_matrix in_sh sh_order
       sh_basis out_full_basis dot_sharpness sphere_str sigma mask h
     = (Ok l, h'))
  /\ local_asym_gaussian_filtering get_sphere sh_to_sf_matrix in_sh sh_order
       sh_basis out_full_basis dot_sharpness sphere_str (- sigma) mask h
     = local_asym_gaussian_filtering get_sphere sh_to_sf_matrix in_sh
         sh_order sh_basis out_full_basis dot_sharpness sphere_str sigma
         mask h.
Proof.
  intros sphere in_full_basis B negB Binv Ha Wa Hmask Hn HB HnegB HBinv.
  split.
  - destruct (local_asym_gaussian_filtering_run get_sphere sh_to_sf_matrix
                h in_sh a nx ny nz nc sh_order sh_basis dot_sharpness sigma
                sphere_str mask mv Ha Wa Hn HB HnegB Hmask out_full_basis
                HBinv)
      as (w & h' & MS & Ew & E & _).
    eexists _, _. exact E.
  - unfold local_asym_gaussian_filtering, filter_on_sphere.
    rewrite get_weights_neg. reflexivity.
Qed.

Lemma sigma_and_sharpness_are_not_validated_witness :
  [one_voxel 1] !! 0%nat = Some (one_voxel 1)
  /\ wf4 (one_voxel 1) 1 1 1 1
  /\ (exists l h',
        local_asym_gaussian_filtering demo_get_sphere demo_sh_to_sf_matrix
          0%nat 0%nat descoteaux07 true (-1) "repulsion724"%string (-2) None
          [one_voxel 1]
        = (Ok l, h'))
  /\ local_asym_gaussian_filtering demo_get_sphere demo_sh_to_sf_matrix
       0%nat 0%nat descoteaux07 true (-1) "repulsion724"%string (- -2) None
       [one_voxel 1]
     = local_asym_gaussian_filtering demo_get_sphere demo_sh_to_sf_matrix
         0%nat 0%nat descoteaux07 true (-1) "repulsion724"%string (-2) None
         [one_voxel 1].
Proof.
  split; [reflexivity|]. split; [split; reflexivity|].
  apply (sigma_and_sharpness_are_not_validated demo_get_sphere
           demo_sh_to_sf_matrix 0%nat 0%nat descoteaux07 true (-1)
           "repulsion724"%string (-2) None None [one_voxel 1] (one_voxel 1)
           1 1 1 1 eq_refl (conj eq_refl eq_refl) I
           (Nat.lt_0_succ 0) eq_refl eq_refl eq_refl).
Defined.

(** * Masked against unmasked *)

Lemma map_lookup_total_seq (l : list R) (n : nat) :
  length l = n -> map (fun t => l !!! t) (seq 0 n) = l.
Proof.
  intros Hl. apply list_eq. intros t.
  change (map ?g ?s) with (g <$> s). rewrite list_lookup_fmap.
  destruct (decide (t < n)%nat) as [Ht|Ht].
  - rewrite lookup_seq_lt by lia. cbn.
    rewrite list_lookup_lookup_total_lt by lia. reflexivity.
  - rewrite lookup_seq_ge by lia. cbn. symmetry.
    apply lookup_ge_None_2. lia.
Qed.

Lemma Rsum_single (f : nat -> R) (n t0 : nat) :
  (t0 < n)%nat ->
  (forall t, (t < n)%nat -> t <> t0 -> f t = 0) ->
  Rsum (map f (seq 0 n)) = f t0.
Proof.
  intros Ht0 Hf.
  rewrite (Rsum_differ_at f (fun _ => 0) n t0 Ht0 Hf).
  rewrite Rsum_zero; [lra|].
  apply Forall_forall. intros x Hx.
  apply list_elem_of_In, in_map_iff in Hx. destruct Hx as (t & <- & _).
  reflexivity.
Qed.

(** With an all-true mask the window of a voxel whose 26 neighbours are in
    the volume is all ones, and the masked weights are the kernel. *)
Lemma window_all_true m nx ny nz i j k :
  wf3 m nx ny nz ->
  (forall i' j' k', (i' < nx)%nat -> (j' < ny)%nat -> (k' < nz)%nat ->
     item3 m i' j' k' = 1) ->
  (1 <= i)%nat -> (i + 1 < nx)%nat -> (1 <= j)%nat -> (j + 1 < ny)%nat ->
  (1 <= k)%nat -> (k + 1 < nz)%nat ->
  window (pad3 m) i j k = map (fun _ => 1) (seq 0 27).
Proof.
  intros Wm Hones Hi1 Hi2 Hj1 Hj2 Hk1 Hk2. unfold window.
  apply map_ext_in. intros t Ht. apply in_seq in Ht.
  destruct (offset_decomp t) as (_ & Ha & Hb & Hc); [lia|].
  replace (i + t / 9)%nat with (i + t / 9 - 1 + 1)%nat by lia.
  replace (j + t / 3 mod 3)%nat with (j + t / 3 mod 3 - 1 + 1)%nat by lia.
  replace (k + t mod 3)%nat with (k + t mod 3 - 1 + 1)%nat by lia.
  rewrite (pad3_item_inner m nx ny nz) by (assumption || lia).
  apply Hones; lia.
Qed.

Lemma window_weights_all_true wv :
  length wv = 27%nat -> Rsum wv = 1 ->
  window_weights wv (map (fun _ => 1) (seq 0 27)) = wv.
Proof.
  intros Hl Hs. unfold window_weights.
  assert (E : mul wv (map (fun _ => 1) (seq 0 27)) = wv).
  { rewrite mul_seq_map by exact Hl.
    transitivity (map (fun t => wv !!! t) (seq 0 27)).
    - apply map_ext. intros t. lra.
    - apply map_lookup_total_seq. exact Hl. }
  rewrite E. destruct (np_any wv); [|reflexivity].
  rewrite Hs. transitivity (map (fun x : R => x) wv).
  - apply map_ext. intros x. lra.
  - apply map_id.
Qed.

(** At a voxel whose 26 neighbours are in the volume, under an all-true
    mask, the masked path gives the value of the unmasked path when the
    neighbours visited before it have equal direct and antipodal samples. *)
Lemma inside_values_agree c o m wv nx ny nz i j k :
  wf3 c nx ny nz -> wf3 o nx ny nz -> wf3 m nx ny nz ->
  length wv = 27%nat -> Rsum wv = 1 ->
  (forall i' j' k', (i' < nx)%nat -> (j' < ny)%nat -> (k' < nz)%nat ->
     item3 m i' j' k' = 1) ->
  (1 <= i)%nat -> (i + 1 < nx)%nat -> (1 <= j)%nat -> (j + 1 < ny)%nat ->
  (1 <= k)%nat -> (k + 1 < nz)%nat ->
  (forall i' j' k',
     (i - 1 <= i' <= i + 1)%nat -> (j - 1 <= j' <= j + 1)%nat ->
     (k - 1 <= k' <= k + 1)%nat ->
     scanned_before i j k i' j' k' ->
     item3 c i' j' k' = item3 o i' j' k') ->
  naive_value c o m wv i j k = unmasked_value c o wv i j k.
Proof.
  intros Wc Wo Wm Hl Hs Hones Hi1 Hi2 Hj1 Hj2 Hk1 Hk2 Hvis.
  unfold naive_value, unmasked_value.
  rewrite Hones by lia.
  destruct (Rlt_dec 0 1) as [_|Hn]; [|lra].
  rewrite (window_all_true m nx ny nz) by assumption.
  rewrite window_weights_all_true by assumption.
  unfold scan_window, window.
  rewrite mul_map_seq by exact Hl.
  rewrite mul_map_seq by (rewrite length_insert; exact Hl).
  rewrite (Rsum_differ_at _
             (fun t => item3 (pad3 o) (i + t / 9) (j + t / 3 mod 3)
                         (k + t mod 3)
                       * <[13%nat := 0]> wv !!! t) 27 13) by
    (first [ lia
           | intros t Ht Hne;
             rewrite lookup_total_insert_13 by (assumption || lia);
             replace (t =? 13)%nat with false
               by (symmetry; apply Nat.eqb_neq; exact Hne);
             f_equal;
             destruct (Nat.leb_spec t 13) as [Hle|Hgt]; [|reflexivity];
             destruct (offset_decomp t) as (Et & Ha & Hb & Hc'); [lia|];
             replace (i + t / 9)%nat with (i + t / 9 - 1 + 1)%nat by lia;
             replace (j + t / 3 mod 3)%nat
               with (j + t / 3 mod 3 - 1 + 1)%nat by lia;
             replace (k + t mod 3)%nat with (k + t mod 3 - 1 + 1)%nat by lia;
             rewrite (pad3_item_inner c nx ny nz) by (assumption || lia);
             rewrite (pad3_item_inner o nx ny nz) by (assumption || lia);
             apply Hvis; unfold scanned_before; lia ]).
  rewrite lookup_total_insert_13 by (assumption || lia).
  change (13 <=? 13)%nat with true. change (13 =? 13)%nat with true.
  cbv beta iota.
  change (13 / 9)%nat with 1%nat. change (13 / 3 mod 3)%nat with 1%nat.
  change (13 mod 3)%nat with 1%nat.
  rewrite (pad3_item_inner c nx ny nz) by (assumption || lia).
  lra.
Qed.

(** C1 (amended).  For every input coefficient field and every valid
    configuration ([sigma > 0], [dot_sharpness >= 0]), with an all-true
    mask, the masked path leaves in [mean_sf] the value of the unmasked path
    for every direction at every voxel whose 26 neighbours lie inside the
    volume, provided the neighbours that the loops visit before that voxel
    have equal direct and antipodal samples in that direction (as they do
    for an input in the symmetric basis).  On the border of the volume the
    masked path renormalises the kernel over the cells inside the volume
    and the two paths differ. *)
Theorem masked_equals_unmasked_inside
    (get_sphere : string -> Sphere)
    (sh_to_sf_matrix : Sphere -> nat -> basis -> bool -> ndarray * ndarray)
    (in_sh : loc) (sh_order : nat) (sh_basis : basis)
    (dot_sharpness : R) (sphere_str : string) (sigma : R) (lm : loc)
    (h : heap) (a m : ndarray) (nx ny nz nc d i j k : nat) :
  let sphere := get_sphere sphere_str in
  let in_full_basis := (nc =? (sh_order + 1) ^ 2)%nat in
  let B := fst (sh_to_sf_matrix sphere sh_order sh_basis in_full_basis) in
  let negB := fst (sh_to_sf_matrix (neg_sphere sphere) sh_order sh_basis
                     in_full_basis) in
  let c := contract_last a (column B d) in
  let o := contract_last a (column negB d) in
  0 < sigma -> 0 <= dot_sharpness ->
  h !! in_sh = Some a -> wf4 a nx ny nz nc ->
  h !! lm = Some m -> wf3 m nx ny nz ->
  dim B 0 = nc -> dim negB 0 = nc ->
  (d < length sphere)%nat ->
  (forall i' j' k', (i' < nx)%nat -> (j' < ny)%nat -> (k' < nz)%nat ->
     item3 m i' j' k' = 1) ->
  (1 <= i /\ i + 1 < nx)%nat -> (1 <= j /\ j + 1 < ny)%nat ->
  (1 <= k /\ k + 1 < nz)%nat ->
  (forall i' j' k',
     (i - 1 <= i' <= i + 1)%nat -> (j - 1 <= j' <= j + 1)%nat ->
     (k - 1 <= k' <= k + 1)%nat ->
     scanned_before i j k i' j' k' ->
     item3 c i' j' k' = item3 o i' j' k') ->
  exists hm MSm hu MSu,
    filter_on_sphere get_sphere sh_to_sf_matrix in_sh sh_order sh_basis
      dot_sharpness sphere_str sigma (Some lm) h
    = (Ok (length h + 1)%nat, hm)
    /\ hm !! (length h + 1)%nat = Some MSm
    /\ filter_on_sphere get_sphere sh_to_sf_matrix in_sh sh_order sh_basis
         dot_sharpness sphere_str sigma None h
       = (Ok (length h + 1)%nat, hu)
    /\ hu !! (length h + 1)%nat = Some MSu
    /\ item4 MSm i j k d = item4 MSu i j k d.
Proof.
  intros sphere in_full_basis B negB c o _ _ Ha Wa Hm Wm HB HnegB Hd Hones
         [Hi1 Hi2] [Hj1 Hj2] [Hk1 Hk2] Hvis.
  assert (Hn : (0 < length sphere)%nat) by lia.
  destruct (filter_on_sphere_run get_sphere sh_to_sf_matrix h in_sh a
              nx ny nz nc sh_order sh_basis dot_sharpness sigma sphere_str
              (Some lm) (Some m) Ha Wa Hn HB HnegB (conj Hm Wm))
    as (w & hm & MSm & Ew & Em & _ & _ & Hlm & _ & Hvm).
  destruct (filter_on_sphere_run get_sphere sh_to_sf_matrix h in_sh a
              nx ny nz nc sh_order sh_basis dot_sharpness sigma sphere_str
              None None Ha Wa Hn HB HnegB I)
    as (w' & hu & MSu & Ew' & Eu & _ & _ & Hlu & _ & Hvu).
  assert (w' = w) as -> by congruence.
  exists hm, MSm, hu, MSu.
  split; [exact Em|]. split; [exact Hlm|]. split; [exact Eu|].
  split; [exact Hlu|].
  rewrite Hvm, Hvu by (assumption || lia).
  unfold filtered_value. fold B negB c o.
  apply (inside_values_agree c o m (dir_slice w d) nx ny nz i j k);
    try assumption.
  - apply (wf3_contract_last a _ nx ny nz nc Wa).
  - apply (wf3_contract_last a _ nx ny nz nc Wa).
  - apply dir_slice_length.
  - apply (kernel_slice_sum sphere dot_sharpness sigma w d Ew Hd).
Qed.

Lemma cube_mask_all_true i j k :
  (i < 3)%nat -> (j < 3)%nat -> (k < 3)%nat -> item3 cube_mask i j k = 1.
Proof.
  intros Hi Hj Hk.
  destruct i as [|[|[|i]]]; destruct j as [|[|[|j]]];
    destruct k as [|[|[|k]]]; try lia; reflexivity.
Qed.

Lemma masked_equals_unmasked_inside_witness :
  0 < 1 /\ 0 <= 1
  /\ (0 < length (demo_get_sphere "repulsion724"%string))%nat
  /\ exists hm MSm hu MSu,
       filter_on_sphere demo_get_sphere demo_sh_to_sf_matrix 0%nat 0%nat
         descoteaux07 1 "repulsion724"%string 1 (Some 1%nat)
         [cube_field; cube_mask]
       = (Ok (length [cube_field; cube_mask] + 1)%nat, hm)
       /\ hm !! (length [cube_field; cube_mask] + 1)%nat = Some MSm
       /\ filter_on_sphere demo_get_sphere demo_sh_to_sf_matrix 0%nat 0%nat
            descoteaux07 1 "repulsion724"%string 1 None
            [cube_field; cube_mask]
          = (Ok (length [cube_field; cube_mask] + 1)%nat, hu)
       /\ hu !! (length [cube_field; cube_mask] + 1)%nat = Some MSu
       /\ item4 MSm 1 1 1 0 = item4 MSu 1 1 1 0.
Proof.
  split; [lra|]. split; [lra|]. split; [cbn; lia|].
  apply (masked_equals_unmasked_inside demo_get_sphere demo_sh_to_sf_matrix
           0%nat 0%nat descoteaux07 1 "repulsion724"%string 1 1%nat
           [cube_field; cube_mask] cube_field cube_mask 3 3 3 1 0 1 1 1);
    [ lra | lra | reflexivity | split; reflexivity | reflexivity
    | split; reflexivity | reflexivity | reflexivity | cbn; lia
    | exact cube_mask_all_true | lia | lia | lia
    | intros; reflexivity ].
Defined.

(** * A volume of one voxel *)

Lemma window_single a :
  wf3 a 1 1 1 ->
  window (pad3 a) 0 0 0
  = map (fun t => if (t =? 13)%nat then item3 a 0 0 0 else 0) (seq 0 27).
Proof.
  intros Wa. unfold window. apply map_ext_in. intros t Ht.
  apply in_seq in Ht.
  destruct (offset_decomp t) as (_ & Ha & Hb & Hc); [lia|].
  rewrite (pad3_item a 1 1 1) by (assumption || lia).
  do 27 (destruct t as [|t]; [reflexivity|]). lia.
Qed.

Lemma single_voxel_unmasked c o wv :
  wf3 c 1 1 1 -> wf3 o 1 1 1 -> length wv = 27%nat ->
  unmasked_value c o wv 0 0 0 = wv !!! 13%nat * item3 c 0 0 0.
Proof.
  intros Wc Wo Hl. unfold unmasked_value.
  rewrite (window_single o Wo).
  rewrite mul_map_seq by (rewrite length_insert; exact Hl).
  rewrite Rsum_zero; [lra|].
  apply Forall_forall. intros x Hx.
  apply list_elem_of_In, in_map_iff in Hx. destruct Hx as (t & <- & Ht).
  apply in_seq in Ht.
  rewrite lookup_total_insert_13 by (assumption || lia).
  destruct (t =? 13)%nat; lra.
Qed.

Lemma single_voxel_masked c o m wv :
  wf3 c 1 1 1 -> wf3 o 1 1 1 -> wf3 m 1 1 1 -> length wv = 27%nat ->
  0 < item3 m 0 0 0 -> wv !!! 13%nat <> 0 ->
  naive_value c o m wv 0 0 0 = item3 c 0 0 0.
Proof.
  intros Wc Wo Wm Hl Hm Hw. unfold naive_value.
  destruct (Rlt_dec 0 (item3 m 0 0 0)) as [_|Hn]; [|contradiction].
  rewrite (window_single m Wm).
  set (mk := item3 m 0 0 0) in *.
  unfold window_weights.
  rewrite mul_seq_map by exact Hl.
  set (cw := map (fun t => wv !!! t * (if (t =? 13)%nat then mk else 0))
                 (seq 0 27)).
  assert (H13 : cw !!! 13%nat = wv !!! 13%nat * mk)
    by (unfold cw; rewrite lookup_total_map_seq by lia; reflexivity).
  assert (Hs : Rsum cw = wv !!! 13%nat * mk).
  { unfold cw. rewrite (Rsum_single _ 27 13); [reflexivity|lia|].
    intros t Ht Hne.
    replace (t =? 13)%nat with false
      by (symmetry; apply Nat.eqb_neq; exact Hne). lra. }
  assert (Hany : np_any cw = true).
  { apply (np_any_true cw 13).
    - unfold cw. rewrite length_map, length_seq. lia.
    - rewrite H13. intros E. apply Rmult_integral in E. lra. }
  rewrite Hany, Hs. unfold cw. rewrite map_map.
  unfold scan_window.
  rewrite mul_map_seq by (rewrite length_map, length_seq; reflexivity).
  rewrite (Rsum_single _ 27 13); [|lia|].
  - rewrite lookup_total_map_seq by lia.
    change (13 <=? 13)%nat with true. change (13 =? 13)%nat with true.
    cbv beta iota.
    change (0 + 13 / 9)%nat with (0 + 1)%nat.
    change (0 + 13 / 3 mod 3)%nat with (0 + 1)%nat.
    change (0 + 13 mod 3)%nat with (0 + 1)%nat.
    rewrite (pad3_item_inner c 1 1 1) by (assumption || lia).
    field. split; [lra|exact Hw].
  - intros t Ht Hne. rewrite lookup_total_map_seq by lia.
    replace (t =? 13)%nat with false
      by (symmetry; apply Nat.eqb_neq; exact Hne).
    unfold Rdiv. ring.
Qed.

(** * The kernel of the one-direction sphere *)

Lemma Rsum_ge_two_items (l : list R) (i j : nat) (x y : R) :
  Forall (fun x => 0 <= x) l -> (i < j)%nat ->
  l !! i = Some x -> l !! j = Some y -> x + y <= Rsum l.
Proof.
  intros Hl. revert i j. induction Hl as [|z l Hz Hl IH]; intros i j Hij Hi Hj.
  - discriminate.
  - destruct j as [|j]; [lia|]. cbn in Hj.
    destruct i as [|i]; cbn in Hi.
    + injection Hi as ->. pose proof (Rsum_ge_item l j y Hl Hj).
      unfold Rsum in *. simpl. lra.
    + assert (Hij' : (i < j)%nat) by lia.
      specialize (IH i j Hij' Hi Hj). unfold Rsum in *. simpl. lra.
Qed.

Lemma demo_weight_towards_x_positive :
  0 < item4 (combined_weights [(1, 0, 0)] 1 1) 2 1 1 0.
Proof.
  rewrite combined_weights_item, d_weights_item, g_weights_item
    by (cbn; lia).
  rewrite dot_vertices_item by (reflexivity || (cbn; lia)).
  rewrite dir_norm_item by lia.
  replace (INR 2) with 2 by (simpl; lra).
  replace (INR 1) with 1 by (simpl; lra).
  replace ((2 - 1) ^ 2 + (1 - 1) ^ 2 + (1 - 1) ^ 2) with 1 by ring.
  rewrite sqrt_1.
  change ([(1, 0, 0)] !!! 0%nat) with (1, 0, 0). cbn [coord].
  replace ((2 - 1) / 1 * 1 + (1 - 1) / 1 * 0 + (1 - 1) / 1 * 0) with 1
    by field.
  destruct (Rlt_dec 0 1) as [_|Hn]; [|lra].
  rewrite Rpower_1 by lra.
  pose proof (exp_pos (- 1 ^ 2 / (2 * 1 ^ 2))). lra.
Qed.

Lemma demo_kernel_centre_below_one :
  0 < dir_slice demo_kernel 0 !!! 13%nat < 1.
Proof.
  assert (Hk : _get_weights [(1, 0, 0)] 1 1 = Ok demo_kernel) by reflexivity.
  assert (Hd : (0 < length [(1, 0, 0)])%nat) by (cbn; lia).
  split; [apply (kernel_slice_centre_pos [(1, 0, 0)] 1 1 _ 0 Hk Hd)|].
  rewrite (kernel_slice_centre [(1, 0, 0)] 1 1 _ 0 Hk Hd).
  pose proof (centred_weights_slice_nonneg [(1, 0, 0)] 1 1 0 Hd) as Hpos.
  pose proof (centred_weights_slice_centre [(1, 0, 0)] 1 1 0 Hd) as H13.
  assert (H22 : dir_slice (centred_weights [(1, 0, 0)] 1 1) 0 !! 22%nat
                = Some (item4 (combined_weights [(1, 0, 0)] 1 1) 2 1 1 0)).
  { rewrite centred_weights_slice by exact Hd. reflexivity. }
  pose proof (Rsum_ge_two_items _ 13 22 _ _ Hpos ltac:(lia) H13 H22) as Hge.
  pose proof demo_weight_towards_x_positive as Hp.
  set (S := Rsum (dir_slice (centred_weights [(1, 0, 0)] 1 1) 0)) in *.
  apply Rmult_lt_reg_r with S; [lra|]. field_simplify; lra.
Qed.

Lemma demo_sample_one_voxel (v : R) (B : ndarray) :
  B = constant_matrix 1 1 1 ->
  item3 (contract_last (one_voxel v) (column B 0)) 0 0 0 = v.
Proof.
  intros ->. unfold contract_last.
  rewrite full3_item by (cbn; lia).
  unfold Rsum, item4, column, item2. cbn. lra.
Qed.

(** C1 (as stated, it fails).  On a field of one voxel with an all-true
    mask, [sigma = 1] and [dot_sharpness = 1], the masked path leaves 1 in
    [mean_sf[0, 0, 0, 0]] (the kernel is renormalised over the only cell
    inside the volume) and the unmasked path leaves the centre weight of the
    kernel, which is below 1. *)
Lemma masked_differs_from_unmasked_on_one_voxel :
  0 < 1 /\ 0 <= 1
  /\ item3 (one_voxel_mask 1) 0 0 0 = 1
  /\ exists hm MSm hu MSu,
       filter_on_sphere demo_get_sphere demo_sh_to_sf_matrix 0%nat 0%nat
         descoteaux07 1 "repulsion724"%string 1 (Some 1%nat)
         [one_voxel 1; one_voxel_mask 1]
       = (Ok 3%nat, hm)
       /\ hm !! 3%nat = Some MSm
       /\ filter_on_sphere demo_get_sphere demo_sh_to_sf_matrix 0%nat 0%nat
            descoteaux07 1 "repulsion724"%string 1 None
            [one_voxel 1; one_voxel_mask 1]
          = (Ok 3%nat, hu)
       /\ hu !! 3%nat = Some MSu
       /\ item4 MSm 0 0 0 0 = 1
       /\ item4 MSu 0 0 0 0 < 1
       /\ item4 MSm 0 0 0 0 <> item4 MSu 0 0 0 0.
Proof.
  split; [lra|]. split; [lra|]. split; [reflexivity|].
  assert (Wa : wf4 (one_voxel 1) 1 1 1 1) by (split; reflexivity).
  assert (Wm : wf3 (one_voxel_mask 1) 1 1 1) by (split; reflexivity).
  assert (Hn : (0 < length (demo_get_sphere "repulsion724"%string))%nat)
    by (cbn; lia).
  destruct (filter_on_sphere_run demo_get_sphere demo_sh_to_sf_matrix
              [one_voxel 1; one_voxel_mask 1] 0%nat (one_voxel 1)
              1 1 1 1 0 descoteaux07 1 1 "repulsion724"%string
              (Some 1%nat) (Some (one_voxel_mask 1))
              eq_refl Wa Hn eq_refl eq_refl (conj eq_refl Wm))
    as (w & hm & MSm & Ew & Em & _ & _ & Hlm & _ & Hvm).
  destruct (filter_on_sphere_run demo_get_sphere demo_sh_to_sf_matrix
              [one_voxel 1; one_voxel_mask 1] 0%nat (one_voxel 1)
              1 1 1 1 0 descoteaux07 1 1 "repulsion724"%string
              None None eq_refl Wa Hn eq_refl eq_refl I)
    as (w' & hu & MSu & Ew' & Eu & _ & _ & Hlu & _ & Hvu).
  assert (w = demo_kernel) as ->
    by (change (_get_weights [(1, 0, 0)] 1 1 = Ok w) in Ew;
        change (_get_weights [(1, 0, 0)] 1 1)
          with (Ok demo_kernel) in Ew; congruence).
  assert (w' = demo_kernel) as ->
    by (change (_get_weights [(1, 0, 0)] 1 1 = Ok w') in Ew';
        change (_get_weights [(1, 0, 0)] 1 1)
          with (Ok demo_kernel) in Ew'; congruence).
  pose proof demo_kernel_centre_below_one as [Hc0 Hc1].
  specialize (Hvm 0%nat 0%nat 0%nat 0%nat Hn ltac:(lia) ltac:(lia) ltac:(lia)).
  specialize (Hvu 0%nat 0%nat 0%nat 0%nat Hn ltac:(lia) ltac:(lia) ltac:(lia)).
  unfold filtered_value in Hvm, Hvu.
  rewrite single_voxel_masked in Hvm;
    [ | apply (wf3_contract_last _ _ 1 1 1 1 Wa)
      | apply (wf3_contract_last _ _ 1 1 1 1 Wa) | exact Wm
      | apply dir_slice_length | unfold item3; cbn; lra | lra ].
  rewrite single_voxel_unmasked in Hvu;
    [ | apply (wf3_contract_last _ _ 1 1 1 1 Wa)
      | apply (wf3_contract_last _ _ 1 1 1 1 Wa) | apply dir_slice_length ].
  rewrite demo_sample_one_voxel in Hvm, Hvu by reflexivity.
  exists hm, MSm, hu, MSu.
  split; [exact Em|]. split; [exact Hlm|]. split; [exact Eu|].
  split; [exact Hlu|]. split; [exact Hvm|]. split; [rewrite Hvu; lra|].
  rewrite Hvm, Hvu. lra.
Qed.

(** * The masked path: what [_apply_naive_correlation] returns *)

(** X1.  Called on three arrays of one 3-dimensional shape and a view of a
    kernel, [_apply_naive_correlation] returns a new array of that shape
    and changes no array of the caller.  The cell of a voxel outside the
    mask is 0; the cell of a voxel in the mask is the sum of its window
    times the masked, renormalised kernel, where the window holds the direct
    sample [curr_dir] at the cells up to the centre in scan order (written
    through [win_arr] when they were visited) and the antipodal sample
    [opposite_dir] at the later cells. *)
Theorem apply_naive_correlation_value (h : heap) (lc lo lm : loc) (w : view)
    (c o m kern : ndarray) (nx ny nz : nat) :
  h !! lc = Some c -> h !! lo = Some o -> h !! lm = Some m ->
  h !! base w = Some kern ->
  wf3 c nx ny nz -> wf3 o nx ny nz -> wf3 m nx ny nz ->
  exists h' out,
    _apply_naive_correlation lc lo w lm h = (Ok (length h), h')
    /\ take (length h) h' = h
    /\ h' !! length h = Some out
    /\ wf3 out nx ny nz
    /\ forall i j k, (i < nx)%nat -> (j < ny)%nat -> (k < nz)%nat ->
         item3 out i j k
         = if Rlt_dec 0 (item3 m i j k)
           then Rsum (mul (scan_window c o i j k)
                          (window_weights (dir_slice kern (dir w))
                                          (window (pad3 m) i j k)))
           else 0.
Proof.
  intros Hc Ho Hm Hw Wc Wo Wm.
  eexists _, _. split.
  - apply (apply_naive_correlation_run h lc lo w lm c o m kern nx ny nz);
      first [assumption | apply Wc | apply Wo | apply Wm].
  - unfold naive_heap. split; [apply take_app_length|].
    split; [apply list_lookup_middle; reflexivity|].
    split; [apply (naive_final_wf c o m _ nx ny nz Wc Wo Wm)|].
    intros i j k Hi Hj Hk.
    rewrite (naive_final_item c o m _ nx ny nz Wc Wo Wm) by assumption.
    reflexivity.
Qed.

Lemma apply_naive_correlation_value_witness :
  [one_voxel_sample 2; one_voxel_sample 3; one_voxel_mask 1; demo_kernel]
    !! 0%nat = Some (one_voxel_sample 2)
  /\ wf3 (one_voxel_sample 2) 1 1 1
  /\ exists h' out,
       _apply_naive_correlation 0%nat 1%nat (View 3 0) 2%nat
         [one_voxel_sample 2; one_voxel_sample 3; one_voxel_mask 1; demo_kernel]
       = (Ok (length [one_voxel_sample 2; one_voxel_sample 3; one_voxel_mask 1;
                      demo_kernel]), h')
       /\ take (length [one_voxel_sample 2; one_voxel_sample 3;
                        one_voxel_mask 1; demo_kernel]) h'
          = [one_voxel_sample 2; one_voxel_sample 3; one_voxel_mask 1;
             demo_kernel]
       /\ h' !! length [one_voxel_sample 2; one_voxel_sample 3;
                        one_voxel_mask 1; demo_kernel] = Some out
       /\ wf3 out 1 1 1
       /\ forall i j k, (i < 1)%nat -> (j < 1)%nat -> (k < 1)%nat ->
            item3 out i j k
            = if Rlt_dec 0 (item3 (one_voxel_mask 1) i j k)
              then Rsum (mul (scan_window (one_voxel_sample 2)
                                          (one_voxel_sample 3) i j k)
                             (window_weights
                                (dir_slice demo_kernel (dir (View 3 0)))
                                (window (pad3 (one_voxel_mask 1)) i j k)))
              else 0.
Proof.
  split; [reflexivity|]. split; [split; reflexivity|].
  apply (apply_naive_correlation_value
           [one_voxel_sample 2; one_voxel_sample 3; one_voxel_mask 1; demo_kernel]
           0%nat 1%nat 2%nat (View 3 0) (one_voxel_sample 2) (one_voxel_sample 3)
           (one_voxel_mask 1) demo_kernel 1 1 1);
    first [reflexivity | split; reflexivity].
Defined.

(** A cell outside the mask window support has weight 0. *)
Lemma window_weights_zero wv win t :
  length wv = 27%nat -> length win = 27%nat -> (t < 27)%nat ->
  win !!! t = 0 -> window_weights wv win !!! t = 0.
Proof.
  intros Hl Hw Ht Hz. unfold window_weights.
  assert (Hcw : mul wv win !!! t = 0)
    by (rewrite mul_lookup_total by lia; rewrite Hz; lra).
  destruct (np_any (mul wv win)); [|exact Hcw].
  apply list_lookup_total_correct.
  change (map ?g ?l) with (g <$> l). rewrite list_lookup_fmap.
  rewrite (list_lookup_lookup_total_lt (mul wv win) t)
    by (rewrite mul_length; lia).
  rewrite Hcw. cbn. f_equal. unfold Rdiv. ring.
Qed.

Lemma window_weights_length wv win :
  length wv = 27%nat -> length win = 27%nat ->
  length (window_weights wv win) = 27%nat.
Proof.
  intros Hl Hw. unfold window_weights.
  destruct (np_any _); rewrite ?length_map; rewrite mul_length; lia.
Qed.

(** The cell of the window at position [t] and the voxel it shows. *)
Lemma window_cell_cases i j k t :
  (t < 27)%nat ->
  (1 <= i + t / 9)%nat -> (1 <= j + t / 3 mod 3)%nat ->
  (1 <= k + t mod 3)%nat ->
  let i' := (i + t / 9 - 1)%nat in
  let j' := (j + t / 3 mod 3 - 1)%nat in
  let k' := (k + t mod 3 - 1)%nat in
  (i - 1 <= i' <= i + 1)%nat /\ (j - 1 <= j' <= j + 1)%nat
  /\ (k - 1 <= k' <= k + 1)%nat
  /\ ((t < 13)%nat -> scanned_before i j k i' j' k')
  /\ (t = 13%nat -> (i', j', k') = (i, j, k))
  /\ ((13 < t)%nat -> scanned_before i' j' k' i j k).
Proof.
  intros Ht Hx Hy Hz i' j' k'.
  destruct (offset_decomp t Ht) as (Et & Ha & Hb & Hc).
  unfold scanned_before. subst i' j' k'.
  repeat split; try lia.
  intros ->. change (13 / 9)%nat with 1%nat.
  change (13 / 3 mod 3)%nat with 1%nat. change (13 mod 3)%nat with 1%nat.
  f_equal; [f_equal|]; lia.
Qed.

(** The masked value of a voxel depends on the samples only through the
    cells of its window where the mask is not 0: on [curr_dir] at the voxel
    and at the neighbours visited before it, and on [opposite_dir] at the
    neighbours visited after it. *)
Lemma naive_value_depends c o c' o' m wv nx ny nz i j k :
  wf3 c nx ny nz -> wf3 o nx ny nz -> wf3 c' nx ny nz -> wf3 o' nx ny nz ->
  wf3 m nx ny nz -> length wv = 27%nat ->
  (i < nx)%nat -> (j < ny)%nat -> (k < nz)%nat ->
  (forall i' j' k',
     (i' < nx)%nat -> (j' < ny)%nat -> (k' < nz)%nat ->
     (i - 1 <= i' <= i + 1)%nat -> (j - 1 <= j' <= j + 1)%nat ->
     (k - 1 <= k' <= k + 1)%nat ->
     item3 m i' j' k' <> 0 ->
     ((i', j', k') = (i, j, k) \/ scanned_before i j k i' j' k' ->
      item3 c i' j' k' = item3 c' i' j' k')
     /\ (scanned_before i' j' k' i j k ->
         item3 o i' j' k' = item3 o' i' j' k')) ->
  naive_value c o m wv i j k = naive_value c' o' m wv i j k.
Proof.
  intros Wc Wo Wc' Wo' Wm Hl Hi Hj Hk Hdep. unfold naive_value.
  destruct (Rlt_dec 0 (item3 m i j k)); [|reflexivity].
  set (ww := window_weights wv (window (pad3 m) i j k)).
  assert (Hww : length ww = 27%nat)
    by (apply window_weights_length; [exact Hl|apply window_length]).
  unfold scan_window. rewrite !mul_map_seq by exact Hww.
  apply Rsum_map_ext. intros t Ht. apply in_seq in Ht.
  destruct (offset_decomp t) as (Et & Ha & Hb & Hc); [lia|].
  destruct (Req_dec_T (window (pad3 m) i j k !!! t) 0) as [Hz|Hnz].
  { unfold ww. rewrite window_weights_zero
      by (first [exact Hl | apply window_length | lia | exact Hz]).
    lra. }
  f_equal. rewrite window_item in Hnz by lia.
  destruct (decide (1 <= i + t / 9 <= nx /\ 1 <= j + t / 3 mod 3 <= ny
                    /\ 1 <= k + t mod 3 <= nz)%nat) as [Hin|Hout].
  2:{ exfalso. apply Hnz. apply (pad3_border m nx ny nz);
        (assumption || lia). }
  destruct (window_cell_cases i j k t) as (Bi & Bj & Bk & Hlt & Heq & Hgt);
    try lia.
  revert Hnz.
  replace (i + t / 9)%nat with (i + t / 9 - 1 + 1)%nat by lia.
  replace (j + t / 3 mod 3)%nat with (j + t / 3 mod 3 - 1 + 1)%nat by lia.
  replace (k + t mod 3)%nat with (k + t mod 3 - 1 + 1)%nat by lia.
  rewrite (pad3_item_inner m nx ny nz) by (assumption || lia).
  rewrite (pad3_item_inner c nx ny nz), (pad3_item_inner c' nx ny nz),
    (pad3_item_inner o nx ny nz), (pad3_item_inner o' nx ny nz)
    by (assumption || lia).
  intros Hnz.
  assert (Hi' : (i + t / 9 - 1 < nx)%nat) by lia.
  assert (Hj' : (j + t / 3 mod 3 - 1 < ny)%nat) by lia.
  assert (Hk' : (k + t mod 3 - 1 < nz)%nat) by lia.
  destruct (Hdep _ _ _ Hi' Hj' Hk' Bi Bj Bk Hnz) as [Hcc Hoo].
  destruct (Nat.leb_spec t 13) as [Hle|Hgt13].
  - apply Hcc. destruct (decide (t = 13%nat)) as [E|E].
    + left. apply Heq. exact E.
    + right. apply Hlt. lia.
  - apply Hoo. apply Hgt. lia.
Qed.

(** X2.  The value that the masked path leaves at a voxel depends on the
    samples only through the cells of its 3x3x3 window where the mask is not
    0: on [curr_dir] at the voxel and at the neighbours visited before it,
    and on [opposite_dir] at the neighbours visited after it.  It depends
    neither on [opposite_dir] at the voxel or at a visited neighbour, nor on
    any sample outside the mask or outside the window. *)
Theorem masked_value_dependence (h : heap) (lc lo lc' lo' lm : loc)
    (w : view) (c o c' o' m kern : ndarray) (nx ny nz i j k : nat) :
  h !! lc = Some c -> h !! lo = Some o ->
  h !! lc' = Some c' -> h !! lo' = Some o' ->
  h !! lm = Some m -> h !! base w = Some kern ->
  wf3 c nx ny nz -> wf3 o nx ny nz -> wf3 c' nx ny nz -> wf3 o' nx ny nz ->
  wf3 m nx ny nz ->
  (i < nx)%nat -> (j < ny)%nat -> (k < nz)%nat ->
  (forall i' j' k',
     (i' < nx)%nat -> (j' < ny)%nat -> (k' < nz)%nat ->
     (i - 1 <= i' <= i + 1)%nat -> (j - 1 <= j' <= j + 1)%nat ->
     (k - 1 <= k' <= k + 1)%nat ->
     item3 m i' j' k' <> 0 ->
     ((i', j', k') = (i, j, k) \/ scanned_before i j k i' j' k' ->
      item3 c i' j' k' = item3 c' i' j' k')
     /\ (scanned_before i' j' k' i j k ->
         item3 o i' j' k' = item3 o' i' j' k')) ->
  exists h1 out1 h2 out2,
    _apply_naive_correlation lc lo w lm h = (Ok (length h), h1)
    /\ h1 !! length h = Some out1
    /\ _apply_naive_correlation lc' lo' w lm h = (Ok (length h), h2)
    /\ h2 !! length h = Some out2
    /\ item3 out1 i j k = item3 out2 i j k.
Proof.
  intros Hc Ho Hc' Ho' Hm Hw Wc Wo Wc' Wo' Wm Hi Hj Hk Hdep.
  eexists _, _, _, _.
  split; [apply (apply_naive_correlation_run h lc lo w lm c o m kern
                   nx ny nz); first [assumption | apply Wc | apply Wo
                                    | apply Wm]|].
  split; [apply list_lookup_middle; reflexivity|].
  split; [apply (apply_naive_correlation_run h lc' lo' w lm c' o' m kern
                   nx ny nz); first [assumption | apply Wc' | apply Wo'
                                    | apply Wm]|].
  split; [apply list_lookup_middle; reflexivity|].
  rewrite (naive_final_item c o m _ nx ny nz Wc Wo Wm) by assumption.
  rewrite (naive_final_item c' o' m _ nx ny nz Wc' Wo' Wm) by assumption.
  apply (naive_value_depends c o c' o' m _ nx ny nz); try assumption.
  apply dir_slice_length.
Qed.

Lemma masked_value_dependence_witness :
  [one_voxel_sample 2; one_voxel_sample 3; one_voxel_sample 7;
   one_voxel_mask 1; demo_kernel] !! 0%nat = Some (one_voxel_sample 2)
  /\ wf3 (one_voxel_sample 2) 1 1 1
  /\ exists h1 out1 h2 out2,
       _apply_naive_correlation 0%nat 1%nat (View 4 0) 3%nat
         [one_voxel_sample 2; one_voxel_sample 3; one_voxel_sample 7;
          one_voxel_mask 1; demo_kernel]
       = (Ok (length [one_voxel_sample 2; one_voxel_sample 3;
                      one_voxel_sample 7; one_voxel_mask 1; demo_kernel]),
          h1)
       /\ h1 !! length [one_voxel_sample 2; one_voxel_sample 3;
                        one_voxel_sample 7; one_voxel_mask 1; demo_kernel]
          = Some out1
       /\ _apply_naive_correlation 0%nat 2%nat (View 4 0) 3%nat
            [one_voxel_sample 2; one_voxel_sample 3; one_voxel_sample 7;
             one_voxel_mask 1; demo_kernel]
          = (Ok (length [one_voxel_sample 2; one_voxel_sample 3;
                         one_voxel_sample 7; one_voxel_mask 1; demo_kernel]),
             h2)
       /\ h2 !! length [one_voxel_sample 2; one_voxel_sample 3;
                        one_voxel_sample 7; one_voxel_mask 1; demo_kernel]
          = Some out2
       /\ item3 out1 0 0 0 = item3 out2 0 0 0.
Proof.
  split; [reflexivity|]. split; [split; reflexivity|].
  apply (masked_value_dependence
           [one_voxel_sample 2; one_voxel_sample 3; one_voxel_sample 7;
            one_voxel_mask 1; demo_kernel]
           0%nat 1%nat 0%nat 2%nat 3%nat (View 4 0)
           (one_voxel_sample 2) (one_voxel_sample 3)
           (one_voxel_sample 2) (one_voxel_sample 7)
           (one_voxel_mask 1) demo_kernel 1 1 1 0 0 0);
    [ reflexivity | reflexivity | reflexivity | reflexivity | reflexivity
    | reflexivity | split; reflexivity | split; reflexivity
    | split; reflexivity | split; reflexivity | split; reflexivity
    | lia | lia | lia | ].
  intros i' j' k' Hi Hj Hk _ _ _ _. split.
  - intros _. reflexivity.
  - unfold scanned_before. lia.
Defined.

(** * No overshoot: the filtered values stay within the range of the samples *)

Lemma Rsum_map_le {A} (f g : A -> R) (l : list A) :
  (forall a, In a l -> f a <= g a) -> Rsum (map f l) <= Rsum (map g l).
Proof.
  induction l as [|a l IH]; intros H; unfold Rsum in *; simpl; [lra|].
  pose proof (H a (or_introl eq_refl)).
  assert (forall a0, In a0 l -> f a0 <= g a0) as H' by (intros; apply H; right; assumption).
  specialize (IH H'). lra.
Qed.

Lemma Rsum_map_scal {A} (x : R) (f : A -> R) (l : list A) :
  Rsum (map (fun a => x * f a) l) = x * Rsum (map f l).
Proof. induction l as [|a l IH]; unfold Rsum in *; simpl; [|rewrite IH]; lra. Qed.

Lemma Rsum_lookup_seq (l : list R) (n : nat) :
  length l = n -> Rsum (map (fun t => l !!! t) (seq 0 n)) = Rsum l.
Proof. intros Hl. rewrite (map_lookup_total_seq l n Hl). reflexivity. Qed.

Lemma Forall_lookup_total_nonneg (l : list R) (t : nat) :
  Forall (fun x => 0 <= x) l -> (t < length l)%nat -> 0 <= l !!! t.
Proof.
  intros Hl Ht. rewrite Forall_forall in Hl. apply Hl.
  apply list_elem_of_lookup. exists t.
  apply list_lookup_lookup_total_lt. exact Ht.
Qed.

(** A weighted sum with non-negative weights of sum 1 lies between the
    bounds of the terms that have a non-zero weight. *)
Lemma weighted_sum_bounds (val : nat -> R) (ww : list R) (lo hi : R) :
  length ww = 27%nat -> Forall (fun x => 0 <= x) ww -> Rsum ww = 1 ->
  (forall t, (t < 27)%nat -> ww !!! t <> 0 -> lo <= val t <= hi) ->
  lo <= Rsum (map (fun t => val t * ww !!! t) (seq 0 27)) <= hi.
Proof.
  intros Hl Hpos Hs Hval.
  assert (Hlo : Rsum (map (fun t => lo * ww !!! t) (seq 0 27))
                <= Rsum (map (fun t => val t * ww !!! t) (seq 0 27))).
  { apply Rsum_map_le. intros t Ht. apply in_seq in Ht.
    pose proof (Forall_lookup_total_nonneg ww t Hpos ltac:(lia)) as Hw.
    destruct (Req_dec_T (ww !!! t) 0) as [E|E]; [rewrite E; lra|].
    destruct (Hval t ltac:(lia) E). apply Rmult_le_compat_r; lra. }
  assert (Hhi : Rsum (map (fun t => val t * ww !!! t) (seq 0 27))
                <= Rsum (map (fun t => hi * ww !!! t) (seq 0 27))).
  { apply Rsum_map_le. intros t Ht. apply in_seq in Ht.
    pose proof (Forall_lookup_total_nonneg ww t Hpos ltac:(lia)) as Hw.
    destruct (Req_dec_T (ww !!! t) 0) as [E|E]; [rewrite E; lra|].
    destruct (Hval t ltac:(lia) E). apply Rmult_le_compat_r; lra. }
  rewrite !Rsum_map_scal, (Rsum_lookup_seq ww 27 Hl), Hs in Hlo, Hhi.
  lra.
Qed.

(** The masked weights of a window with a valid centre are non-negative and
    sum to 1. *)
Lemma window_weights_normalised wv win :
  length wv = 27%nat -> length win = 27%nat ->
  Forall (fun x => 0 <= x) wv -> Forall (fun x => 0 <= x) win ->
  0 < wv !!! 13%nat -> 0 < win !!! 13%nat ->
  Forall (fun x => 0 <= x) (window_weights wv win)
  /\ Rsum (window_weights wv win) = 1.
Proof.
  intros Hl Hw Hpos Hwpos Hc Hm.
  assert (Hcw : Forall (fun x => 0 <= x) (mul wv win))
    by (apply mul_nonneg; assumption).
  assert (Hlen : length (mul wv win) = 27%nat)
    by (rewrite mul_length; lia).
  assert (H13 : 0 < mul wv win !!! 13%nat).
  { rewrite mul_lookup_total by lia. apply Rmult_lt_0_compat; assumption. }
  assert (Hs : 0 < Rsum (mul wv win)).
  { apply Rlt_le_trans with (mul wv win !!! 13%nat); [exact H13|].
    apply (Rsum_ge_item _ 13 _ Hcw).
    apply list_lookup_lookup_total_lt. lia. }
  unfold window_weights.
  rewrite (np_any_true (mul wv win) 13) by (lia || lra).
  split.
  - apply Forall_forall. intros x Hx.
    apply list_elem_of_In, in_map_iff in Hx. destruct Hx as (y & <- & Hy).
    apply list_elem_of_In in Hy. rewrite Forall_forall in Hcw.
    specialize (Hcw y Hy). apply Rmult_le_pos; [lra|].
    left. apply Rinv_0_lt_compat. exact Hs.
  - rewrite Rsum_map_div. field. lra.
Qed.

Lemma naive_value_bounds c o m wv nx ny nz i j k lo hi :
  wf3 c nx ny nz -> wf3 o nx ny nz -> wf3 m nx ny nz ->
  length wv = 27%nat -> Forall (fun x => 0 <= x) wv -> 0 < wv !!! 13%nat ->
  (forall i' j' k', (i' < nx)%nat -> (j' < ny)%nat -> (k' < nz)%nat ->
     0 <= item3 m i' j' k') ->
  (i < nx)%nat -> (j < ny)%nat -> (k < nz)%nat ->
  0 < item3 m i j k ->
  (forall i' j' k',
     (i' < nx)%nat -> (j' < ny)%nat -> (k' < nz)%nat ->
     (i - 1 <= i' <= i + 1)%nat -> (j - 1 <= j' <= j + 1)%nat ->
     (k - 1 <= k' <= k + 1)%nat ->
     0 < item3 m i' j' k' ->
     lo <= item3 c i' j' k' <= hi /\ lo <= item3 o i' j' k' <= hi) ->
  lo <= naive_value c o m wv i j k <= hi.
Proof.
  intros Wc Wo Wm Hl Hpos Hc Hmpos Hi Hj Hk Hm Hrange.
  unfold naive_value.
  destruct (Rlt_dec 0 (item3 m i j k)) as [_|Hn]; [|contradiction].
  set (win := window (pad3 m) i j k).
  assert (Hwin : win !!! 13%nat = item3 m i j k).
  { unfold win. rewrite window_centre.
    apply (pad3_item_inner m nx ny nz); assumption. }
  destruct (window_weights_normalised wv win) as [Hwwpos Hwws];
    try assumption.
  { apply window_length. }
  { apply (window_nonneg m nx ny nz); assumption. }
  { rewrite Hwin. exact Hm. }
  set (ww := window_weights wv win) in *.
  assert (Hww : length ww = 27%nat)
    by (apply window_weights_length; [exact Hl|apply window_length]).
  unfold scan_window. rewrite mul_map_seq by exact Hww.
  apply (weighted_sum_bounds _ ww lo hi Hww Hwwpos Hwws).
  intros t Ht Hnz.
  assert (Hmt : win !!! t <> 0).
  { intros E. apply Hnz. unfold ww.
    apply window_weights_zero; first [exact Hl | apply window_length
                                     | lia | exact E]. }
  unfold win in Hmt. rewrite window_item in Hmt by lia.
  destruct (offset_decomp t Ht) as (Et & Ha & Hb & Hcc).
  destruct (decide (1 <= i + t / 9 <= nx /\ 1 <= j + t / 3 mod 3 <= ny
                    /\ 1 <= k + t mod 3 <= nz)%nat) as [Hin|Hout].
  2:{ exfalso. apply Hmt. apply (pad3_border m nx ny nz);
        (assumption || lia). }
  revert Hmt.
  replace (i + t / 9)%nat with (i + t / 9 - 1 + 1)%nat by lia.
  replace (j + t / 3 mod 3)%nat with (j + t / 3 mod 3 - 1 + 1)%nat by lia.
  replace (k + t mod 3)%nat with (k + t mod 3 - 1 + 1)%nat by lia.
  rewrite (pad3_item_inner m nx ny nz), (pad3_item_inner c nx ny nz),
    (pad3_item_inner o nx ny nz) by (assumption || lia).
  intros Hmt.
  assert (Hi' : (i + t / 9 - 1 < nx)%nat) by lia.
  assert (Hj' : (j + t / 3 mod 3 - 1 < ny)%nat) by lia.
  assert (Hk' : (k + t mod 3 - 1 < nz)%nat) by lia.
  pose proof (Hmpos _ _ _ Hi' Hj' Hk') as Hm0.
  destruct (Hrange _ _ _ Hi' Hj' Hk' ltac:(lia) ltac:(lia) ltac:(lia)
              ltac:(lra)) as [Hcr Hor].
  destruct (t <=? 13)%nat; assumption.
Qed.

Lemma unmasked_value_bounds c o wv nx ny nz i j k lo hi :
  wf3 c nx ny nz -> wf3 o nx ny nz ->
  length wv = 27%nat -> Forall (fun x => 0 <= x) wv -> Rsum wv = 1 ->
  (i < nx)%nat -> (j < ny)%nat -> (k < nz)%nat ->
  lo <= 0 <= hi ->
  lo <= item3 c i j k <= hi ->
  (forall i' j' k',
     (i' < nx)%nat -> (j' < ny)%nat -> (k' < nz)%nat ->
     (i - 1 <= i' <= i + 1)%nat -> (j - 1 <= j' <= j + 1)%nat ->
     (k - 1 <= k' <= k + 1)%nat ->
     lo <= item3 o i' j' k' <= hi) ->
  lo <= unmasked_value c o wv i j k <= hi.
Proof.
  intros Wc Wo Hl Hpos Hs Hi Hj Hk H0 Hc Ho.
  unfold unmasked_value, window.
  rewrite mul_map_seq by (rewrite length_insert; exact Hl).
  set (val := fun t => if (t =? 13)%nat then item3 c i j k
                       else item3 (pad3 o) (i + t / 9) (j + t / 3 mod 3)
                                  (k + t mod 3)).
  assert (E : wv !!! 13%nat * item3 c i j k
              + Rsum (map (fun t => item3 (pad3 o) (i + t / 9)
                                      (j + t / 3 mod 3) (k + t mod 3)
                                    * <[13%nat := 0]> wv !!! t) (seq 0 27))
              = Rsum (map (fun t => val t * wv !!! t) (seq 0 27))).
  { rewrite (Rsum_differ_at (fun t => val t * wv !!! t)
               (fun t => item3 (pad3 o) (i + t / 9) (j + t / 3 mod 3)
                           (k + t mod 3) * <[13%nat := 0]> wv !!! t) 27 13).
    - rewrite lookup_total_insert_13 by (assumption || lia).
      unfold val. change (13 =? 13)%nat with true. cbv beta iota. lra.
    - lia.
    - intros t Ht Hne. unfold val.
      rewrite lookup_total_insert_13 by (assumption || lia).
      replace (t =? 13)%nat with false
        by (symmetry; apply Nat.eqb_neq; exact Hne).
      reflexivity. }
  rewrite E.
  apply (weighted_sum_bounds val wv lo hi Hl Hpos Hs).
  intros t Ht _. unfold val.
  destruct (Nat.eqb_spec t 13) as [_|Hne]; [exact Hc|].
  destruct (offset_decomp t Ht) as (Et & Ha & Hb & Hcc).
  destruct (decide (1 <= i + t / 9 <= nx /\ 1 <= j + t / 3 mod 3 <= ny
                    /\ 1 <= k + t mod 3 <= nz)%nat) as [Hin|Hout].
  - replace (i + t / 9)%nat with (i + t / 9 - 1 + 1)%nat by lia.
    replace (j + t / 3 mod 3)%nat with (j + t / 3 mod 3 - 1 + 1)%nat by lia.
    replace (k + t mod 3)%nat with (k + t mod 3 - 1 + 1)%nat by lia.
    rewrite (pad3_item_inner o nx ny nz) by (assumption || lia).
    apply Ho; lia.
  - rewrite (pad3_border o nx ny nz) by (assumption || lia). exact H0.
Qed.

(** X3.  The masked path does not overshoot.  With a kernel computed by
    [_get_weights] and a mask without negative entries, the value that
    [_apply_naive_correlation] leaves at a voxel of the mask lies between
    any two bounds of the direct and antipodal samples at the cells of its
    window that are in the mask: the renormalised weights are non-negative
    and sum to 1, and cells outside the mask or the volume have weight 0. *)
Theorem masked_value_within_sample_range (h : heap) (lc lo lm : loc)
    (w : view) (c o m kern : ndarray) (sphere : Sphere)
    (dot_sharpness sigma : R) (nx ny nz i j k : nat) (lower upper : R) :
  h !! lc = Some c -> h !! lo = Some o -> h !! lm = Some m ->
  h !! base w = Some kern ->
  _get_weights sphere dot_sharpness sigma = Ok kern ->
  (dir w < length sphere)%nat ->
  wf3 c nx ny nz -> wf3 o nx ny nz -> wf3 m nx ny nz ->
  (forall i' j' k', (i' < nx)%nat -> (j' < ny)%nat -> (k' < nz)%nat ->
     0 <= item3 m i' j' k') ->
  (i < nx)%nat -> (j < ny)%nat -> (k < nz)%nat ->
  0 < item3 m i j k ->
  (forall i' j' k',
     (i' < nx)%nat -> (j' < ny)%nat -> (k' < nz)%nat ->
     (i - 1 <= i' <= i + 1)%nat -> (j - 1 <= j' <= j + 1)%nat ->
     (k - 1 <= k' <= k + 1)%nat ->
     0 < item3 m i' j' k' ->
     lower <= item3 c i' j' k' <= upper
     /\ lower <= item3 o i' j' k' <= upper) ->
  exists h' out,
    _apply_naive_correlation lc lo w lm h = (Ok (length h), h')
    /\ h' !! length h = Some out
    /\ lower <= item3 out i j k <= upper.
Proof.
  intros Hc Ho Hm Hw Hk Hd Wc Wo Wm Hmpos Hi Hj Hkk Hin Hrange.
  eexists _, _.
  split; [apply (apply_naive_correlation_run h lc lo w lm c o m kern
                   nx ny nz); first [assumption | apply Wc | apply Wo
                                    | apply Wm]|].
  split; [apply list_lookup_middle; reflexivity|].
  rewrite (naive_final_item c o m _ nx ny nz Wc Wo Wm) by assumption.
  apply (naive_value_bounds c o m _ nx ny nz); try assumption.
  - apply dir_slice_length.
  - apply (kernel_slice_nonneg sphere dot_sharpness sigma); assumption.
  - apply (kernel_slice_centre_pos sphere dot_sharpness sigma); assumption.
Qed.

Lemma masked_value_within_sample_range_witness :
  _get_weights (demo_get_sphere EmptyString) 1 1 = Ok demo_kernel
  /\ 0 < item3 (one_voxel_mask 1) 0 0 0
  /\ exists h' out,
       _apply_naive_correlation 0%nat 1%nat (View 3 0) 2%nat
         [one_voxel_sample 2; one_voxel_sample 3; one_voxel_mask 1; demo_kernel]
       = (Ok (length [one_voxel_sample 2; one_voxel_sample 3;
                      one_voxel_mask 1; demo_kernel]), h')
       /\ h' !! length [one_voxel_sample 2; one_voxel_sample 3;
                        one_voxel_mask 1; demo_kernel] = Some out
       /\ 2 <= item3 out 0 0 0 <= 3.
Proof.
  assert (Hk : _get_weights (demo_get_sphere EmptyString) 1 1
               = Ok demo_kernel) by reflexivity.
  assert (Hm : 0 < item3 (one_voxel_mask 1) 0 0 0)
    by (unfold item3; cbn; lra).
  split; [exact Hk|]. split; [exact Hm|].
  apply (masked_value_within_sample_range
           [one_voxel_sample 2; one_voxel_sample 3; one_voxel_mask 1; demo_kernel]
           0%nat 1%nat 2%nat (View 3 0) (one_voxel_sample 2)
           (one_voxel_sample 3) (one_voxel_mask 1) demo_kernel
           (demo_get_sphere EmptyString) 1 1 1 1 1 0 0 0 2 3);
    [ reflexivity | reflexivity | reflexivity | reflexivity | exact Hk
    | exact (Nat.lt_0_succ 0) | split; reflexivity | split; reflexivity
    | split; reflexivity | | lia | lia | lia | exact Hm | ].
  - intros [|i'] [|j'] [|k'] Hi Hj Hk'; try lia. unfold item3. cbn. lra.
  - intros [|i'] [|j'] [|k'] Hi Hj Hk' _ _ _ _; try lia.
    unfold item3. cbn. lra.
Defined.

(** X4.  The unmasked path does not overshoot either, as long as 0 lies
    between the bounds: [mean_sf[i, j, k, d]] is a sum with the non-negative
    kernel weights (of sum 1) of the direct sample of the voxel, of the
    antipodal samples of its neighbours in the volume, and of the zeros
    that [correlate(..., mode='constant')] reads outside the volume. *)
Theorem unmasked_value_within_sample_range
    (get_sphere : string -> Sphere)
    (sh_to_sf_matrix : Sphere -> nat -> basis -> bool -> ndarray * ndarray)
    (in_sh : loc) (sh_order : nat) (sh_basis : basis)
    (dot_sharpness : R) (sphere_str : string) (sigma : R)
    (h : heap) (a : ndarray) (nx ny nz nc d i j k : nat) (lower upper : R) :
  let sphere := get_sphere sphere_str in
  let in_full_basis := (nc =? (sh_order + 1) ^ 2)%nat in
  let B := fst (sh_to_sf_matrix sphere sh_order sh_basis in_full_basis) in
  let negB := fst (sh_to_sf_matrix (neg_sphere sphere) sh_order sh_basis
                     in_full_basis) in
  let curr_dir_eval := contract_last a (column B d) in
  let opposite_dir_eval := contract_last a (column negB d) in
  h !! in_sh = Some a -> wf4 a nx ny nz nc ->
  dim B 0 = nc -> dim negB 0 = nc ->
  (d < length sphere)%nat ->
  (i < nx)%nat -> (j < ny)%nat -> (k < nz)%nat ->
  lower <= 0 <= upper ->
  lower <= item3 curr_dir_eval i j k <= upper ->
  (forall i' j' k',
     (i' < nx)%nat -> (j' < ny)%nat -> (k' < nz)%nat ->
     (i - 1 <= i' <= i + 1)%nat -> (j - 1 <= j' <= j + 1)%nat ->
     (k - 1 <= k' <= k + 1)%nat ->
     lower <= item3 opposite_dir_eval i' j' k' <= upper) ->
  exists l h' mean_sf,
    filter_on_sphere get_sphere sh_to_sf_matrix in_sh sh_order sh_basis
      dot_sharpness sphere_str sigma None h = (Ok l, h')
    /\ h' !! l = Some mean_sf
    /\ lower <= item4 mean_sf i j k d <= upper.
Proof.
  intros sphere in_full_basis B negB cde ode Ha Wa HB HnegB Hd Hi Hj Hk
    H0 Hc Ho.
  assert (Hn : (0 < length (get_sphere sphere_str))%nat)
    by (unfold sphere in Hd; lia).
  destruct (filter_on_sphere_run get_sphere sh_to_sf_matrix h in_sh a
              nx ny nz nc sh_order sh_basis dot_sharpness sigma sphere_str
              None None Ha Wa Hn HB HnegB I)
    as (w & h' & MS & Ew & E & _ & _ & Hms & _ & Hval).
  exists (length h + 1)%nat, h', MS.
  split; [exact E|]. split; [exact Hms|].
  rewrite (Hval d i j k Hd Hi Hj Hk).
  unfold filtered_value.
  apply (unmasked_value_bounds _ _ _ nx ny nz); try assumption.
  - apply (wf3_contract_last a _ nx ny nz nc Wa).
  - apply (wf3_contract_last a _ nx ny nz nc Wa).
  - apply dir_slice_length.
  - apply (kernel_slice_nonneg sphere dot_sharpness sigma); assumption.
  - apply (kernel_slice_sum sphere dot_sharpness sigma); assumption.
Qed.

Lemma unmasked_value_within_sample_range_witness :
  wf4 (one_voxel 5) 1 1 1 1
  /\ 0 <= 0 <= 5
  /\ exists l h' mean_sf,
       filter_on_sphere demo_get_sphere demo_sh_to_sf_matrix 0%nat 0%nat
         descoteaux07 1 "repulsion724"%string 1 None [one_voxel 5]
       = (Ok l, h')
       /\ h' !! l = Some mean_sf
       /\ 0 <= item4 mean_sf 0 0 0 0 <= 5.
Proof.
  assert (Wa : wf4 (one_voxel 5) 1 1 1 1) by (split; reflexivity).
  assert (Hs : forall B, B = constant_matrix 1 1 1 ->
                 0 <= item3 (contract_last (one_voxel 5) (column B 0)) 0 0 0
                 <= 5).
  { intros B HB. rewrite (demo_sample_one_voxel 5 B HB). lra. }
  split; [exact Wa|]. split; [lra|].
  apply (unmasked_value_within_sample_range demo_get_sphere
           demo_sh_to_sf_matrix 0%nat 0%nat descoteaux07 1
           "repulsion724"%string 1 [one_voxel 5] (one_voxel 5)
           1 1 1 1 0 0 0 0 0 5 eq_refl Wa eq_refl eq_refl
           (Nat.lt_0_succ 0) (Nat.lt_0_succ 0) (Nat.lt_0_succ 0)
           (Nat.lt_0_succ 0)).
  - lra.
  - apply Hs. reflexivity.
  - intros [|i'] [|j'] [|k'] Hi Hj Hk _ _ _; try lia.
    apply Hs. reflexivity.
Defined.

(** The stack of at least one reconstructed plane has the shape
    [(X, Y, Z, C_out)] and the requested dtype. *)
Lemma stacked_planes_shape ms Binv dt nx ny nz n :
  wf4 ms nx ny nz n -> (0 < nx)%nat ->
  shape (np_array (map (reconstructed ms Binv) (seq 0 nx)) dt)
  = [nx; ny; nz; dim Binv 1]
  /\ dtype_of (np_array (map (reconstructed ms Binv) (seq 0 nx)) dt) = dt.
Proof.
  intros W Hx.
  destruct (wf4_dims _ _ _ _ _ W) as (D0 & D1 & D2 & D3).
  destruct nx as [|nx']; [lia|]. cbn [seq map np_array].
  split; [|reflexivity].
  cbn [shape length]. rewrite length_map, length_seq.
  unfold reconstructed, full3. cbn [shape]. rewrite D1, D2. reflexivity.
Qed.

(** X5.  The filter from end to end.  For a well-shaped input with at least
    one plane, matrices whose row counts match and a sphere with at least
    one direction, [local_asym_gaussian_filtering] returns a new array of
    shape [(X, Y, Z, C_out)] in the dtype of the input, and its coefficient
    [c] at a voxel is the projection by [B_inv] of the filtered samples of
    the voxel over the directions of the sphere, for the kernel that
    [_get_weights] returns. *)
Theorem filter_output_is_projection_of_filtered_samples
    (get_sphere : string -> Sphere)
    (sh_to_sf_matrix : Sphere -> nat -> basis -> bool -> ndarray * ndarray)
    (in_sh : loc) (sh_order : nat) (sh_basis : basis) (out_full_basis : bool)
    (dot_sharpness : R) (sphere_str : string) (sigma : R)
    (mask : option loc) (mv : option ndarray)
    (h : heap) (a : ndarray) (nx ny nz nc : nat) :
  let sphere := get_sphere sphere_str in
  let in_full_basis := (nc =? (sh_order + 1) ^ 2)%nat in
  let B := fst (sh_to_sf_matrix sphere sh_order sh_basis in_full_basis) in
  let negB := fst (sh_to_sf_matrix (neg_sphere sphere) sh_order sh_basis
                     in_full_basis) in
  let Binv := snd (sh_to_sf_matrix sphere sh_order sh_basis out_full_basis) in
  h !! in_sh = Some a -> wf4 a nx ny nz nc ->
  match mask, mv with
  | None, None => True
  | Some lm, Some m => h !! lm = Some m /\ wf3 m nx ny nz
  | _, _ => False
  end ->
  (0 < length sphere)%nat ->
  dim B 0 = nc -> dim negB 0 = nc -> dim Binv 0 = length sphere ->
  (0 < nx)%nat ->
  exists weights l h' out,
    _get_weights sphere dot_sharpness sigma = Ok weights
    /\ local_asym_gaussian_filtering get_sphere sh_to_sf_matrix in_sh
         sh_order sh_basis out_full_basis dot_sharpness sphere_str sigma
         mask h
       = (Ok l, h')
    /\ (length h <= l)%nat
    /\ h' !! l = Some out
    /\ shape out = [nx; ny; nz; dim Binv 1]
    /\ dtype_of out = dtype_of a
    /\ forall i j k c,
         (i < nx)%nat -> (j < ny)%nat -> (k < nz)%nat ->
         (c < dim Binv 1)%nat ->
         item4 out i j k c
         = Rsum (map (fun d => filtered_value a B negB weights mv d i j k
                               * item2 Binv d c)
                     (seq 0 (length sphere))).
Proof.
  intros sphere in_full_basis B negB Binv Ha Wa Hmask Hn HB HnegB HBinv Hx.
  destruct (local_asym_gaussian_filtering_run get_sphere sh_to_sf_matrix
              h in_sh a nx ny nz nc sh_order sh_basis dot_sharpness sigma
              sphere_str mask mv Ha Wa Hn HB HnegB Hmask out_full_basis
              HBinv)
    as (w & h' & MS & Ew & E & Hlen & _ & WMS & Hval).
  exists w, (length h'),
    (h' ++ [np_array (map (reconstructed MS Binv) (seq 0 nx)) (dtype_of a)]),
    (np_array (map (reconstructed MS Binv) (seq 0 nx)) (dtype_of a)).
  split; [exact Ew|]. split; [exact E|]. split; [exact Hlen|].
  split; [apply list_lookup_middle; reflexivity|].
  destruct (stacked_planes_shape MS Binv (dtype_of a) nx ny nz
              (length sphere) WMS Hx) as [Hshape Hdt].
  split; [exact Hshape|]. split; [exact Hdt|].
  intros i j k c Hi Hj Hk Hc.
  rewrite (reconstructed_stack_item MS Binv _ nx ny nz (length sphere))
    by assumption.
  f_equal. apply map_ext_in. intros d Hdin. apply in_seq in Hdin.
  rewrite Hval by (assumption || (unfold sphere in *; lia)).
  reflexivity.
Qed.

Lemma filter_output_is_projection_of_filtered_samples_witness :
  wf4 (one_voxel 5) 1 1 1 1
  /\ exists weights l h' out,
       _get_weights (demo_get_sphere "repulsion724"%string) 1 1 = Ok weights
       /\ local_asym_gaussian_filtering demo_get_sphere demo_sh_to_sf_matrix
            0%nat 0%nat descoteaux07 true 1 "repulsion724"%string 1
            (Some 1%nat) [one_voxel 5; one_voxel_mask 1]
          = (Ok l, h')
       /\ (length [one_voxel 5; one_voxel_mask 1] <= l)%nat
       /\ h' !! l = Some out
       /\ shape out
          = [1; 1; 1;
             dim (snd (demo_sh_to_sf_matrix
                         (demo_get_sphere "repulsion724"%string) 0
                         descoteaux07 true)) 1]%nat
       /\ dtype_of out = dtype_of (one_voxel 5)
       /\ forall i j k c,
            (i < 1)%nat -> (j < 1)%nat -> (k < 1)%nat ->
            (c < dim (snd (demo_sh_to_sf_matrix
                             (demo_get_sphere "repulsion724"%string) 0
                             descoteaux07 true)) 1)%nat ->
            item4 out i j k c
            = Rsum (map (fun d =>
                           filtered_value (one_voxel 5)
                             (fst (demo_sh_to_sf_matrix
                                     (demo_get_sphere "repulsion724"%string)
                                     0 descoteaux07
                                     (1 =? (0 + 1) ^ 2)%nat))
                             (fst (demo_sh_to_sf_matrix
                                     (neg_sphere
                                        (demo_get_sphere
                                           "repulsion724"%string))
                                     0 descoteaux07
                                     (1 =? (0 + 1) ^ 2)%nat))
                             weights (Some (one_voxel_mask 1)) d i j k
                           * item2 (snd (demo_sh_to_sf_matrix
                                           (demo_get_sphere
                                              "repulsion724"%string) 0
                                           descoteaux07 true)) d c)
                        (seq 0 (length (demo_get_sphere
                                          "repulsion724"%string)))).
Proof.
  assert (Wa : wf4 (one_voxel 5) 1 1 1 1) by (split; reflexivity).
  split; [exact Wa|].
  exact (filter_output_is_projection_of_filtered_samples demo_get_sphere
           demo_sh_to_sf_matrix 0%nat 0%nat descoteaux07 true 1
           "repulsion724"%string 1 (Some 1%nat) (Some (one_voxel_mask 1))
           [one_voxel 5; one_voxel_mask 1] (one_voxel 5) 1 1 1 1
           eq_refl Wa (conj eq_refl (conj eq_refl eq_refl))
           (Nat.lt_0_succ 0) eq_refl eq_refl eq_refl (Nat.lt_0_succ 0)).
Defined.

(** * The kernel of [_get_weights], entry by entry *)

(** Every entry of the kernel is the raw weight over the sum of the raw
    weights of its direction. *)
Lemma kernel_item sphere ds sigma kern x y z n :
  _get_weights sphere ds sigma = Ok kern ->
  (x < 3)%nat -> (y < 3)%nat -> (z < 3)%nat -> (n < length sphere)%nat ->
  item4 kern x y z n
  = item4 (centred_weights sphere ds sigma) x y z n
    / Rsum (dir_slice (centred_weights sphere ds sigma) n).
Proof.
  intros Hk Hx Hy Hz Hn.
  rewrite get_weights_ok in Hk by lia. injection Hk as <-.
  rewrite full4_item by assumption. reflexivity.
Qed.

Lemma offset_norm_sq x y z :
  (x < 3)%nat -> (y < 3)%nat -> (z < 3)%nat -> non_zero_dir x y z = true ->
  1 <= (INR x - 1) ^ 2 + (INR y - 1) ^ 2 + (INR z - 1) ^ 2.
Proof.
  intros Hx Hy Hz Hnz.
  destruct x as [|[|[|x]]]; try lia;
    destruct y as [|[|[|y]]]; try lia;
      destruct z as [|[|[|z]]]; try lia;
        try discriminate Hnz; cbn [INR]; nra.
Qed.

Lemma dir_norm_pos x y z :
  (x < 3)%nat -> (y < 3)%nat -> (z < 3)%nat -> non_zero_dir x y z = true ->
  0 < item4 dir_norm x y z 0.
Proof.
  intros Hx Hy Hz Hnz. rewrite dir_norm_item by assumption.
  apply sqrt_lt_R0.
  pose proof (offset_norm_sq x y z Hx Hy Hz Hnz). lra.
Qed.

Lemma dir_norm_sq x y z :
  (x < 3)%nat -> (y < 3)%nat -> (z < 3)%nat ->
  item4 dir_norm x y z 0 ^ 2
  = (INR x - 1) ^ 2 + (INR y - 1) ^ 2 + (INR z - 1) ^ 2.
Proof.
  intros Hx Hy Hz. rewrite dir_norm_item by assumption.
  rewrite pow2_sqrt; [reflexivity|].
  pose proof (pow2_ge_0 (INR x - 1)). pose proof (pow2_ge_0 (INR y - 1)).
  pose proof (pow2_ge_0 (INR z - 1)). lra.
Qed.

(** The dot product of line 126 is the plain dot product of the offset and
    the vertex over the norm of the offset. *)
Lemma dot_vertices_quotient sphere x y z n v :
  (x < 3)%nat -> (y < 3)%nat -> (z < 3)%nat ->
  non_zero_dir x y z = true -> sphere !! n = Some v ->
  item4 (dot_vertices sphere) x y z n
  = ((INR x - 1) * coord v 0 + (INR y - 1) * coord v 1
     + (INR z - 1) * coord v 2) / item4 dir_norm x y z 0.
Proof.
  intros Hx Hy Hz Hnz Hv.
  rewrite dot_vertices_item
    by (assumption || (eapply lookup_lt_Some; exact Hv)).
  rewrite (list_lookup_total_correct _ _ _ Hv).
  unfold Rdiv. ring.
Qed.

Lemma raw_sum_pos sphere ds sigma n :
  (n < length sphere)%nat ->
  0 < Rsum (dir_slice (centred_weights sphere ds sigma) n).
Proof.
  intros Hn. pose proof (centred_weights_sum_ge_1 sphere ds sigma n Hn). lra.
Qed.

(** X6.  The support of the kernel is an open half-space.  For every
    exponent [dot_sharpness] and every [sigma <> 0], the weight of a
    neighbour offset is strictly positive when the offset has a positive
    dot product with the vertex of the direction, and exactly 0 otherwise
    (the [np.where] of line 128). *)
Theorem kernel_support_is_half_space (sphere : Sphere)
    (dot_sharpness sigma : R) (kern : ndarray) (x y z n : nat)
    (v : R * R * R) :
  _get_weights sphere dot_sharpness sigma = Ok kern ->
  sigma <> 0 ->
  (x < 3)%nat -> (y < 3)%nat -> (z < 3)%nat ->
  non_zero_dir x y z = true ->
  sphere !! n = Some v ->
  let s := (INR x - 1) * coord v 0 + (INR y - 1) * coord v 1
           + (INR z - 1) * coord v 2 in
  (0 < s -> 0 < item4 kern x y z n)
  /\ (s <= 0 -> item4 kern x y z n = 0).
Proof.
  intros Hk Hsig Hx Hy Hz Hnz Hv s.
  assert (Hn : (n < length sphere)%nat) by (eapply lookup_lt_Some; exact Hv).
  pose proof (raw_sum_pos sphere dot_sharpness sigma n Hn) as HS.
  pose proof (dir_norm_pos x y z Hx Hy Hz Hnz) as HN.
  rewrite (kernel_item sphere dot_sharpness sigma kern) by assumption.
  rewrite centred_weights_item by assumption. rewrite Hnz.
  rewrite combined_weights_item, d_weights_item, g_weights_item
    by assumption.
  rewrite (dot_vertices_quotient sphere x y z n v) by assumption.
  fold s.
  split; intros Hs.
  - destruct (Rlt_dec 0 (s / item4 dir_norm x y z 0)) as [_|Hno].
    + apply Rdiv_lt_0_compat; [|exact HS].
      apply Rmult_lt_0_compat; [|apply exp_pos].
      unfold Rpower. apply exp_pos.
    + exfalso. apply Hno. apply Rdiv_lt_0_compat; assumption.
  - destruct (Rlt_dec 0 (s / item4 dir_norm x y z 0)) as [Hpos|_].
    + exfalso.
      assert (0 < s / item4 dir_norm x y z 0 * item4 dir_norm x y z 0)
        by (apply Rmult_lt_0_compat; assumption).
      replace (s / item4 dir_norm x y z 0 * item4 dir_norm x y z 0)
        with s in H by (field; lra).
      lra.
    + unfold Rdiv. ring.
Qed.

Lemma kernel_support_is_half_space_witness :
  _get_weights [(1, 0, 0)] 1 1 = Ok demo_kernel
  /\ 1 <> 0
  /\ non_zero_dir 2 1 1 = true
  /\ (0 < (INR 2 - 1) * coord (1, 0, 0) 0 + (INR 1 - 1) * coord (1, 0, 0) 1
          + (INR 1 - 1) * coord (1, 0, 0) 2 ->
      0 < item4 demo_kernel 2 1 1 0)
  /\ ((INR 2 - 1) * coord (1, 0, 0) 0 + (INR 1 - 1) * coord (1, 0, 0) 1
      + (INR 1 - 1) * coord (1, 0, 0) 2 <= 0 ->
      item4 demo_kernel 2 1 1 0 = 0).
Proof.
  assert (Hk : _get_weights [(1, 0, 0)] 1 1 = Ok demo_kernel)
    by reflexivity.
  split; [exact Hk|]. split; [lra|]. split; [reflexivity|].
  apply (kernel_support_is_half_space [(1, 0, 0)] 1 1 demo_kernel 2 1 1 0
           (1, 0, 0) Hk); [lra | lia | lia | lia | reflexivity | reflexivity].
Defined.

(** The raw weight of a neighbour is at most 1 for a vertex of norm at most
    1 and a non-negative exponent. *)
Lemma raw_weight_le_1 sphere ds sigma x y z n v :
  0 <= ds ->
  (x < 3)%nat -> (y < 3)%nat -> (z < 3)%nat ->
  non_zero_dir x y z = true ->
  sphere !! n = Some v ->
  coord v 0 ^ 2 + coord v 1 ^ 2 + coord v 2 ^ 2 <= 1 ->
  item4 (combined_weights sphere ds sigma) x y z n <= 1.
Proof.
  intros Hds Hx Hy Hz Hnz Hv Hunit.
  assert (Hn : (n < length sphere)%nat) by (eapply lookup_lt_Some; exact Hv).
  pose proof (dir_norm_pos x y z Hx Hy Hz Hnz) as HN.
  pose proof (dir_norm_sq x y z Hx Hy Hz) as HN2.
  rewrite combined_weights_item, d_weights_item, g_weights_item
    by assumption.
  rewrite (dot_vertices_quotient sphere x y z n v) by assumption.
  set (N := item4 dir_norm x y z 0) in *.
  set (s := _ + _ + _).
  assert (Hg : 0 < exp (- N ^ 2 / (2 * sigma ^ 2)) <= 1).
  { split; [apply exp_pos|].
    assert (Hle : - N ^ 2 / (2 * sigma ^ 2) <= 0).
    { unfold Rdiv. rewrite <- (Rmult_0_l (/ (2 * sigma ^ 2))).
      destruct (Req_dec_T sigma 0) as [->|Hs0].
      - replace (2 * 0 ^ 2) with 0 by ring. rewrite Rinv_0. lra.
      - apply Rmult_le_compat_r.
        + left. apply Rinv_0_lt_compat.
          assert (0 < sigma ^ 2) by (apply pow_lt_0_pos || nra). lra.
        + pose proof (pow2_ge_0 N). lra. }
    destruct Hle as [Hlt|Heq].
    - left. rewrite <- exp_0. apply exp_increasing. exact Hlt.
    - rewrite Heq, exp_0. lra. }
  destruct (Rlt_dec 0 (s / N)) as [Hpos|_]; [|lra].
  assert (Hs : s / N <= 1).
  { assert (Hcs : s ^ 2 <= N ^ 2).
    { rewrite HN2. unfold s.
      set (ox := INR x - 1). set (oy := INR y - 1). set (oz := INR z - 1).
      set (vx := coord v 0) in *. set (vy := coord v 1) in *.
      set (vz := coord v 2) in *.
      pose proof (pow2_ge_0 (ox * vy - oy * vx)).
      pose proof (pow2_ge_0 (ox * vz - oz * vx)).
      pose proof (pow2_ge_0 (oy * vz - oz * vy)).
      pose proof (pow2_ge_0 ox). pose proof (pow2_ge_0 oy).
      pose proof (pow2_ge_0 oz).
      assert ((ox ^ 2 + oy ^ 2 + oz ^ 2) * (vx ^ 2 + vy ^ 2 + vz ^ 2)
              <= ox ^ 2 + oy ^ 2 + oz ^ 2) by nra.
      nra. }
    destruct (Rle_dec s N) as [Hle|Hgt].
    - apply (Rmult_le_reg_r N); [exact HN|].
      replace (s / N * N) with s by (field; lra). lra.
    - exfalso. assert (N < s) by lra. nra. }
  assert (Hp : 0 < Rpower (s / N) ds <= 1).
  { unfold Rpower. split; [apply exp_pos|].
    assert (Hln : ln (s / N) <= 0).
    { rewrite <- ln_1. destruct Hs as [Hlt|Heq].
      - left. apply ln_increasing; assumption.
      - rewrite Heq. lra. }
    assert (Hle : ds * ln (s / N) <= 0) by nra.
    destruct Hle as [Hlt|Heq].
    - left. rewrite <- exp_0. apply exp_increasing. exact Hlt.
    - rewrite Heq, exp_0. lra. }
  nra.
Qed.

(** X7.  The centre carries the largest weight.  For a vertex of norm at
    most 1 (the vertices of a sphere are unit vectors), a non-negative
    exponent and [sigma <> 0], no entry of the kernel of a direction
    exceeds its centre entry, which is the reciprocal of the sum of the raw
    weights of the direction and lies in (0, 1]. *)
Theorem centre_weight_is_largest (sphere : Sphere) (dot_sharpness sigma : R)
    (kern : ndarray) (x y z n : nat) (v : R * R * R) :
  _get_weights sphere dot_sharpness sigma = Ok kern ->
  sigma <> 0 -> 0 <= dot_sharpness ->
  sphere !! n = Some v ->
  coord v 0 ^ 2 + coord v 1 ^ 2 + coord v 2 ^ 2 <= 1 ->
  (x < 3)%nat -> (y < 3)%nat -> (z < 3)%nat ->
  item4 kern x y z n <= item4 kern 1 1 1 n
  /\ item4 kern 1 1 1 n
     = 1 / Rsum (dir_slice (centred_weights sphere dot_sharpness sigma) n)
  /\ 0 < item4 kern 1 1 1 n <= 1.
Proof.
  intros Hk Hsig Hds Hv Hunit Hx Hy Hz.
  assert (Hn : (n < length sphere)%nat) by (eapply lookup_lt_Some; exact Hv).
  pose proof (centred_weights_sum_ge_1 sphere dot_sharpness sigma n Hn) as HS.
  set (S := Rsum _) in *.
  assert (Hc : item4 kern 1 1 1 n = 1 / S).
  { rewrite (kernel_item sphere dot_sharpness sigma kern) by (assumption || lia).
    rewrite centred_weights_item by (assumption || lia). reflexivity. }
  assert (HiS : 0 < / S <= 1).
  { split; [apply Rinv_0_lt_compat; lra|].
    rewrite <- Rinv_1. apply Rinv_le_contravar; lra. }
  split; [|split; [exact Hc|rewrite Hc; unfold Rdiv; lra]].
  rewrite Hc.
  rewrite (kernel_item sphere dot_sharpness sigma kern) by assumption.
  fold S. rewrite centred_weights_item by assumption.
  destruct (non_zero_dir x y z) eqn:Hnz; [|lra].
  pose proof (raw_weight_le_1 sphere dot_sharpness sigma x y z n v Hds Hx Hy
                Hz Hnz Hv Hunit) as Hr.
  unfold Rdiv. apply Rmult_le_compat_r; [lra|exact Hr].
Qed.

Lemma centre_weight_is_largest_witness :
  _get_weights [(1, 0, 0)] 1 1 = Ok demo_kernel
  /\ coord (1, 0, 0) 0 ^ 2 + coord (1, 0, 0) 1 ^ 2 + coord (1, 0, 0) 2 ^ 2
     <= 1
  /\ item4 demo_kernel 2 1 1 0 <= item4 demo_kernel 1 1 1 0
  /\ item4 demo_kernel 1 1 1 0
     = 1 / Rsum (dir_slice (centred_weights [(1, 0, 0)] 1 1) 0)
  /\ 0 < item4 demo_kernel 1 1 1 0 <= 1.
Proof.
  assert (Hk : _get_weights [(1, 0, 0)] 1 1 = Ok demo_kernel)
    by reflexivity.
  assert (Hu : coord (1, 0, 0) 0 ^ 2 + coord (1, 0, 0) 1 ^ 2
               + coord (1, 0, 0) 2 ^ 2 <= 1) by (cbn [coord]; lra).
  split; [exact Hk|]. split; [exact Hu|].
  apply (centre_weight_is_largest [(1, 0, 0)] 1 1 demo_kernel 2 1 1 0
           (1, 0, 0) Hk); [lra | lra | reflexivity | exact Hu | lia | lia
                          | lia].
Defined.

(** * The filter is linear in the coefficients *)

Lemma Rsum_map_plus {A} (f g : A -> R) (l : list A) :
  Rsum (map (fun a => f a + g a) l) = Rsum (map f l) + Rsum (map g l).
Proof. induction l as [|a l IH]; unfold Rsum in *; simpl; [|rewrite IH]; lra. Qed.

Lemma Rsum_map_linear {A} (x y : R) (f g u : A -> R) (l : list A) :
  (forall a, In a l -> u a = x * f a + y * g a) ->
  Rsum (map u l) = x * Rsum (map f l) + y * Rsum (map g l).
Proof.
  intros H. rewrite (Rsum_map_ext u (fun a => x * f a + y * g a) l H).
  rewrite Rsum_map_plus, !Rsum_map_scal. reflexivity.
Qed.

Section Linear.

Variables (x y : R) (nx ny nz : nat).

Lemma pad3_linear c1 c2 c3 X Y Z :
  wf3 c1 nx ny nz -> wf3 c2 nx ny nz -> wf3 c3 nx ny nz ->
  combination3 x y nx ny nz c1 c2 c3 ->
  (X < nx + 2)%nat -> (Y < ny + 2)%nat -> (Z < nz + 2)%nat ->
  item3 (pad3 c3) X Y Z
  = x * item3 (pad3 c1) X Y Z + y * item3 (pad3 c2) X Y Z.
Proof.
  intros W1 W2 W3 Hl HX HY HZ.
  destruct (decide (1 <= X <= nx /\ 1 <= Y <= ny /\ 1 <= Z <= nz)%nat)
    as [Hin|Hout].
  - replace X with (X - 1 + 1)%nat by lia.
    replace Y with (Y - 1 + 1)%nat by lia.
    replace Z with (Z - 1 + 1)%nat by lia.
    rewrite (pad3_item_inner c1 nx ny nz), (pad3_item_inner c2 nx ny nz),
      (pad3_item_inner c3 nx ny nz) by (assumption || lia).
    apply Hl; lia.
  - rewrite (pad3_border c1 nx ny nz), (pad3_border c2 nx ny nz),
      (pad3_border c3 nx ny nz) by assumption.
    ring.
Qed.

Lemma naive_value_linear c1 o1 c2 o2 c3 o3 m wv i j k :
  wf3 c1 nx ny nz -> wf3 c2 nx ny nz -> wf3 c3 nx ny nz ->
  wf3 o1 nx ny nz -> wf3 o2 nx ny nz -> wf3 o3 nx ny nz ->
  length wv = 27%nat ->
  combination3 x y nx ny nz c1 c2 c3 -> combination3 x y nx ny nz o1 o2 o3 ->
  (i < nx)%nat -> (j < ny)%nat -> (k < nz)%nat ->
  naive_value c3 o3 m wv i j k
  = x * naive_value c1 o1 m wv i j k + y * naive_value c2 o2 m wv i j k.
Proof.
  intros Wc1 Wc2 Wc3 Wo1 Wo2 Wo3 Hl Hc Ho Hi Hj Hk.
  unfold naive_value.
  destruct (Rlt_dec 0 (item3 m i j k)) as [_|_]; [|ring].
  set (ww := window_weights wv (window (pad3 m) i j k)).
  assert (Hww : length ww = 27%nat)
    by (apply window_weights_length; [exact Hl|apply window_length]).
  unfold scan_window. rewrite !mul_map_seq by exact Hww.
  apply Rsum_map_linear. intros t Ht. apply in_seq in Ht.
  destruct (offset_decomp t ltac:(lia)) as (_ & Ha & Hb & Hcc).
  rewrite (pad3_linear c1 c2 c3), (pad3_linear o1 o2 o3)
    by (assumption || lia).
  destruct (t <=? 13)%nat; ring.
Qed.

Lemma unmasked_value_linear c1 o1 c2 o2 c3 o3 wv i j k :
  wf3 o1 nx ny nz -> wf3 o2 nx ny nz -> wf3 o3 nx ny nz ->
  length wv = 27%nat ->
  combination3 x y nx ny nz c1 c2 c3 -> combination3 x y nx ny nz o1 o2 o3 ->
  (i < nx)%nat -> (j < ny)%nat -> (k < nz)%nat ->
  unmasked_value c3 o3 wv i j k
  = x * unmasked_value c1 o1 wv i j k + y * unmasked_value c2 o2 wv i j k.
Proof.
  intros Wo1 Wo2 Wo3 Hl Hc Ho Hi Hj Hk.
  unfold unmasked_value, window.
  rewrite !mul_map_seq by (rewrite length_insert; exact Hl).
  rewrite (Rsum_map_linear x y
             (fun t => item3 (pad3 o1) (i + t / 9) (j + t / 3 mod 3)
                         (k + t mod 3) * <[13%nat := 0]> wv !!! t)
             (fun t => item3 (pad3 o2) (i + t / 9) (j + t / 3 mod 3)
                         (k + t mod 3) * <[13%nat := 0]> wv !!! t)).
  - rewrite (Hc i j k Hi Hj Hk). ring.
  - intros t Ht. apply in_seq in Ht.
    destruct (offset_decomp t ltac:(lia)) as (_ & Ha & Hb & Hcc).
    rewrite (pad3_linear o1 o2 o3) by (assumption || lia).
    ring.
Qed.

End Linear.

(** [np.dot(in_sh, v)] is linear in [in_sh]. *)
Lemma contract_last_linear x y a1 a2 a3 v nx ny nz nc :
  wf4 a1 nx ny nz nc -> wf4 a2 nx ny nz nc -> wf4 a3 nx ny nz nc ->
  (forall i j k c, (i < nx)%nat -> (j < ny)%nat -> (k < nz)%nat ->
     (c < nc)%nat ->
     item4 a3 i j k c = x * item4 a1 i j k c + y * item4 a2 i j k c) ->
  combination3 x y nx ny nz (contract_last a1 v) (contract_last a2 v)
    (contract_last a3 v).
Proof.
  intros W1 W2 W3 Hl i j k Hi Hj Hk.
  destruct (wf4_dims _ _ _ _ _ W1) as (A0 & A1 & A2 & A3).
  destruct (wf4_dims _ _ _ _ _ W2) as (B0 & B1 & B2 & B3).
  destruct (wf4_dims _ _ _ _ _ W3) as (C0 & C1 & C2 & C3).
  unfold contract_last.
  rewrite A0, A1, A2, A3, B0, B1, B2, B3, C0, C1, C2, C3.
  rewrite !full3_item by assumption.
  apply Rsum_map_linear. intros c Hc. apply in_seq in Hc.
  rewrite Hl by (assumption || lia). ring.
Qed.

Lemma filtered_value_linear x y a1 a2 a3 B negB w mv nx ny nz nc d i j k :
  wf4 a1 nx ny nz nc -> wf4 a2 nx ny nz nc -> wf4 a3 nx ny nz nc ->
  (forall i j k c, (i < nx)%nat -> (j < ny)%nat -> (k < nz)%nat ->
     (c < nc)%nat ->
     item4 a3 i j k c = x * item4 a1 i j k c + y * item4 a2 i j k c) ->
  (i < nx)%nat -> (j < ny)%nat -> (k < nz)%nat ->
  filtered_value a3 B negB w mv d i j k
  = x * filtered_value a1 B negB w mv d i j k
    + y * filtered_value a2 B negB w mv d i j k.
Proof.
  intros W1 W2 W3 Hl Hi Hj Hk.
  pose proof (contract_last_linear x y a1 a2 a3 (column B d) nx ny nz nc
                W1 W2 W3 Hl) as Hc.
  pose proof (contract_last_linear x y a1 a2 a3 (column negB d) nx ny nz nc
                W1 W2 W3 Hl) as Ho.
  unfold filtered_value. destruct mv as [m|].
  - apply (naive_value_linear x y nx ny nz);
      first [ apply (wf3_contract_last _ _ nx ny nz nc); assumption
            | apply dir_slice_length | assumption ].
  - apply (unmasked_value_linear x y nx ny nz);
      first [ apply (wf3_contract_last _ _ nx ny nz nc); assumption
            | apply dir_slice_length | assumption ].
Qed.

(** X8.  The filter is linear in the coefficient field.  If the field [a3]
    is, cell by cell, the combination [x * a1 + y * a2] of two fields of the
    same shape, then with the same configuration and the same mask (or no
    mask) the output for [a3] is, cell by cell, the same combination of the
    outputs for [a1] and [a2]: the kernel and its renormalisation under the
    mask depend on the mask only, never on the samples. *)
Theorem filter_is_linear
    (get_sphere : string -> Sphere)
    (sh_to_sf_matrix : Sphere -> nat -> basis -> bool -> ndarray * ndarray)
    (l1 l2 l3 : loc) (sh_order : nat) (sh_basis : basis)
    (out_full_basis : bool) (dot_sharpness : R) (sphere_str : string)
    (sigma : R) (mask : option loc) (mv : option ndarray)
    (h : heap) (a1 a2 a3 : ndarray) (nx ny nz nc : nat) (x y : R) :
  let sphere := get_sphere sphere_str in
  let in_full_basis := (nc =? (sh_order + 1) ^ 2)%nat in
  let B := fst (sh_to_sf_matrix sphere sh_order sh_basis in_full_basis) in
  let negB := fst (sh_to_sf_matrix (neg_sphere sphere) sh_order sh_basis
                     in_full_basis) in
  let Binv := snd (sh_to_sf_matrix sphere sh_order sh_basis out_full_basis) in
  let run := fun l =>
    local_asym_gaussian_filtering get_sphere sh_to_sf_matrix l sh_order
      sh_basis out_full_basis dot_sharpness sphere_str sigma mask h in
  h !! l1 = Some a1 -> h !! l2 = Some a2 -> h !! l3 = Some a3 ->
  wf4 a1 nx ny nz nc -> wf4 a2 nx ny nz nc -> wf4 a3 nx ny nz nc ->
  match mask, mv with
  | None, None => True
  | Some lm, Some m => h !! lm = Some m /\ wf3 m nx ny nz
  | _, _ => False
  end ->
  (0 < length sphere)%nat ->
  dim B 0 = nc -> dim negB 0 = nc -> dim Binv 0 = length sphere ->
  (forall i j k c, (i < nx)%nat -> (j < ny)%nat -> (k < nz)%nat ->
     (c < nc)%nat ->
     item4 a3 i j k c = x * item4 a1 i j k c + y * item4 a2 i j k c) ->
  exists r1 h1 out1 r2 h2 out2 r3 h3 out3,
    run l1 = (Ok r1, h1) /\ h1 !! r1 = Some out1
    /\ run l2 = (Ok r2, h2) /\ h2 !! r2 = Some out2
    /\ run l3 = (Ok r3, h3) /\ h3 !! r3 = Some out3
    /\ forall i j k c,
         (i < nx)%nat -> (j < ny)%nat -> (k < nz)%nat ->
         (c < dim Binv 1)%nat ->
         item4 out3 i j k c
         = x * item4 out1 i j k c + y * item4 out2 i j k c.
Proof.
  intros sphere in_full_basis B negB Binv run H1 H2 H3 W1 W2 W3 Hmask Hn
    HB HnegB HBinv Hl.
  destruct (local_asym_gaussian_filtering_run get_sphere sh_to_sf_matrix
              h l1 a1 nx ny nz nc sh_order sh_basis dot_sharpness sigma
              sphere_str mask mv H1 W1 Hn HB HnegB Hmask out_full_basis
              HBinv)
    as (w1 & h1 & MS1 & Ew1 & E1 & _ & _ & WMS1 & Hval1).
  destruct (local_asym_gaussian_filtering_run get_sphere sh_to_sf_matrix
              h l2 a2 nx ny nz nc sh_order sh_basis dot_sharpness sigma
              sphere_str mask mv H2 W2 Hn HB HnegB Hmask out_full_basis
              HBinv)
    as (w2 & h2 & MS2 & Ew2 & E2 & _ & _ & WMS2 & Hval2).
  destruct (local_asym_gaussian_filtering_run get_sphere sh_to_sf_matrix
              h l3 a3 nx ny nz nc sh_order sh_basis dot_sharpness sigma
              sphere_str mask mv H3 W3 Hn HB HnegB Hmask out_full_basis
              HBinv)
    as (w3 & h3 & MS3 & Ew3 & E3 & _ & _ & WMS3 & Hval3).
  assert (w2 = w1) as -> by congruence.
  assert (w3 = w1) as -> by congruence.
  eexists _, _, _, _, _, _, _, _, _.
  split; [exact E1|]. split; [apply list_lookup_middle; reflexivity|].
  split; [exact E2|]. split; [apply list_lookup_middle; reflexivity|].
  split; [exact E3|]. split; [apply list_lookup_middle; reflexivity|].
  intros i j k c Hi Hj Hk Hc.
  rewrite !(reconstructed_stack_item _ Binv _ nx ny nz (length sphere))
    by assumption.
  apply Rsum_map_linear. intros d Hd. apply in_seq in Hd.
  rewrite Hval1, Hval2, Hval3 by (assumption || (unfold sphere in *; lia)).
  rewrite (filtered_value_linear x y a1 a2 a3 _ _ w1 mv nx ny nz nc)
    by assumption.
  ring.
Qed.

Lemma filter_is_linear_witness :
  wf4 (one_voxel 7) 1 1 1 1
  /\ (forall i j k c, (i < 1)%nat -> (j < 1)%nat -> (k < 1)%nat ->
        (c < 1)%nat ->
        item4 (one_voxel 7) i j k c
        = 2 * item4 (one_voxel 2) i j k c + 1 * item4 (one_voxel 3) i j k c)
  /\ exists r1 h1 out1 r2 h2 out2 r3 h3 out3,
       local_asym_gaussian_filtering demo_get_sphere demo_sh_to_sf_matrix
         0%nat 0%nat descoteaux07 true 1 "repulsion724"%string 1
         (Some 3%nat)
         [one_voxel 2; one_voxel 3; one_voxel 7; one_voxel_mask 1]
       = (Ok r1, h1) /\ h1 !! r1 = Some out1
       /\ local_asym_gaussian_filtering demo_get_sphere demo_sh_to_sf_matrix
            1%nat 0%nat descoteaux07 true 1 "repulsion724"%string 1
            (Some 3%nat)
            [one_voxel 2; one_voxel 3; one_voxel 7; one_voxel_mask 1]
          = (Ok r2, h2) /\ h2 !! r2 = Some out2
       /\ local_asym_gaussian_filtering demo_get_sphere demo_sh_to_sf_matrix
            2%nat 0%nat descoteaux07 true 1 "repulsion724"%string 1
            (Some 3%nat)
            [one_voxel 2; one_voxel 3; one_voxel 7; one_voxel_mask 1]
          = (Ok r3, h3) /\ h3 !! r3 = Some out3
       /\ forall i j k c,
            (i < 1)%nat -> (j < 1)%nat -> (k < 1)%nat ->
            (c < dim (snd (demo_sh_to_sf_matrix
                             (demo_get_sphere "repulsion724"%string) 0
                             descoteaux07 true)) 1)%nat ->
            item4 out3 i j k c
            = 2 * item4 out1 i j k c + 1 * item4 out2 i j k c.
Proof.
  assert (W : forall v, wf4 (one_voxel v) 1 1 1 1)
    by (intros v; split; reflexivity).
  assert (Hl : forall i j k c, (i < 1)%nat -> (j < 1)%nat -> (k < 1)%nat ->
             (c < 1)%nat ->
             item4 (one_voxel 7) i j k c
             = 2 * item4 (one_voxel 2) i j k c
               + 1 * item4 (one_voxel 3) i j k c).
  { intros [|i] [|j] [|k] [|c] Hi Hj Hk Hc; try lia.
    unfold item4. cbn. lra. }
  split; [apply W|]. split; [exact Hl|].
  exact (filter_is_linear demo_get_sphere demo_sh_to_sf_matrix
           0%nat 1%nat 2%nat 0%nat descoteaux07 true 1
           "repulsion724"%string 1 (Some 3%nat) (Some (one_voxel_mask 1))
           [one_voxel 2; one_voxel 3; one_voxel 7; one_voxel_mask 1]
           (one_voxel 2) (one_voxel 3) (one_voxel 7) 1 1 1 1 2 1
           eq_refl eq_refl eq_refl (W 2) (W 3) (W 7)
           (conj eq_refl (conj eq_refl eq_refl))
           (Nat.lt_0_succ 0) eq_refl eq_refl eq_refl Hl).
Defined.

(** * Edge behaviour of the masked path and of the kernel *)

(** The masked weights of a window whose only non-zero cell is the centre:
    the centre gets weight 1. *)
Lemma window_weights_centre_only wv win :
  length wv = 27%nat -> length win = 27%nat ->
  wv !!! 13%nat <> 0 -> win !!! 13%nat <> 0 ->
  (forall t, (t < 27)%nat -> t <> 13%nat -> win !!! t = 0) ->
  window_weights wv win !!! 13%nat = 1.
Proof.
  intros Hl Hw Hc Hm Hz. unfold window_weights.
  set (cw := mul wv win).
  assert (Hlen : length cw = 27%nat)
    by (unfold cw; rewrite mul_length; lia).
  assert (H13 : cw !!! 13%nat = wv !!! 13%nat * win !!! 13%nat)
    by (unfold cw; rewrite mul_lookup_total by lia; reflexivity).
  assert (Hne : cw !!! 13%nat <> 0).
  { rewrite H13. intros E. apply Rmult_integral in E. tauto. }
  assert (Hs : Rsum cw = cw !!! 13%nat).
  { rewrite <- (Rsum_lookup_seq cw 27 Hlen).
    apply (Rsum_single (fun t => cw !!! t) 27 13); [lia|].
    intros t Ht Hnt. unfold cw. rewrite mul_lookup_total by lia.
    rewrite (Hz t Ht Hnt). ring. }
  rewrite (np_any_true cw 13) by (lia || exact Hne).
  apply list_lookup_total_correct.
  change (map ?g ?l) with (g <$> l). rewrite list_lookup_fmap.
  rewrite (list_lookup_lookup_total_lt cw 13) by lia.
  cbn. f_equal. rewrite Hs. field. exact Hne.
Qed.

Lemma naive_value_isolated c o m wv nx ny nz i j k :
  wf3 c nx ny nz -> wf3 o nx ny nz -> wf3 m nx ny nz ->
  length wv = 27%nat -> wv !!! 13%nat <> 0 ->
  (i < nx)%nat -> (j < ny)%nat -> (k < nz)%nat ->
  0 < item3 m i j k ->
  (forall i' j' k',
     (i' < nx)%nat -> (j' < ny)%nat -> (k' < nz)%nat ->
     (i - 1 <= i' <= i + 1)%nat -> (j - 1 <= j' <= j + 1)%nat ->
     (k - 1 <= k' <= k + 1)%nat ->
     (i', j', k') <> (i, j, k) -> item3 m i' j' k' = 0) ->
  naive_value c o m wv i j k = item3 c i j k.
Proof.
  intros Wc Wo Wm Hl Hw Hi Hj Hk Hm Hiso.
  unfold naive_value.
  destruct (Rlt_dec 0 (item3 m i j k)) as [_|Hn]; [|contradiction].
  set (win := window (pad3 m) i j k).
  assert (Hwl : length win = 27%nat) by apply window_length.
  assert (Hwc : win !!! 13%nat = item3 m i j k).
  { unfold win. rewrite window_centre.
    apply (pad3_item_inner m nx ny nz); assumption. }
  assert (Hwz : forall t, (t < 27)%nat -> t <> 13%nat -> win !!! t = 0).
  { intros t Ht Hne. unfold win. rewrite window_item by exact Ht.
    destruct (offset_decomp t Ht) as (Et & Ha & Hb & Hcc).
    destruct (decide (1 <= i + t / 9 <= nx /\ 1 <= j + t / 3 mod 3 <= ny
                      /\ 1 <= k + t mod 3 <= nz)%nat) as [Hin|Hout].
    - replace (i + t / 9)%nat with (i + t / 9 - 1 + 1)%nat by lia.
      replace (j + t / 3 mod 3)%nat with (j + t / 3 mod 3 - 1 + 1)%nat
        by lia.
      replace (k + t mod 3)%nat with (k + t mod 3 - 1 + 1)%nat by lia.
      rewrite (pad3_item_inner m nx ny nz) by (assumption || lia).
      set (a := (t / 9)%nat) in *. set (b := (t / 3 mod 3)%nat) in *.
      set (e := (t mod 3)%nat) in *.
      apply Hiso; try lia.
      intros E. injection E as E1 E2 E3. lia.
    - apply (pad3_border m nx ny nz); (assumption || lia). }
  set (ww := window_weights wv win).
  assert (Hww : length ww = 27%nat)
    by (apply window_weights_length; assumption).
  assert (H13 : ww !!! 13%nat = 1).
  { apply window_weights_centre_only; try assumption.
    rewrite Hwc. lra. }
  unfold scan_window. rewrite mul_map_seq by exact Hww.
  rewrite (Rsum_single _ 27 13).
  - rewrite H13. change (13 <=? 13)%nat with true. cbv beta iota.
    change (13 / 9)%nat with 1%nat. change (13 / 3 mod 3)%nat with 1%nat.
    change (13 mod 3)%nat with 1%nat.
    rewrite (pad3_item_inner c nx ny nz) by assumption. ring.
  - lia.
  - intros t Ht Hne.
    assert (Hz : ww !!! t = 0)
      by (apply window_weights_zero; auto).
    rewrite Hz. ring.
Qed.

(** X9.  An isolated voxel is left unfiltered.  When a voxel is in the mask
    and none of its neighbours in the volume is, the masked path returns at
    this voxel exactly its direct sample: the kernel, restricted to the
    mask and renormalised, is 1 at the centre and 0 elsewhere, whatever the
    kernel of the direction is. *)
Theorem isolated_voxel_keeps_its_sample (h : heap) (lc lo lm : loc)
    (w : view) (c o m kern : ndarray) (sphere : Sphere)
    (dot_sharpness sigma : R) (nx ny nz i j k : nat) :
  h !! lc = Some c -> h !! lo = Some o -> h !! lm = Some m ->
  h !! base w = Some kern ->
  _get_weights sphere dot_sharpness sigma = Ok kern ->
  (dir w < length sphere)%nat ->
  wf3 c nx ny nz -> wf3 o nx ny nz -> wf3 m nx ny nz ->
  (i < nx)%nat -> (j < ny)%nat -> (k < nz)%nat ->
  0 < item3 m i j k ->
  (forall i' j' k',
     (i' < nx)%nat -> (j' < ny)%nat -> (k' < nz)%nat ->
     (i - 1 <= i' <= i + 1)%nat -> (j - 1 <= j' <= j + 1)%nat ->
     (k - 1 <= k' <= k + 1)%nat ->
     (i', j', k') <> (i, j, k) -> item3 m i' j' k' = 0) ->
  exists h' out,
    _apply_naive_correlation lc lo w lm h = (Ok (length h), h')
    /\ h' !! length h = Some out
    /\ item3 out i j k = item3 c i j k.
Proof.
  intros Hc Ho Hm Hw Hk Hd Wc Wo Wm Hi Hj Hkk Hin Hiso.
  eexists _, _.
  split; [apply (apply_naive_correlation_run h lc lo w lm c o m kern
                   nx ny nz); first [assumption | apply Wc | apply Wo
                                    | apply Wm]|].
  split; [apply list_lookup_middle; reflexivity|].
  rewrite (naive_final_item c o m _ nx ny nz Wc Wo Wm) by assumption.
  apply (naive_value_isolated c o m _ nx ny nz); try assumption.
  - apply dir_slice_length.
  - pose proof (kernel_slice_centre_pos sphere dot_sharpness sigma kern
                  (dir w) Hk Hd). lra.
Qed.

Lemma isolated_voxel_keeps_its_sample_witness :
  _get_weights (demo_get_sphere EmptyString) 1 1 = Ok demo_kernel
  /\ 0 < item3 (one_voxel_mask 1) 0 0 0
  /\ exists h' out,
       _apply_naive_correlation 0%nat 1%nat (View 3 0) 2%nat
         [one_voxel_sample 2; one_voxel_sample 3; one_voxel_mask 1; demo_kernel]
       = (Ok (length [one_voxel_sample 2; one_voxel_sample 3;
                      one_voxel_mask 1; demo_kernel]), h')
       /\ h' !! length [one_voxel_sample 2; one_voxel_sample 3;
                        one_voxel_mask 1; demo_kernel] = Some out
       /\ item3 out 0 0 0 = item3 (one_voxel_sample 2) 0 0 0.
Proof.
  assert (Hk : _get_weights (demo_get_sphere EmptyString) 1 1
               = Ok demo_kernel) by reflexivity.
  assert (Hm : 0 < item3 (one_voxel_mask 1) 0 0 0)
    by (unfold item3; cbn; lra).
  split; [exact Hk|]. split; [exact Hm|].
  apply (isolated_voxel_keeps_its_sample
           [one_voxel_sample 2; one_voxel_sample 3; one_voxel_mask 1; demo_kernel]
           0%nat 1%nat 2%nat (View 3 0) (one_voxel_sample 2)
           (one_voxel_sample 3) (one_voxel_mask 1) demo_kernel
           (demo_get_sphere EmptyString) 1 1 1 1 1 0 0 0);
    [ reflexivity | reflexivity | reflexivity | reflexivity | exact Hk
    | exact (Nat.lt_0_succ 0) | split; reflexivity | split; reflexivity
    | split; reflexivity | lia | lia | lia | exact Hm | ].
  intros [|i'] [|j'] [|k'] Hi Hj Hk' _ _ _ Hne; try lia.
  exfalso. apply Hne. reflexivity.
Defined.

(** X10.  A sphere without directions is rejected before anything is
    allocated: the [reshape((-1, 0))] of line 133 raises in
    [_get_weights], which the filter calls first, so the call ends in this
    exception with the store as it was, for every input, mask and
    configuration. *)
Theorem empty_sphere_is_rejected
    (get_sphere : string -> Sphere)
    (sh_to_sf_matrix : Sphere -> nat -> basis -> bool -> ndarray * ndarray)
    (in_sh : loc) (sh_order : nat) (sh_basis : basis) (out_full_basis : bool)
    (dot_sharpness : R) (sphere_str : string) (sigma : R)
    (mask : option loc) (h : heap) :
  length (get_sphere sphere_str) = 0%nat ->
  _get_weights (get_sphere sphere_str) dot_sharpness sigma
  = Raise ValueError_reshape
  /\ local_asym_gaussian_filtering get_sphere sh_to_sf_matrix in_sh sh_order
       sh_basis out_full_basis dot_sharpness sphere_str sigma mask h
     = (Raise ValueError_reshape, h).
Proof.
  intros Hn.
  assert (Hw : _get_weights (get_sphere sphere_str) dot_sharpness sigma
               = Raise ValueError_reshape).
  { unfold _get_weights. rewrite column_sums_empty by exact Hn.
    reflexivity. }
  split; [exact Hw|].
  unfold local_asym_gaussian_filtering.
  apply bind_raise.
  unfold filter_on_sphere.
  apply bind_raise.
  rewrite Hw. apply lift_run.
Qed.

Lemma empty_sphere_is_rejected_witness :
  length ((fun _ : string => @nil (R * R * R)) "repulsion724"%string) = 0%nat
  /\ _get_weights [] 1 1 = Raise ValueError_reshape
  /\ local_asym_gaussian_filtering (fun _ => []) demo_sh_to_sf_matrix
       0%nat 0%nat descoteaux07 true 1 "repulsion724"%string 1 None
       [one_voxel 5]
     = (Raise ValueError_reshape, [one_voxel 5]).
Proof.
  split; [reflexivity|].
  exact (empty_sphere_is_rejected (fun _ => []) demo_sh_to_sf_matrix
           0%nat 0%nat descoteaux07 true 1 "repulsion724"%string 1 None
           [one_voxel 5] eq_refl).
Defined.

(** * The kernel of the opposite sphere *)

Lemma mirror_offset x : (x < 3)%nat -> INR (2 - x) - 1 = - (INR x - 1).
Proof. intros Hx. destruct x as [|[|[|x]]]; try lia; cbn [Nat.sub INR]; lra. Qed.

Lemma mirror_non_zero_dir x y z :
  (x < 3)%nat -> (y < 3)%nat -> (z < 3)%nat ->
  non_zero_dir (2 - x) (2 - y) (2 - z) = non_zero_dir x y z.
Proof.
  intros Hx Hy Hz.
  destruct x as [|[|[|x]]]; try lia;
    destruct y as [|[|[|y]]]; try lia;
      destruct z as [|[|[|z]]]; try lia; reflexivity.
Qed.

Lemma mirror_dir_norm x y z :
  (x < 3)%nat -> (y < 3)%nat -> (z < 3)%nat ->
  item4 dir_norm (2 - x) (2 - y) (2 - z) 0 = item4 dir_norm x y z 0.
Proof.
  intros Hx Hy Hz. rewrite !dir_norm_item by lia.
  rewrite !mirror_offset by assumption. f_equal. ring.
Qed.

Lemma neg_sphere_lookup sphere n v :
  sphere !! n = Some v ->
  neg_sphere sphere !! n
  = Some (- coord v 0, - coord v 1, - coord v 2).
Proof.
  intros Hv. unfold neg_sphere.
  change (map ?g ?l) with (g <$> l). rewrite list_lookup_fmap, Hv.
  destruct v as [[vx vy] vz]. reflexivity.
Qed.

Lemma neg_sphere_length sphere : length (neg_sphere sphere) = length sphere.
Proof. unfold neg_sphere. apply length_map. Qed.

(** The raw weights of the opposite sphere are those of the sphere at the
    opposite offset. *)
Lemma mirror_centred_weights sphere ds sigma x y z n :
  (x < 3)%nat -> (y < 3)%nat -> (z < 3)%nat -> (n < length sphere)%nat ->
  item4 (centred_weights (neg_sphere sphere) ds sigma) (2 - x) (2 - y)
        (2 - z) n
  = item4 (centred_weights sphere ds sigma) x y z n.
Proof.
  intros Hx Hy Hz Hn.
  destruct (lookup_lt_is_Some_2 sphere n Hn) as [v Hv].
  pose proof (neg_sphere_lookup sphere n v Hv) as Hv'.
  rewrite !centred_weights_item
    by (rewrite ?neg_sphere_length; (assumption || lia)).
  rewrite mirror_non_zero_dir by assumption.
  destruct (non_zero_dir x y z) eqn:Hnz; [|reflexivity].
  rewrite !combined_weights_item, !d_weights_item, !g_weights_item
    by (rewrite ?neg_sphere_length; (assumption || lia)).
  rewrite (dot_vertices_quotient (neg_sphere sphere) (2 - x) (2 - y) (2 - z)
             n _) by (first [lia | exact Hv'
                            | rewrite mirror_non_zero_dir; assumption]).
  rewrite (dot_vertices_quotient sphere x y z n v) by assumption.
  rewrite mirror_dir_norm by assumption.
  rewrite !mirror_offset by assumption.
  cbn [coord].
  replace (- (INR x - 1) * - coord v 0 + - (INR y - 1) * - coord v 1
           + - (INR z - 1) * - coord v 2)
    with ((INR x - 1) * coord v 0 + (INR y - 1) * coord v 1
          + (INR z - 1) * coord v 2) by ring.
  reflexivity.
Qed.

Lemma Rsum_mirror (G : nat -> nat -> nat -> R) :
  Rsum (map (fun o => G (2 - o / 9) (2 - o / 3 mod 3) (2 - o mod 3))%nat
            (seq 0 27))
  = Rsum (map (fun o => G (o / 9) (o / 3 mod 3) (o mod 3))%nat (seq 0 27)).
Proof. unfold Rsum. cbn. ring. Qed.

Lemma centred_slice_items sphere ds sigma n :
  (n < length sphere)%nat ->
  dir_slice (centred_weights sphere ds sigma) n
  = map (fun o => item4 (centred_weights sphere ds sigma)
                        (o / 9) (o / 3 mod 3) (o mod 3) n)%nat (seq 0 27).
Proof.
  intros Hn. rewrite centred_weights_slice by exact Hn.
  apply map_ext_in. intros o Ho. apply in_seq in Ho.
  destruct (offset_bounds o ltac:(lia)) as (Ha & Hb & Hc).
  rewrite centred_weights_item by assumption. reflexivity.
Qed.

Lemma mirror_raw_sum sphere ds sigma n :
  (n < length sphere)%nat ->
  Rsum (dir_slice (centred_weights (neg_sphere sphere) ds sigma) n)
  = Rsum (dir_slice (centred_weights sphere ds sigma) n).
Proof.
  intros Hn.
  rewrite !centred_slice_items by (rewrite ?neg_sphere_length; exact Hn).
  rewrite <- (Rsum_mirror
                (fun x y z => item4 (centred_weights sphere ds sigma) x y z n)).
  apply Rsum_map_ext. intros o Ho. apply in_seq in Ho.
  destruct (offset_bounds o ltac:(lia)) as (Ha & Hb & Hc).
  rewrite <- (mirror_centred_weights sphere ds sigma) by (assumption || lia).
  replace (2 - (2 - o / 9))%nat with (o / 9)%nat by lia.
  replace (2 - (2 - o / 3 mod 3))%nat with (o / 3 mod 3)%nat by lia.
  replace (2 - (2 - o mod 3))%nat with (o mod 3)%nat by lia.
  reflexivity.
Qed.

(** X11.  The kernel is point-symmetric under the change of hemisphere: the
    kernel of the opposite sphere [Sphere(xyz=-sphere.vertices)] (the sphere
    of [neg_B]) at the offset [(2 - x, 2 - y, 2 - z)] is the kernel of the
    sphere at the offset [(x, y, z)], for every direction, exponent and
    sigma. *)
Theorem kernel_of_opposite_sphere_is_mirrored (sphere : Sphere)
    (dot_sharpness sigma : R) (kern kern' : ndarray) (x y z n : nat) :
  _get_weights sphere dot_sharpness sigma = Ok kern ->
  _get_weights (neg_sphere sphere) dot_sharpness sigma = Ok kern' ->
  (x < 3)%nat -> (y < 3)%nat -> (z < 3)%nat -> (n < length sphere)%nat ->
  item4 kern' (2 - x) (2 - y) (2 - z) n = item4 kern x y z n.
Proof.
  intros Hk Hk' Hx Hy Hz Hn.
  rewrite (kernel_item (neg_sphere sphere) dot_sharpness sigma kern')
    by (rewrite ?neg_sphere_length; (assumption || lia)).
  rewrite (kernel_item sphere dot_sharpness sigma kern) by assumption.
  rewrite mirror_centred_weights, mirror_raw_sum by assumption.
  reflexivity.
Qed.

Lemma kernel_of_opposite_sphere_is_mirrored_witness :
  _get_weights [(1, 0, 0)] 1 1 = Ok demo_kernel
  /\ exists kern',
       _get_weights (neg_sphere [(1, 0, 0)]) 1 1 = Ok kern'
       /\ item4 kern' (2 - 2) (2 - 1) (2 - 1) 0 = item4 demo_kernel 2 1 1 0.
Proof.
  assert (Hk : _get_weights [(1, 0, 0)] 1 1 = Ok demo_kernel)
    by reflexivity.
  split; [exact Hk|].
  pose proof (get_weights_ok (neg_sphere [(1, 0, 0)]) 1 1 (Nat.lt_0_succ 0))
    as Hk'.
  eexists. split; [exact Hk'|].
  apply (kernel_of_opposite_sphere_is_mirrored [(1, 0, 0)] 1 1 demo_kernel _
           2 1 1 0 Hk Hk'); [lia | lia | lia | exact (Nat.lt_0_succ 0)].
Defined.
